(** * scikit-activeml: batch selection, expected error reduction and
      sub-sampling, embedded in Rocq

    The development follows the Python sources
      - [skactiveml/utils/_functions.py]      ([simple_batch]),
      - [skactiveml/pool/_expected_error.py]  ([ExpectedErrorReduction]),
      - [skactiveml/pool/_wrapper.py]         ([SubSamplingWrapper]),
    and the query-strategy contract they rely on.

    Conventions of the embedding.
      - A NumPy float is a value of [float]: [NaN], a signed infinity or a
        finite value.  Finite values are exact rationals: rounding is not
        modelled, the special values are.
      - NumPy arrays are objects: they live in a store ([arrays]) and are
        passed by reference ([loc]), so that in-place assignment is visible
        to every holder of the reference.
      - Python code that raises, warns, draws random numbers or fits a model
        runs in the monad [M]: a state transformer over [world] whose result
        is a value or a raised exception. *)

From Stdlib Require Import QArith Qround Qabs ZArith Lia.
From stdpp Require Import base tactics option list gmap strings.

Set Default Proof Using "Type".

(** ** Floating-point values *)

Inductive float : Type :=
  | NaN
  | Inf (negative : bool)
  | Fin (q : Q).

Definition isnan (x : float) : bool :=
  match x with NaN => true | _ => false end.

Definition isinf (x : float) : bool :=
  match x with Inf _ => true | _ => false end.

(** [x <= y] on floats; every comparison with [NaN] is false. *)
Definition fleb (x y : float) : bool :=
  match x, y with
  | NaN, _ | _, NaN => false
  | Inf true, _ => true
  | _, Inf false => true
  | Inf false, _ => false
  | _, Inf true => false
  | Fin a, Fin b => Qle_bool a b
  end.

(** [x == y] on floats; [NaN] is different from everything, itself included. *)
Definition feqb (x y : float) : bool :=
  match x, y with
  | Fin a, Fin b => Qeq_bool a b
  | Inf a, Inf b => Bool.eqb a b
  | _, _ => false
  end.

Definition fmaxf (x y : float) : float := if fleb x y then y else x.

(** ** Exceptions, warnings and results *)

Inductive exn : Type := TypeError | ValueError | IndexError.

Inductive result (A : Type) : Type :=
  | Ok (a : A)
  | Err (e : exn).
Arguments Ok {A} a.
Arguments Err {A} e.

Definition is_ok {A} (r : result A) : bool :=
  match r with Ok _ => true | Err _ => false end.

(** The warning of a clipped batch size ([simple_batch], lines 74-77), with
    the two numbers its message is formatted from. *)
Inductive warning : Type :=
  | BatchSizeWarning (requested : Z) (instead : nat).

(** ** Arrays *)

Inductive dtype : Type := Float64 | OtherDtype.

#[global] Instance dtype_eq_dec : EqDecision dtype.
Proof. solve_decision. Defined.

(** An n-dimensional array: element type, shape and the elements in row-major
    (C) order. *)
Record ndarray : Type := NdArray {
  nd_dtype : dtype;
  shape : list nat;
  data : list float;
}.

Definition ndim (a : ndarray) : nat := length (shape a).

Definition prod_shape (s : list nat) : nat := foldr Nat.mul 1 s.

Definition wf_ndarray (a : ndarray) : Prop :=
  length (data a) = prod_shape (shape a).

(** [np.unravel_index] and its inverse, in row-major order. *)
Fixpoint unravel_index (s : list nat) (k : nat) : list nat :=
  match s with
  | [] => []
  | _ :: s' => (k / prod_shape s') :: unravel_index s' (k mod prod_shape s')
  end.

Fixpoint ravel_multi_index (s : list nat) (idx : list nat) : nat :=
  match s, idx with
  | _ :: s', i :: idx' => i * prod_shape s' + ravel_multi_index s' idx'
  | _, _ => 0
  end.

(** A multi-index addresses an element when it has one component per axis,
    each below the extent of its axis. *)
Fixpoint index_in_bounds (s : list nat) (idx : list nat) : bool :=
  match s, idx with
  | [], [] => true
  | d :: s', i :: idx' => (i <? d) && index_in_bounds s' idx'
  | _, _ => false
  end.

(** [np.sum(~np.isnan(a), dtype=int)] *)
Definition count_not_nan (d : list float) : nat :=
  length (List.filter (λ x, negb (isnan x)) d).

(** Row [k] of an array whose first axis indexes rows. *)
Definition nd_row (a : ndarray) (k : nat) : list float :=
  let w := prod_shape (tail (shape a)) in
  take w (drop (k * w) (data a)).

(** ** Random sources

    NumPy's [RandomState] is an external collaborator; the sources only need
    a way to seed one, to derive the per-call generator of the sub-sampling
    wrapper, and to draw an integer below a bound.  No law is assumed: every
    use reduces the draw modulo the bound. *)

Class RandomSource : Type := {
  RandomState : Type;
  rs_seed : Z → RandomState;
  rs_derive : RandomState → Z → RandomState;
  rs_randint : RandomState → nat → nat * RandomState;
}.

(** ** The monad of effectful code: state passing with exceptions.  The
    state reached when an exception is raised is kept: what was mutated
    before the raise stays mutated. *)

Definition ST (S A : Type) : Type := S → result A * S.

#[global] Instance ST_ret {S} : MRet (ST S) := λ A a s, (Ok a, s).
#[global] Instance ST_bind {S} : MBind (ST S) := λ A B f m s,
  match m s with
  | (Ok a, s') => f a s'
  | (Err e, s') => (Err e, s')
  end.

Definition raise {S A} (e : exn) : ST S A := λ s, (Err e, s).
Definition lift_result {S A} (r : result A) : ST S A := λ s, (r, s).
Definition lift_opt {S A} (e : exn) (o : option A) : ST S A := λ s,
  (match o with Some a => Ok a | None => Err e end, s).

Definition loc : Type := nat.

(** The [random_state] argument of the Python API: [None], an integer seed or
    a [RandomState] object.  The objects are those of the generator store
    and the one object that NumPy keeps for its global generator
    ([np.random.mtrand._rand]), which is what
    [sklearn.utils.check_random_state(None)] answers. *)
Inductive rand_arg : Type :=
  | RsNone
  | RsSeed (seed : Z)
  | RsObj (r : loc)
  | RsGlobal.

(** ** The world: array store, generator store, NumPy's global generator, the
    warnings issued so far and the log of model fits. *)

Abbreviation matrix := (list (list Q)).

Record fit_event : Type := FitEvent {
  fit_X : matrix;
  fit_y : list float;
}.

Section World.
Context `{RandomSource}.

Record world : Type := World {
  arrays : gmap loc ndarray;
  rngs : gmap loc RandomState;
  global_rng : RandomState;
  warnings : list warning;
  fit_log : list fit_event;
}.

Definition set_arrays (f : gmap loc ndarray → gmap loc ndarray) (w : world) : world :=
  World (f (arrays w)) (rngs w) (global_rng w) (warnings w) (fit_log w).
Definition set_rngs (f : gmap loc RandomState → gmap loc RandomState) (w : world) : world :=
  World (arrays w) (f (rngs w)) (global_rng w) (warnings w) (fit_log w).
Definition set_global_rng (g : RandomState) (w : world) : world :=
  World (arrays w) (rngs w) g (warnings w) (fit_log w).
Definition add_warning (x : warning) (w : world) : world :=
  World (arrays w) (rngs w) (global_rng w) (warnings w ++ [x]) (fit_log w).
Definition add_fit (e : fit_event) (w : world) : world :=
  World (arrays w) (rngs w) (global_rng w) (warnings w) (fit_log w ++ [e]).

#[local] Abbreviation M := (ST world).

Definition warn (x : warning) : M unit := λ w, (Ok tt, add_warning x w).

(** Reading and allocating arrays.  A dangling reference cannot be built in
    Python; the store answers [TypeError] for one. *)
Definition read_array (l : loc) : M ndarray := λ w,
  match arrays w !! l with
  | Some a => (Ok a, w)
  | None => (Err TypeError, w)
  end.

Definition alloc_array (a : ndarray) : M loc := λ w,
  let l := fresh (dom (arrays w)) in
  (Ok l, set_arrays <[l:=a]> w).

(** [a[tuple(idx)] = v] : in-place assignment of one element. *)
Definition setitem (l : loc) (idx : list nat) (v : float) : M unit := λ w,
  match arrays w !! l with
  | Some a =>
      if index_in_bounds (shape a) idx then
        let a' := NdArray (nd_dtype a) (shape a)
                    (<[ravel_multi_index (shape a) idx := v]> (data a)) in
        (Ok tt, set_arrays <[l:=a']> w)
      else (Err IndexError, w)
  | None => (Err TypeError, w)
  end.

(** Running [f] on the generator a [random_state] argument denotes
    ([sklearn.utils.check_random_state]): [None] is NumPy's global
    generator, a seed makes a fresh generator that is dropped afterwards,
    an object, the global one included, is used, and advanced, in place. *)
Definition with_rng {A} (rs : rand_arg)
    (f : RandomState → A * RandomState) : M A := λ w,
  match rs with
  | RsNone | RsGlobal =>
      let '(a, g) := f (global_rng w) in (Ok a, set_global_rng g w)
  | RsSeed s => (Ok (f (rs_seed s)).1, w)
  | RsObj l =>
      match rngs w !! l with
      | Some st => let '(a, st') := f st in (Ok a, set_rngs <[l:=st']> w)
      | None => (Err TypeError, w)
      end
  end.
End World.

(** Effectful code over the world. *)
Abbreviation M := (ST world).

(** ** [skactiveml.utils._selection] *)

Definition nanmax (d : list float) : option float :=
  match List.filter (λ x, negb (isnan x)) d with
  | [] => None
  | x :: xs => Some (fold_left fmaxf xs x)
  end.

(** The positions of [d] that hold its maximum, [NaN] positions excluded. *)
Definition argmax_ties (d : list float) : list nat :=
  match nanmax d with
  | None => []
  | Some m =>
      List.filter
        (λ p, match d !! p with Some x => feqb x m | None => false end)
        (seq 0 (length d))
  end.

Section Selection.
Context `{RandomSource}.

(** Modelled from the spec: [rand_argmax] of [utils/_selection.py], which is
    not among the sources.  Section 4.1: the position of the maximum value,
    chosen uniformly among all positions tied for the maximum, [NaN]
    positions excluded; it fails if no entry is a valid candidate.  The
    choice among [n] tied positions is one draw below [n] from the random
    source.  The exception raised on failure is taken to be [ValueError]. *)
Definition rand_argmax_flat (d : list float) (rs : rand_arg) : M nat :=
  let ties := argmax_ties d in
  match ties with
  | [] => raise ValueError
  | p0 :: _ =>
      with_rng rs (λ st,
        let '(k, st') := rs_randint st (length ties) in
        (nth (k mod length ties) ties p0, st'))
  end.

(** [rand_argmax(a, random_state)] without [axis]: a multi-index of [a]. *)
Definition rand_argmax (a : loc) (rs : rand_arg) : M (list nat) :=
  arr ← read_array a;
  p ← rand_argmax_flat (data arr) rs;
  mret (unravel_index (shape arr) p).

(** [rand_argmax([u], random_state, axis=1)]: one index per row. *)
Definition rand_argmax_axis1 (rows : list (list float)) (rs : rand_arg)
    : M (list nat) :=
  mapM (λ r, rand_argmax_flat r rs) rows.
End Selection.

(** ** [skactiveml.utils._validation] and [sklearn.utils.validation] *)

(** A Python scalar argument, as far as the validations tell them apart. *)
Inductive scalar : Type :=
  | SInt (z : Z)
  | SFloat (q : Q)
  | SOther.

Section Validation.
Context `{RandomSource}.

(** Modelled from the spec: [check_scalar] of [utils/_validation.py], which
    is not among the sources, at [target_type=int] with an inclusive lower
    bound.  Section 7: a value of the wrong type raises [TypeError], a value
    of the right type outside the range raises [ValueError]. *)
Definition check_scalar_int (x : scalar) (min_val : Z) : M Z :=
  match x with
  | SInt z => if (z <? min_val)%Z then raise ValueError else mret z
  | _ => raise TypeError
  end.

(** Modelled from the spec: [check_scalar] at [target_type=float],
    [min_inclusive=False], [max_inclusive=True]. *)
Definition check_scalar_float (x : scalar) (min_val max_val : Q) : M Q :=
  match x with
  | SFloat q =>
      if Qle_bool q min_val then raise ValueError
      else if Qle_bool q max_val then mret q
      else raise ValueError
  | _ => raise TypeError
  end.

(** [check_array(a, ensure_2d=False, dtype=float,
    force_all_finite='allow-nan', allow_nd=True)] of scikit-learn: the
    array is converted to [float64], which returns the very same object
    when it already has that element type and a fresh copy otherwise; an
    infinite entry, a 0-dimensional array, an array without samples and a
    2-dimensional array without features are rejected. *)
Definition check_array_allow_nan (u : loc) : M loc :=
  a ← read_array u;
  u' ← (match nd_dtype a with
        | Float64 => mret u
        | OtherDtype => alloc_array (NdArray Float64 (shape a) (data a))
        end);
  if existsb isinf (data a) then raise ValueError
  else match shape a with
       | [] => raise TypeError
       | 0 :: _ => raise ValueError
       | [_; 0] => raise ValueError
       | _ => mret u'
       end.
End Validation.

(** ** [skactiveml.utils._functions] *)

(** The indices [simple_batch] returns: flattened to one index per pick for a
    1-dimensional array, one multi-index per pick otherwise. *)
Inductive indices : Type :=
  | Idx1 (l : list nat)
  | IdxN (l : list (list nat)).

Definition index_rows (i : indices) : list (list nat) :=
  match i with
  | Idx1 l => (λ p, [p]) <$> l
  | IdxN l => l
  end.

Inductive batch_result : Type :=
  | JustIndices (best_indices : indices)
  | WithUtilities (best_indices : indices) (batch_utilities : ndarray).

Definition result_indices (r : batch_result) : indices :=
  match r with
  | JustIndices i => i
  | WithUtilities i _ => i
  end.

Section Functions.
Context `{RandomSource}.

(** The loop of lines 84-87, with [n] iterations left; [best] and [rows]
    are the rows of [best_indices] and [batch_utilities] filled so far. *)
Fixpoint batch_loop (n : nat) (utilities : loc) (rs : rand_arg)
    (best : list (list nat)) (rows : list (list float))
    : M (list (list nat) * list (list float)) :=
  match n with
  | 0 => mret (best, rows)
  | S n' =>
      idx ← rand_argmax utilities rs;
      a ← read_array utilities;
      _ ← setitem utilities idx NaN;
      batch_loop n' utilities rs (best ++ [idx]) (rows ++ [data a])
  end.

Definition simple_batch (utilities : loc) (rs : rand_arg)
    (batch_size : scalar) (return_utilities : bool) : M batch_result :=
  utilities ← check_array_allow_nan utilities;
  batch_size ← check_scalar_int batch_size 1;
  a ← read_array utilities;
  let max_batch_size := count_not_nan (data a) in
  batch_size ← (if (Z.of_nat max_batch_size <? batch_size)%Z
                then _ ← warn (BatchSizeWarning batch_size max_batch_size);
                     mret max_batch_size
                else mret (Z.to_nat batch_size));
  '(best, rows) ← batch_loop batch_size utilities rs [] [];
  let batch_utilities :=
    NdArray Float64 (batch_size :: shape a) (concat rows) in
  let best_indices :=
    if ndim a =? 1 then Idx1 (concat best) else IdxN best in
  mret (if return_utilities
        then WithUtilities best_indices batch_utilities
        else JustIndices best_indices).
End Functions.


(** ** Matrices of rationals, as NumPy uses them in [_expected_error.py] *)

Definition Qsum (l : list Q) : Q := foldr Qplus 0%Q l.

(** [np.sum] of a 2-dimensional array. *)
Definition msum (m : matrix) : Q := Qsum (concat m).

Definition nrows (m : matrix) : nat := length m.
Definition ncols (m : matrix) : nat := length (hd [] m).

Definition same_shape (a b : matrix) : bool :=
  (length a =? length b)
  && forallb (λ rr, length rr.1 =? length rr.2) (zip a b).

(** [a * b], element by element.  Operands of different shapes raise
    [ValueError]; NumPy's stretching of axes of extent 1 is not modelled. *)
Definition mat_mul (a b : matrix) : result matrix :=
  if same_shape a b then Ok (zip_with (zip_with Qmult) a b)
  else Err ValueError.

(** [1 - np.eye(n)] *)
Definition zero_one_cost (n : nat) : matrix :=
  (λ i, (λ j, if i =? j then 0%Q else 1%Q) <$> seq 0 n) <$> seq 0 n.

(** [a[mask]] for a boolean mask over the first axis. *)
Definition mask_index {A} (a : list A) (mask : list bool) : result (list A) :=
  if length a =? length mask
  then Ok (snd <$> List.filter fst (zip mask a))
  else Err IndexError.

(** [a[idx]] for a list of row indices. *)
Definition take_rows {A} (a : list A) (idx : list nat) : result (list A) :=
  match mapM (λ i, a !! i) idx with
  | Some rows => Ok rows
  | None => Err IndexError
  end.

(** [np.where(classes == label)[0][0]]: the first position of [label]. *)
Fixpoint class_index (classes : list float) (label : float) : result nat :=
  match classes with
  | [] => Err IndexError
  | c :: classes' =>
      if feqb c label then Ok 0
      else match class_index classes' label with
           | Ok k => Ok (S k)
           | Err e => Err e
           end
  end.

Definition result_mapM {A B} (f : A → result B) : list A → result (list B) :=
  fix go l :=
    match l with
    | [] => Ok []
    | x :: l' =>
        match f x with
        | Err e => Err e
        | Ok y => match go l' with Ok ys => Ok (y :: ys) | Err e => Err e end
        end
    end.

(** Modelled from the spec: [is_labeled] of [utils/_label.py], which is not
    among the sources.  Section 3: an entry is labeled when it is not the
    missing-label marker, under a comparison that treats a [NaN] marker
    specially. *)
Definition labeled (missing_label l : float) : bool :=
  if isnan missing_label then negb (isnan l)
  else negb (feqb l missing_label).

Definition is_labeled (y : list float) (missing_label : float) : list bool :=
  labeled missing_label <$> y.

(** ** Classifiers

    The model object is supplied by the caller (section 6 of the
    specification): an estimator can be cloned and fitted, and a fitted
    estimator predicts class probabilities.  [fit] discards what an earlier
    fit learnt, so a fitted model is a function of the estimator's
    hyper-parameters and of the data of its last fit. *)

Class Classifier : Type := {
  estimator : Type;
  fitted : Type;
  est_classes : estimator → list float;
  est_missing_label : estimator → float;
  est_fit : estimator → matrix → list float → fitted;
  est_predict_proba : fitted → matrix → matrix;
}.

(** [np.log] and [np.finfo(float).eps]. *)
Class FloatLog : Type := {
  np_log : Q → Q;
  float_eps : Q;
}.

Definition EMR : string := "emr".
Definition CSL : string := "csl".
Definition LOG_LOSS : string := "log_loss".

(** The risk of method [emr], line 164:
    [np.sum((P_new.T[:, None] * P_new.T).T * C)].  With [P_new] of shape
    (n, k), [P_new.T[:, None] * P_new.T] has shape (k, k, n) and entry
    [a, b, s] equal to [P_new[s, a] * P_new[s, b]]; its transpose has entry
    [s, b, a] of that value and is multiplied by [C[b, a]]. *)
Definition emr_costs (P_new C : matrix) : result Q :=
  if forallb (λ r, length r =? length C) (P_new ++ C) then
    Ok (Qsum (r ← P_new;
              '(pb, crow) ← zip r C;
              '(pa, c) ← zip r crow;
              [(pa * pb * c)%Q]))
  else Err ValueError.

Section ExpectedError.
Context `{RandomSource} `{Classifier} `{FloatLog}.

(** [sklearn.base.clone]: a fresh estimator with the same hyper-parameters. *)
Definition clone (clf : estimator) : estimator := clf.

(** [clf.fit(X, y)]: the fit is recorded in the world's log. *)
Definition fit (clf : estimator) (X : matrix) (y : list float) : M fitted :=
  λ w, (Ok (est_fit clf X y), add_fit (FitEvent X y) w).

(** Lines 166-174: the risk of method [csl]. *)
Definition csl_costs (clf : estimator) (m : fitted) (X : matrix)
    (y classes : list float) (C : matrix) : result Q :=
  let labeled_indices := is_labeled y (est_missing_label clf) in
  match mask_index X labeled_indices with
  | Err e => Err e
  | Ok X_labeled =>
  match mask_index y labeled_indices with
  | Err e => Err e
  | Ok y_labeled =>
  match result_mapM (class_index classes) y_labeled with
  | Err e => Err e
  | Ok y_indices =>
      if 0 <? length X_labeled then
        match take_rows C y_indices with
        | Err e => Err e
        | Ok C_rows =>
            match mat_mul (est_predict_proba m X_labeled) C_rows with
            | Err e => Err e
            | Ok prod => Ok (msum prod)
            end
        end
      else Ok 0%Q
  end end end.

(** Line 177: the risk of method [log_loss]. *)
Definition log_loss_costs (P_new : matrix) : Q :=
  Qopp (msum ((λ r : list Q,
                 (λ p : Q, (p * np_log (p + float_eps))%Q) <$> r) <$> P_new)).

(** Lines 162-180: the risk of the model [m] just refitted. *)
Definition costs_of (method : string) (clf : estimator) (m : fitted)
    (X_cand X : matrix) (y classes : list float) (C : matrix) : result Q :=
  if String.eqb method "emr" then
    emr_costs (est_predict_proba m X_cand) C
  else if String.eqb method "csl" then
    csl_costs clf m X y classes C
  else if String.eqb method "log_loss" then
    Ok (log_loss_costs (est_predict_proba m X_cand))
  else Err ValueError.

(** [P[i, yi]] *)
Definition getitem2 (P : matrix) (i j : nat) : M Q :=
  match P !! i with
  | Some r => match r !! j with
              | Some p => mret p
              | None => raise IndexError
              end
  | None => raise IndexError
  end.

(** The inner loop, lines 160-181, over the class indices still to do;
    [errors_per_class] is the array the loop writes into. *)
Fixpoint class_loop (clf : estimator) (X_cand X : matrix)
    (y classes : list float) (C : matrix) (method : string) (P : matrix)
    (i : nat) (x : list Q) (yis : list nat) (errors_per_class : list Q)
    : M (list Q) :=
  match yis with
  | [] => mret errors_per_class
  | yi :: yis' =>
      m ← fit clf (X ++ [x]) (y ++ [Fin (inject_Z (Z.of_nat yi))]);
      costs ← lift_result (costs_of method clf m X_cand X y classes C);
      p ← getitem2 P i yi;
      class_loop clf X_cand X y classes C method P i x yis'
        (<[yi := (p * costs)%Q]> errors_per_class)
  end.

(** The outer loop, lines 159-182, over the enumerated candidates still to
    do.  [errors_per_class] is allocated once, before the loop, and reused
    by every candidate. *)
Fixpoint cand_loop (clf : estimator) (X_cand X : matrix)
    (y classes : list float) (C : matrix) (method : string) (P : matrix)
    (cands : list (nat * list Q)) (errors errors_per_class : list Q)
    : M (list Q) :=
  match cands with
  | [] => mret errors
  | (i, x) :: cands' =>
      epc ← class_loop clf X_cand X y classes C method P i x
               (seq 0 (length classes)) errors_per_class;
      cand_loop clf X_cand X y classes C method P cands'
        (<[i := Qsum epc]> errors) epc
  end.

Definition expected_error_reduction (clf : estimator) (X_cand X : matrix)
    (y classes : list float) (C : option matrix) (method : string)
    : M (list Q) :=
  if (0 <? nrows X) && (0 <? nrows X_cand)
     && negb (ncols X =? ncols X_cand)
  then raise ValueError
  else
    let clf := clone clf in
    m ← fit clf X y;
    let n_classes := length classes in
    let P := est_predict_proba m X_cand in
    let C := match C with
             | None => zero_one_cost (ncols P)
             | Some C => C
             end in
    let errors := replicate (length X_cand) 0%Q in
    let errors_per_class := replicate n_classes 0%Q in
    errors ← cand_loop clf X_cand X y classes C method P
               (zip (seq 0 (length X_cand)) X_cand) errors errors_per_class;
    mret (Qopp <$> errors).
End ExpectedError.

(** [sklearn.utils.check_random_state]: a seed becomes a new generator
    object, [None] becomes the object of NumPy's global generator and a
    generator object is returned as it is. *)
Definition check_random_state `{RandomSource} (rs : rand_arg) : M rand_arg :=
  match rs with
  | RsSeed s => λ w,
      let l := fresh (dom (rngs w)) in
      (Ok (RsObj l), set_rngs <[l := rs_seed s]> w)
  | RsNone | RsGlobal => mret RsGlobal
  | RsObj l => mret (RsObj l)
  end.

(** [check_array] of scikit-learn on a 2-dimensional array: at least one
    sample and one feature, rows of one length. *)
Definition check_array_2d {S} (X : matrix) : ST S matrix :=
  match X with
  | [] => raise ValueError
  | r :: _ =>
      if (0 <? length r) && forallb (λ r', length r' =? length r) X
      then mret X else raise ValueError
  end.

(** [check_array(y, ensure_2d=False)]: at least one sample. *)
Definition check_array_1d {S} (y : list float) : ST S (list float) :=
  match y with
  | [] => raise ValueError
  | _ => mret y
  end.

(** [np.array_equal] on 1-dimensional arrays. *)
Definition array_equal (a b : list float) : bool :=
  (length a =? length b) && forallb (λ xy, feqb xy.1 xy.2) (zip a b).

(** What a [query] returns: the indices, and the utilities with them when
    [return_utilities] is set. *)
Inductive query_result (U : Type) : Type :=
  | QueryIndices (query_indices : list nat)
  | QueryWithUtilities (query_indices : list nat) (utilities : list (list U)).
Arguments QueryIndices {U} _.
Arguments QueryWithUtilities {U} _ _.

Module ExpectedErrorReduction.
Section Class.
Context `{RandomSource} `{Classifier} `{FloatLog}.

(** The [clf] attribute: any Python object, a [ClassFrequencyEstimator] or
    not. *)
Inductive clf_object : Type :=
  | NotAClassFrequencyEstimator
  | ClassFrequencyEstimator (est : estimator).

Record t : Type := Build {
  clf : clf_object;
  classes : list float;
  method : string;
  C : option matrix;
  random_state : rand_arg;
  missing_label : float;
}.

Definition set_C (c : option matrix) (self : t) : t :=
  Build (clf self) (classes self) (method self) c (random_state self)
    (missing_label self).
Definition set_random_state (rs : rand_arg) (self : t) : t :=
  Build (clf self) (classes self) (method self) (C self) rs
    (missing_label self).

(** A method runs on the object and the world. *)
Definition Meth : Type → Type := ST (t * world).

Definition get_self : Meth t := λ s, (Ok s.1, s).
Definition modify_self (f : t → t) : Meth unit := λ s, (Ok tt, (f s.1, s.2)).
Definition lift {A} (m : M A) : Meth A := λ s,
  let '(r, w) := m s.2 in (r, (s.1, w)).

(** [check_classifier_params] of [utils/_validation.py] is not among the
    sources: it is a parameter, which answers the exception it raises, if
    any. *)
Variable check_classifier_params :
  list float → float → option matrix → option exn.

Definition query (X_cand X : matrix) (y : list float)
    (return_utilities : bool) : Meth (query_result Q) :=
  self ← get_self;
  match clf self with
  | NotAClassFrequencyEstimator => raise TypeError
  | ClassFrequencyEstimator est =>
      match check_classifier_params (classes self) (missing_label self)
              (C self) with
      | Some e => raise e
      | None =>
          if negb (array_equal (est_classes est) (classes self))
          then raise ValueError
          else
            _ ← (match C self with
                 | None =>
                     modify_self
                       (set_C (Some (zero_one_cost (length (classes self)))))
                 | Some _ => mret tt
                 end);
            if negb (bool_decide (method self ∈ [EMR; CSL; LOG_LOSS]))
            then raise ValueError
            else
              rs ← lift (check_random_state (random_state self));
              _ ← modify_self (set_random_state rs);
              X_cand ← check_array_2d X_cand;
              X ← check_array_2d X;
              y ← check_array_1d y;
              self ← get_self;
              utilities ← lift (expected_error_reduction est X_cand X y
                                  (classes self) (C self) (method self));
              query_indices ← lift (rand_argmax_axis1 [Fin <$> utilities]
                                      (random_state self));
              mret (if return_utilities
                    then QueryWithUtilities query_indices [utilities]
                    else QueryIndices query_indices)
      end
  end.
End Class.
End ExpectedErrorReduction.

(** ** [skactiveml.pool._wrapper] *)

(** The [candidates] argument once validated: [None], a 1-dimensional array
    of indices into [X], or a 2-dimensional array of feature vectors. *)
Inductive candidates : Type :=
  | CandNone
  | CandIndices (idx : list nat)
  | CandFeatures (rows : matrix).

(** Modelled from the spec: [unlabeled_indices] of [utils/_label.py], which
    is not among the sources.  Section 3: the indices [i] with
    [y[i] == MissingLabel]. *)
Definition unlabeled_indices (y : list float) (missing_label : float)
    : list nat :=
  fst <$> List.filter (λ ib, negb ib.2)
            (zip (seq 0 (length y)) (is_labeled y missing_label)).

(** [np.full(shape=(r, c), fill_value=np.nan)] *)
Definition full_nan (r c : nat) : list (list float) :=
  replicate r (replicate c NaN).

(** NumPy's broadcasting of a 2-dimensional value to shape (r, c): an axis
    of the value must have the extent asked for, or extent 1, which is
    repeated. *)
Definition broadcast_row {A} (c : nat) (row : list A) : option (list A) :=
  if length row =? c then Some row
  else match row with
       | [x] => Some (replicate c x)
       | _ => None
       end.

Definition broadcast_to {A} (r c : nat) (u : list (list A))
    : result (list (list A)) :=
  match mapM (broadcast_row c) u with
  | None => Err ValueError
  | Some rows =>
      if length rows =? r then Ok rows
      else match rows with
           | [row] => Ok (replicate r row)
           | _ => Err ValueError
           end
  end.

(** [row[cols] = vals] for a list of column positions. *)
Definition assign_columns {A} (row : list A) (cols : list nat) (vals : list A)
    : list A :=
  fold_left (λ acc cv, <[cv.1 := cv.2]> acc) (zip cols vals) row.

(** [new[:, cols] = u] on an array [new] of shape (r, c). *)
Definition assign_all_rows {A} (new : list (list A)) (cols : list nat)
    (u : list (list A)) : result (list (list A)) :=
  if forallb (λ j, forallb (λ row : list A, j <? length row) new) cols then
    match broadcast_to (length new) (length cols) u with
    | Err e => Err e
    | Ok vals => Ok (zip_with (λ row v, assign_columns row cols v) new vals)
    end
  else Err IndexError.

Section Sampling.
Context `{RandomSource}.

(** Modelled from the spec: [check_random_state(random_state,
    seed_multiplier)] of [utils/_validation.py], which is not among the
    sources.  Section 4.6, step 2: the generator of one call is derived
    from the configured random state and the number of labeled samples.
    [None] gives the object of NumPy's global generator; otherwise the
    generator is a new object derived from a copy, and the configured one
    is left alone. *)
Definition check_random_state_mult (rs : rand_arg) (seed_multiplier : Z)
    : M rand_arg := λ w,
  let fresh_obj st :=
    let l := fresh (dom (rngs w)) in
    (Ok (RsObj l), set_rngs <[l := rs_derive st seed_multiplier]> w) in
  match rs with
  | RsNone => (Ok RsGlobal, w)
  | RsSeed s => fresh_obj (rs_seed s)
  | RsObj l =>
      match rngs w !! l with
      | Some st => fresh_obj st
      | None => (Err TypeError, w)
      end
  | RsGlobal => fresh_obj (global_rng w)
  end.

(** Drawing [size] elements of [a] one after the other, each uniformly
    among those not drawn yet. *)
Fixpoint draw_without_replacement {A} (size : nat) (a : list A)
    (st : RandomState) : list A * RandomState :=
  match size, a with
  | S size', x0 :: _ =>
      let '(j, st') := rs_randint st (length a) in
      let j := j mod length a in
      let '(rest, st'') := draw_without_replacement size' (delete j a) st' in
      (nth j a x0 :: rest, st'')
  | _, _ => ([], st)
  end.

(** [random_state.choice(a=a, size=size, replace=False)] of NumPy: [size]
    elements of [a] drawn without replacement; asking for more than there
    are raises [ValueError]. *)
Definition choice {A} (rs : rand_arg) (a : list A) (size : nat)
    : M (list A) :=
  if length a <? size then raise ValueError
  else with_rng rs (draw_without_replacement size a).
End Sampling.

Module SubSamplingWrapper.
Section Class.
Context `{RandomSource}.

(** The extra keyword arguments of a call, passed on untouched. *)
Variable query_kwargs : Type.

(** The [query] method of the wrapped strategy. *)
Definition inner_query : Type :=
  matrix → list float → candidates → nat → bool → query_kwargs
  → M (query_result float).

Inductive strategy_object : Type :=
  | NotAQueryStrategy
  | SingleAnnotatorPoolQueryStrategy (q : inner_query).

Record t : Type := Build {
  query_strategy : strategy_object;
  max_candidates : scalar;
  missing_label : float;
  random_state : rand_arg;
}.

(** [_validate_data] of the base class is not among the sources: it is a
    parameter, which answers the validated arguments or raises. *)
Variable validate_data :
  t → matrix → list float → candidates → scalar → bool
  → M (matrix * list float * candidates * nat * bool).

(** Lines 123-146: the validation of [max_candidates]. *)
Definition check_max_candidates (mc : scalar) : M unit :=
  match mc with
  | SInt _ => _ ← check_scalar_int mc 1; mret tt
  | SFloat _ => _ ← check_scalar_float mc 0 1; mret tt
  | SOther => raise TypeError
  end.

(** Lines 153-156 and 162-163: a fraction becomes
    [ceil(n * max_candidates)] of the pool size [n]; an integer stays. *)
Definition resolve_max_candidates (mc : scalar) (n : nat) : Z :=
  match mc with
  | SInt z => z
  | SFloat q => Qceiling (inject_Z (Z.of_nat n) * q)
  | SOther => 0
  end.

(** Lines 149-174: the sub-sample.  The answer is the candidates handed to
    the wrapped strategy and, for candidates given as features, the
    positions drawn ([new_candidate_indices]). *)
Definition sub_sample (rs : rand_arg) (y : list float) (missing_label : float)
    (cands : candidates) (max_candidates : scalar)
    : M (candidates * list nat) :=
  match cands with
  | CandNone =>
      let candidate_indices := unlabeled_indices y missing_label in
      let max_candidates :=
        resolve_max_candidates max_candidates (length candidate_indices) in
      let max_candidates :=
        Z.min max_candidates (Z.of_nat (length candidate_indices)) in
      new_candidates ← choice rs candidate_indices (Z.to_nat max_candidates);
      mret (CandIndices new_candidates, [])
  | CandIndices idx =>
      let max_candidates := resolve_max_candidates max_candidates (length idx) in
      let max_candidates := Z.min max_candidates (Z.of_nat (length idx)) in
      new_candidates ← choice rs idx (Z.to_nat max_candidates);
      mret (CandIndices new_candidates, [])
  | CandFeatures rows =>
      let max_candidates :=
        resolve_max_candidates max_candidates (length rows) in
      let max_candidates := Z.min max_candidates (Z.of_nat (length rows)) in
      let candidate_indices := seq 0 (length rows) in
      new_candidate_indices ←
        choice rs candidate_indices (Z.to_nat max_candidates);
      new_candidates ← lift_opt IndexError
                         (mapM (λ i, rows !! i) new_candidate_indices);
      mret (CandFeatures new_candidates, new_candidate_indices)
  end.

Definition is_features (c : candidates) : bool :=
  match c with CandFeatures _ => true | _ => false end.

Definition n_candidates (c : candidates) : nat :=
  match c with
  | CandNone => 0
  | CandIndices idx => length idx
  | CandFeatures rows => length rows
  end.

(** Lines 185-201: the answer of the wrapped strategy, brought back to the
    caller's frame. *)
Definition translate (cands : candidates) (batch_size : nat)
    (return_utilities : bool) (new_candidate_indices : list nat)
    (qs_output : query_result float) : result (query_result float) :=
  if negb return_utilities then
    if is_features cands then
      match qs_output with
      | QueryIndices q =>
          match take_rows new_candidate_indices q with
          | Ok q' => Ok (QueryIndices q')
          | Err e => Err e
          end
      | QueryWithUtilities _ _ => Err IndexError
      end
    else Ok qs_output
  else
    match qs_output with
    | QueryIndices _ => Err ValueError
    | QueryWithUtilities queried_indices utilities =>
        if negb (is_features cands) then
          Ok (QueryWithUtilities queried_indices utilities)
        else
          let new_utilities := full_nan batch_size (n_candidates cands) in
          match assign_all_rows new_utilities new_candidate_indices
                  utilities with
          | Err e => Err e
          | Ok new_utilities =>
              match take_rows new_candidate_indices queried_indices with
              | Err e => Err e
              | Ok queried_indices =>
                  Ok (QueryWithUtilities queried_indices new_utilities)
              end
          end
    end.

Definition query (self : t) (X : matrix) (y : list float)
    (cands : candidates) (batch_size : scalar) (return_utilities : bool)
    (kwargs : query_kwargs) : M (query_result float) :=
  '(X, y, cands, batch_size, return_utilities) ←
    validate_data self X y cands batch_size return_utilities;
  match query_strategy self with
  | NotAQueryStrategy => raise TypeError
  | SingleAnnotatorPoolQueryStrategy inner =>
      let seed_multiplier :=
        (Z.of_nat (length (List.filter id (is_labeled y (missing_label self))))
         + 1)%Z in
      let max_candidates := max_candidates self in
      _ ← check_max_candidates max_candidates;
      rs ← check_random_state_mult (random_state self) seed_multiplier;
      '(new_candidates, new_candidate_indices) ←
        sub_sample rs y (missing_label self) cands max_candidates;
      qs_output ← inner X y new_candidates batch_size return_utilities kwargs;
      lift_result (translate cands batch_size return_utilities
                     new_candidate_indices qs_output)
  end.
End Class.
End SubSamplingWrapper.

(** ** Core-Set selection ([skactiveml.pool._core_set])

    Only the tests of this strategy are among the sources; the strategy
    itself is modelled from section 4.5 of the specification. *)

(** A distance between feature vectors ([sklearn]'s [pairwise_distances]):
    any function that is never negative. *)
Class Distance : Type := {
  dist : list Q → list Q → Q;
  dist_nonneg : ∀ x y, (0 <= dist x y)%Q;
}.

Definition Qminimum (x : Q) (l : list Q) : Q :=
  fold_left (λ a b, if Qle_bool a b then a else b) l x.

Section CoreSet.
Context `{RandomSource} `{Distance}.

(** Modelled from the spec: the utility of a candidate, section 4.5, steps
    1 and 2: the distance to its nearest reference point.  Where there is no
    reference point at all, the specification names no value; the infimum
    of the empty set of distances, plus infinity, is taken. *)
Definition nearest_distance (reference : list (list Q)) (x : list Q)
    : float :=
  match reference with
  | [] => Inf false
  | r :: reference' =>
      Fin (Qminimum (dist x r) ((λ r', dist x r') <$> reference'))
  end.

(** Modelled from the spec: one row of utilities, over every position of
    the caller's frame: [NaN] at a position that is not a candidate or was
    selected earlier in the batch. *)
Definition core_set_utilities (pool : list (list Q)) (eligible : list bool)
    (selected : list nat) (reference : list (list Q)) : list float :=
  (λ pxe : nat * (list Q * bool),
     let '(p, (x, e)) := pxe in
     if e && negb (bool_decide (p ∈ selected))
     then nearest_distance reference x else NaN)
  <$> zip (seq 0 (length pool)) (zip pool eligible).

(** Modelled from the spec: the iterations of [k_greedy_center], section
    4.5: [n] times, score the candidates, select one of maximum utility
    with the tie-breaking selector, add it to the reference set and make it
    ineligible for the rest of the batch. *)
Fixpoint k_greedy_center_loop (n : nat) (pool : list (list Q))
    (eligible : list bool) (rs : rand_arg) (selected : list nat)
    (reference : list (list Q)) (rows : list (list float))
    : M (list nat * list (list float)) :=
  match n with
  | 0 => mret (selected, rows)
  | S n' =>
      let utilities := core_set_utilities pool eligible selected reference in
      idx ← rand_argmax_flat utilities rs;
      x ← lift_opt IndexError (pool !! idx);
      k_greedy_center_loop n' pool eligible rs (selected ++ [idx])
        (reference ++ [x]) (rows ++ [utilities])
  end.

(** Modelled from the spec: [k_greedy_center], sections 4.5, 7 and 8.  A
    batch size larger than the number of candidates is no error: a warning
    is issued, the batch size is clipped to that number, and the selection
    goes on. *)
Definition k_greedy_center (batch_size : nat) (pool : list (list Q))
    (eligible : list bool) (rs : rand_arg) (reference : list (list Q))
    : M (list nat * list (list float)) :=
  let available :=
    count_not_nan (core_set_utilities pool eligible [] reference) in
  batch_size ←
    (if available <? batch_size
     then
       _ ← warn (BatchSizeWarning (Z.of_nat batch_size) available);
       mret available
     else mret batch_size);
  k_greedy_center_loop batch_size pool eligible rs [] reference [].
End CoreSet.

Module CoreSet.
Section Class.
Context `{RandomSource} `{Distance}.

Record t : Type := Build {
  method : option string;
  missing_label : float;
  random_state : rand_arg;
}.

(** Modelled from the spec: the candidate resolution of section 4.3, as
    the distances need it: the frame the utilities are indexed in (the
    rows of [X], or the candidates themselves when they are given as
    features) and which of its positions are candidates. *)
Definition resolve (X : matrix) (y : list float) (missing_label : float)
    (cands : candidates) : result (list (list Q) * list bool) :=
  match cands with
  | CandNone => Ok (X, negb <$> is_labeled y missing_label)
  | CandIndices idx =>
      if forallb (λ i, i <? length X) idx
      then Ok (X, (λ p, bool_decide (p ∈ idx)) <$> seq 0 (length X))
      else Err IndexError
  | CandFeatures rows =>
      if (ncols rows =? ncols X) || (nrows rows =? 0) || (nrows X =? 0)
      then Ok (rows, replicate (length rows) true)
      else Err ValueError
  end.

(** Modelled from the spec: [CoreSet.query], sections 4.5 and 6.  The
    reference set starts as the labeled rows of [X]. *)
Definition query (self : t) (X : matrix) (y : list float)
    (cands : candidates) (batch_size : nat) (return_utilities : bool)
    : M (query_result float) :=
  if negb (bool_decide (method self = Some "greedy"%string))
  then raise ValueError
  else if negb (length X =? length y) then raise ValueError
  else
    '(pool, eligible) ← lift_result (resolve X y (missing_label self) cands);
    let reference :=
      snd <$> List.filter fst (zip (is_labeled y (missing_label self)) X) in
    '(query_indices, utilities) ←
      k_greedy_center batch_size pool eligible (random_state self)
        reference;
    mret (if return_utilities
          then QueryWithUtilities query_indices utilities
          else QueryIndices query_indices).
End Class.
End CoreSet.
(** ** A concrete random source, for running the definitions

    A linear congruential generator; [rs_randint] reduces its output below
    the bound. *)

Definition lcg_next (st : Z) : Z := ((1103515245 * st + 12345) mod 2147483648)%Z.

#[global] Instance lcg_source : RandomSource := {
  RandomState := Z;
  rs_seed s := (s mod 2147483648)%Z;
  rs_derive st m := ((lcg_next st * m) mod 2147483648)%Z;
  rs_randint st n :=
    let st' := lcg_next st in
    (Z.to_nat ((st' / 65536) mod (Z.max 1 (Z.of_nat n))), st');
}.

Definition empty_world : world (H := lcg_source) := World ∅ ∅ 0%Z [] [].

(** A world that holds one array, at location 0. *)
Definition world_with (a : ndarray) : world (H := lcg_source) :=
  World {[ 0 := a ]} ∅ 0%Z [] [].

(** ** A concrete classifier: smoothed class frequencies

    The probability of a class is its count among the training labels plus
    one, over the number of counted labels plus the number of classes; the
    features are not looked at, and a label that is not a class counts for
    nothing. *)

Definition count_label (y : list float) (c : float) : Z :=
  Z.of_nat (length (List.filter (λ l, feqb l c) y)).

Definition frequency_fit (est : list float * float) (X : matrix)
    (y : list float) : list Q :=
  let counts := count_label y <$> est.1 in
  let total := (foldr Z.add 0 counts + Z.of_nat (length est.1))%Z in
  (λ n, Qred (inject_Z (n + 1) / inject_Z total)) <$> counts.

#[global] Instance frequency_classifier : Classifier := {
  estimator := list float * float;
  fitted := list Q;
  est_classes est := est.1;
  est_missing_label est := est.2;
  est_fit := frequency_fit;
  est_predict_proba m X := (λ _, m) <$> X;
}.

(** A stand-in for the logarithm, for running the definitions: its tangent
    at 1. *)
#[global] Instance tangent_log : FloatLog := {
  np_log q := (q - 1)%Q;
  float_eps := 1 # 4503599627370496;
}.

(** The Manhattan distance. *)
Definition manhattan (x y : list Q) : Q :=
  Qsum (zip_with (λ a b, Qabs (a - b)) x y).

(** Sample utilities: five entries, one of them [NaN], two tied for the
    maximum. *)
Definition sample_utilities : ndarray :=
  NdArray Float64 [5] [Fin (1 # 2); NaN; Fin 3; Fin 3; Fin (-1)].

(** The same entries as a 2 x 3 array, one more [NaN] added. *)
Definition sample_utilities_2d : ndarray :=
  NdArray Float64 [2; 3] [Fin (1 # 2); NaN; Fin 3; Fin 3; Fin (-1); NaN].

(** ** Sample strategies and data *)

Definition of_int (z : Z) : float := Fin (inject_Z z).

(** No check of the classifier parameters fails. *)
Definition params_accepted : list float → float → option matrix → option exn :=
  λ _ _ _, None.

(** Expected error reduction over the frequency classifier, with the given
    classes, method and seed. *)
Definition sample_eer (classes : list float) (method : string) (seed : Z)
    : ExpectedErrorReduction.t :=
  ExpectedErrorReduction.Build
    (ExpectedErrorReduction.ClassFrequencyEstimator (classes, NaN))
    classes method None (RsSeed seed) NaN.

(** Two calls of [query], one after the other, on the same object and the
    same data: the second call starts from the object and the world the first
    one left. *)
Definition query_twice `{RandomSource} `{Classifier} `{FloatLog}
    (self : ExpectedErrorReduction.t) (X_cand X : matrix) (y : list float)
    (w : world) : result (query_result Q) * result (query_result Q) :=
  let '(r1, s1) :=
    ExpectedErrorReduction.query params_accepted X_cand X y true (self, w) in
  let '(r2, _) :=
    ExpectedErrorReduction.query params_accepted X_cand X y true s1 in
  (r1, r2).

(** A validation of the query arguments that accepts everything but a batch
    size that is not a non-negative integer. *)
Definition accept_data {T : Type} (self : T) (X : matrix) (y : list float)
    (cands : candidates) (batch_size : scalar) (return_utilities : bool)
    : ST (world (H := lcg_source))
      (matrix * list float * candidates * nat * bool) :=
  match batch_size with
  | SInt z =>
      if (z <? 0)%Z then raise ValueError
      else mret (X, y, cands, Z.to_nat z, return_utilities)
  | _ => raise TypeError
  end.

(** A query strategy for candidates given as features: every candidate has
    the utility 1, and the batch is built by [simple_batch]. *)
Definition uniform_strategy (X : matrix) (y : list float) (cands : candidates)
    (batch_size : nat) (return_utilities : bool) (kwargs : unit)
    : ST (world (H := lcg_source)) (query_result float) :=
  match cands with
  | CandFeatures rows =>
      let n := length rows in
      u ← alloc_array (NdArray Float64 [n] (replicate n (Fin 1)));
      r ← simple_batch u (RsSeed 0) (SInt (Z.of_nat batch_size)) true;
      match r with
      | WithUtilities (Idx1 idx) hist =>
          mret (if return_utilities
                then QueryWithUtilities idx
                       (nd_row hist <$> seq 0 (hd 0 (shape hist)))
                else QueryIndices idx)
      | _ => raise TypeError
      end
  | _ => raise TypeError
  end.

(** The wrapper around [uniform_strategy], with the seed 0. *)
Definition sample_wrapper (max_candidates : scalar)
    : SubSamplingWrapper.t (H := lcg_source) unit :=
  SubSamplingWrapper.Build unit
    (SubSamplingWrapper.SingleAnnotatorPoolQueryStrategy unit uniform_strategy)
    max_candidates NaN (RsSeed 0).

Definition sample_X : matrix := [[0%Q]; [1%Q]; [2%Q]; [3%Q]].
Definition sample_y : list float := [of_int 0; NaN; NaN; of_int 1].
Definition sample_candidates : matrix := [[10%Q]; [11%Q]; [12%Q]].

(** The Manhattan distance is a distance. *)
#[global] Instance manhattan_distance : Distance.
Proof.
  refine {| dist := manhattan |}.
  intros x. unfold manhattan.
  induction x as [| a x IH]; intros [| b y]; try apply Qle_refl.
  change (0 <= Qabs (a - b) + Qsum (zip_with (λ a b, Qabs (a - b)) x y))%Q.
  apply Qle_trans with (0 + 0)%Q; [apply Qle_refl |].
  apply Qplus_le_compat; [apply Qabs_nonneg | apply IH].
Defined.

(** Ten samples with the same features, the first two of them labeled. *)
Definition constant_X : matrix := replicate 10 [1%Q; 1%Q].
Definition constant_y : list float :=
  [of_int 0; of_int 1] ++ replicate 8 NaN.

(** Four samples on a line, the first of them labeled. *)
Definition line_X : matrix := [[0%Q]; [1%Q]; [3%Q]; [7%Q]].
Definition line_y : list float := [of_int 0; NaN; NaN; NaN].

Definition sample_core_set : CoreSet.t :=
  CoreSet.Build (Some "greedy"%string) NaN (RsSeed 42).


(** ** Notions the statements are written with *)

Section Notions.
Context `{RandomSource}.

(** A [random_state] argument that is an object denotes a generator of the
    store. *)
Definition rs_valid (rs : rand_arg) (w : world) : Prop :=
  match rs with
  | RsObj l => is_Some (rngs w !! l)
  | _ => True
  end.

(** Two worlds that differ in the state of generators only. *)
Definition rng_only (w w' : world) : Prop :=
  arrays w' = arrays w ∧ warnings w' = warnings w ∧ fit_log w' = fit_log w.
End Notions.

(** The arrays [check_array_allow_nan] lets through. *)
Definition array_accepted (a : ndarray) : bool :=
  negb (existsb isinf (data a))
  && match shape a with
     | [] | 0 :: _ | [_; 0] => false
     | _ => true
     end.

(** [d] with [NaN] written at the positions [ps]. *)
Definition mask_positions (d : list float) (ps : list nat) : list float :=
  fold_left (λ d p, <[p := NaN]> d) ps d.

(** The successive contents of an array that starts as [d] and is masked at
    the positions [ps], one after the other: the content before each
    masking. *)
Fixpoint snapshots (d : list float) (ps : list nat) : list (list float) :=
  match ps with
  | [] => []
  | p :: ps' => d :: snapshots (<[p := NaN]> d) ps'
  end.

(** [ps] are successive picks from [d]: each position holds a value that is
    not [NaN] in the array as masked so far. *)
Fixpoint picks (d : list float) (ps : list nat) : Prop :=
  match ps with
  | [] => True
  | p :: ps' =>
      (∃ x, d !! p = Some x ∧ isnan x = false) ∧ picks (<[p := NaN]> d) ps'
  end.

(** ** The risk of method [csl], as the specification words it *)




(** ** The pool of the sub-sampling wrapper *)

(** The number of candidates a call resolves to. *)
Definition pool_size (cands : candidates) (y : list float)
    (missing_label : float) : nat :=
  match cands with
  | CandNone => length (unlabeled_indices y missing_label)
  | CandIndices idx => length idx
  | CandFeatures rows => length rows
  end.

(** The size of the sub-sample: [min(max_candidates, n)] of a pool of [n]
    candidates. *)
Definition sub_sample_size (max_candidates : scalar) (n : nat) : nat :=
  Z.to_nat (Z.min (SubSamplingWrapper.resolve_max_candidates max_candidates n)
              (Z.of_nat n)).

(** [new], with the positions [idx] for candidates given as features, is a
    sub-sample of the pool: its members are members of the pool, none taken
    more often than the pool has it. *)
Definition sub_sample_of (y : list float) (missing_label : float)
    (cands new : candidates) (idx : list nat) : Prop :=
  match cands with
  | CandNone =>
      ∃ l, new = CandIndices l ∧ l ⊆+ unlabeled_indices y missing_label
  | CandIndices pool => ∃ l, new = CandIndices l ∧ l ⊆+ pool
  | CandFeatures rows =>
      idx ⊆+ seq 0 (length rows)
      ∧ ∃ sub, new = CandFeatures sub
               ∧ Forall2 (λ j r, rows !! j = Some r) idx sub
  end.

Definition n_given (c : candidates) : nat :=
  match c with
  | CandNone => 0
  | CandIndices idx => length idx
  | CandFeatures rows => length rows
  end.

(** ** Core-Set utilities *)

(** [u] is the distance from [x] to its nearest reference point: the
    distance to one of the reference points, and no more than the distance
    to any of them.  Without a reference point it is plus infinity. *)
Definition nearest_reference_distance `{Distance}
    (reference : list (list Q)) (x : list Q) (u : float) : Prop :=
  match reference with
  | [] => u = Inf false
  | _ =>
      ∃ d r,
        u = Fin d ∧ r ∈ reference ∧ d = dist x r
        ∧ ∀ r', r' ∈ reference → (d <= dist x r')%Q
  end.

(** The number of candidates among the positions of the frame. *)
Definition n_eligible (eligible : list bool) : nat :=
  length (List.filter id eligible).

(** A utility that is [NaN] or not negative. *)
Definition nonneg_or_nan (u : float) : Prop :=
  isnan u = false → fleb (Fin 0) u = true.

(** The rows of utilities of a greedy selection that picks the positions
    [new], of features [newf], one after the other, starting from the
    selection [selected] and the reference set [reference]. *)
Fixpoint greedy_rows `{Distance} (pool : list (list Q)) (eligible : list bool)
    (selected : list nat) (reference : list (list Q)) (new : list nat)
    (newf : list (list Q)) : list (list float) :=
  match new, newf with
  | i :: new', x :: newf' =>
      core_set_utilities pool eligible selected reference
      :: greedy_rows pool eligible (selected ++ [i]) (reference ++ [x])
           new' newf'
  | _, _ => []
  end.

(** The features of the labeled samples. *)
Definition labeled_rows (X : matrix) (y : list float) (missing_label : float)
    : matrix :=
  snd <$> List.filter fst (zip (is_labeled y missing_label) X).

(** ** Expected error reduction, as the specification words it *)

(** The label the code gives the hypothesis of class position [k]: the
    position itself, as a number. *)
Definition index_label (k : nat) : float := Fin (inject_Z (Z.of_nat k)).

(** The risk of the model refitted on the data with the candidate [x] and
    the hypothetical label [label] appended. *)
Definition hypothesis_risk `{Classifier} `{FloatLog} (method : string)
    (clf : estimator) (X_cand X : matrix) (y classes : list float)
    (C : matrix) (x : list Q) (label : float) : result Q :=
  costs_of method clf (est_fit clf (X ++ [x]) (y ++ [label])) X_cand X y
    classes C.

(** [vals] are the risks of the hypotheses of candidate [i], of features
    [x], each weighted by the baseline probability [P[i, k]] of its class
    position [k], for the positions [ks]. *)
Definition weighted_risks `{Classifier} `{FloatLog} (method : string)
    (clf : estimator) (X_cand X : matrix) (y classes : list float)
    (C P : matrix) (i : nat) (x : list Q) (ks : list nat) (vals : list Q)
    : Prop :=
  Forall2
    (λ k v, ∃ p c,
       P !! i ≫= (λ r, r !! k) = Some p
       ∧ hypothesis_risk method clf X_cand X y classes C x (index_label k)
         = Ok c
       ∧ v = (p * c)%Q)
    ks vals.

(** The fits of the hypotheses of the candidate [x]. *)
Definition hypothesis_fits (X : matrix) (y : list float) (n_classes : nat)
    (x : list Q) : list fit_event :=
  (λ k, FitEvent (X ++ [x]) (y ++ [index_label k])) <$> seq 0 n_classes.

(** ** Greedy picks *)

(** [ps] are successive greedy picks from [d]: each position holds a maximum
    of the array as masked so far. *)
Fixpoint greedy_picks (d : list float) (ps : list nat) : Prop :=
  match ps with
  | [] => True
  | p :: ps' => p ∈ argmax_ties d ∧ greedy_picks (<[p := NaN]> d) ps'
  end.

(** ** The object of an expected-error-reduction query *)

(** The object after the configuration checks of [query]: a cost matrix
    that was [None] is the zero-one cost. *)
Definition with_default_C `{Classifier} (self : ExpectedErrorReduction.t)
    : ExpectedErrorReduction.t :=
  match ExpectedErrorReduction.C self with
  | None =>
      ExpectedErrorReduction.set_C
        (Some (zero_one_cost (length (ExpectedErrorReduction.classes self))))
        self
  | Some _ => self
  end.

(** The utilities a query result carries, when it carries them, are
    [utilities]. *)
Definition result_utilities_agree {U} (r : query_result U)
    (utilities : list U) : Prop :=
  match r with
  | QueryIndices _ => True
  | QueryWithUtilities _ us => us = [utilities]
  end.

(** ** The configuration of the sub-sampling wrapper *)

(** A [max_candidates] the wrapper accepts: an integer not below 1, or a
    fraction in (0, 1]. *)
Definition accepted_max_candidates (mc : scalar) : Prop :=
  match mc with
  | SInt z => (1 ≤ z)%Z
  | SFloat q => (0 < q)%Q ∧ (q <= 1)%Q
  | SOther => False
  end.

(** A [max_candidates] of the right type and outside its range. *)
Definition out_of_range_max_candidates (mc : scalar) : Prop :=
  match mc with
  | SInt z => (z < 1)%Z
  | SFloat q => (q <= 0)%Q ∨ (1 < q)%Q
  | SOther => False
  end.

(** ** Signs *)

(** A matrix without a negative entry. *)
Definition nonneg_matrix (m : matrix) : Prop :=
  Forall (Forall (λ p, (0 <= p)%Q)) m.

(** ** Computations that do not look at the world *)

(** The answer of [m] is the same in every world. *)
Definition world_blind `{RandomSource} {A} (m : M A) : Prop :=
  ∀ w v, (m w).1 = (m v).1.

(** * Properties *)

(** ** Floats and the maximum *)

Lemma feqb_refl (x : float) : isnan x = false → feqb x x = true.
Proof.
  destruct x as [| b | q]; simpl; [discriminate | |].
  - intros _. by destruct b.
  - intros _. apply Qeq_bool_iff. reflexivity.
Qed.

Lemma feqb_not_nan (x y : float) : feqb x y = true → isnan x = false.
Proof. by destruct x, y. Qed.

Lemma fold_fmaxf_elem (xs : list float) (x : float) :
  fold_left fmaxf xs x ∈ x :: xs.
Proof.
  revert x. induction xs as [| y xs IH]; intros x; simpl.
  - apply list_elem_of_here.
  - pose proof (IH (fmaxf x y)) as [Heq | Hin]%elem_of_cons.
    + rewrite Heq. unfold fmaxf.
      destruct (fleb x y);
        [apply list_elem_of_further |]; apply list_elem_of_here.
    + by do 2 apply list_elem_of_further.
Qed.

Lemma nanmax_elem (d : list float) (m : float) :
  nanmax d = Some m → m ∈ d ∧ isnan m = false.
Proof.
  unfold nanmax.
  destruct (List.filter _ d) as [| x xs] eqn:Hf; [discriminate |].
  intros [= <-].
  assert (Hin : fold_left fmaxf xs x ∈ List.filter (λ x, negb (isnan x)) d).
  { rewrite Hf. apply fold_fmaxf_elem. }
  apply list_elem_of_In, filter_In in Hin as [Hin Hnn].
  split; [by apply list_elem_of_In |]. by apply negb_true_iff.
Qed.

Lemma count_not_nan_pos_filter (d : list float) :
  0 < count_not_nan d → ∃ m, nanmax d = Some m.
Proof.
  unfold count_not_nan, nanmax.
  destruct (List.filter _ d); simpl; [lia | eauto].
Qed.

(** Every tied position holds a value that is not [NaN]. *)
Lemma argmax_ties_spec (d : list float) (p : nat) :
  p ∈ argmax_ties d → ∃ x, d !! p = Some x ∧ isnan x = false.
Proof.
  unfold argmax_ties. destruct (nanmax d) as [m |]; [| by intros ?%elem_of_nil].
  intros [_ Hp]%list_elem_of_In%filter_In.
  destruct (d !! p) as [x |]; [| discriminate].
  exists x. split; [done |]. by eapply feqb_not_nan.
Qed.

(** There is a tied position as soon as one entry is not [NaN]. *)
Lemma argmax_ties_nonempty (d : list float) :
  0 < count_not_nan d → argmax_ties d ≠ [].
Proof.
  intros [m Hm]%count_not_nan_pos_filter. unfold argmax_ties. rewrite Hm.
  destruct (nanmax_elem _ _ Hm) as [[p Hp]%list_elem_of_lookup Hnn].
  intros Hnil.
  assert (Hin : In p (List.filter
            (λ p, match d !! p with Some x => feqb x m | None => false end)
            (seq 0 (length d)))).
  { apply filter_In. split.
    - apply in_seq. apply lookup_lt_Some in Hp. lia.
    - rewrite Hp. by apply feqb_refl. }
  rewrite Hnil in Hin. destruct Hin.
Qed.

(** ** Counting and masking *)

Lemma count_not_nan_mask (d : list float) (p : nat) (x : float) :
  d !! p = Some x → isnan x = false →
  S (count_not_nan (<[p := NaN]> d)) = count_not_nan d.
Proof.
  unfold count_not_nan. revert p.
  induction d as [| y d IH]; intros [| p] Hp Hx; simpl in *; try discriminate.
  - injection Hp as ->. by rewrite Hx.
  - destruct (negb (isnan y)); simpl; by rewrite (IH p).
Qed.

Lemma count_not_nan_le (d : list float) : count_not_nan d ≤ length d.
Proof. unfold count_not_nan. apply filter_length_le. Qed.

(** ** Multi-indices *)

Lemma unravel_index_in_bounds (s : list nat) (p : nat) :
  p < prod_shape s → index_in_bounds s (unravel_index s p) = true.
Proof.
  revert p. induction s as [| d s IH]; intros p Hp; simpl in *; [done |].
  assert (prod_shape s ≠ 0) by (intros Hz; rewrite Hz in Hp; lia).
  apply andb_true_iff. split.
  - apply Nat.ltb_lt. apply Nat.Div0.div_lt_upper_bound. lia.
  - apply IH. by apply Nat.mod_upper_bound.
Qed.

Lemma ravel_unravel (s : list nat) (p : nat) :
  p < prod_shape s → ravel_multi_index s (unravel_index s p) = p.
Proof.
  revert p. induction s as [| d s IH]; intros p Hp; simpl in *; [lia |].
  assert (prod_shape s ≠ 0) by (intros Hz; rewrite Hz in Hp; lia).
  rewrite IH by (by apply Nat.mod_upper_bound).
  rewrite (Nat.div_mod_eq p (prod_shape s)) at 3. lia.
Qed.

Lemma length_unravel_index (s : list nat) (p : nat) :
  length (unravel_index s p) = length s.
Proof. revert p. induction s; intros p; simpl; [done | by rewrite IHs]. Qed.

(** ** The monad *)

Lemma bind_unfold {S A B} (m : ST S A) (f : A → ST S B) (s : S) :
  (m ≫= f) s = match m s with
               | (Ok a, s') => f a s'
               | (Err e, s') => (Err e, s')
               end.
Proof. reflexivity. Qed.

Lemma bind_ok {S A B} (m : ST S A) (f : A → ST S B) (s s' : S) (a : A) :
  m s = (Ok a, s') → (m ≫= f) s = f a s'.
Proof. intros Hm. by rewrite bind_unfold, Hm. Qed.

Lemma bind_err {S A B} (m : ST S A) (f : A → ST S B) (s s' : S) (e : exn) :
  m s = (Err e, s') → (m ≫= f) s = (Err e, s').
Proof. intros Hm. by rewrite bind_unfold, Hm. Qed.

Section RngFacts.
Context `{RandomSource}.

Lemma rng_only_refl (w : world) : rng_only w w.
Proof. by repeat split. Qed.

Lemma rng_only_trans (w1 w2 w3 : world) :
  rng_only w1 w2 → rng_only w2 w3 → rng_only w1 w3.
Proof. intros (? & ? & ?) (? & ? & ?). repeat split; congruence. Qed.

(** Drawing from a valid random state succeeds and touches generators
    only. *)
Lemma with_rng_ok {A} (rs : rand_arg) (f : RandomState → A * RandomState)
    (w : world) :
  rs_valid rs w →
  ∃ st w', with_rng rs f w = (Ok (f st).1, w')
           ∧ rng_only w w' ∧ rs_valid rs w'.
Proof.
  intros Hv. destruct rs as [| s | l |]; simpl in *.
  - exists (global_rng w). destruct (f (global_rng w)) as [a g] eqn:Hf.
    eexists. repeat split.
  - exists (rs_seed s), w. repeat split.
  - destruct Hv as [st Hst]. rewrite Hst. exists st.
    destruct (f st) as [a st'] eqn:Hf. eexists. repeat split.
    simpl. rewrite lookup_insert_eq. eauto.
  - exists (global_rng w). destruct (f (global_rng w)) as [a g] eqn:Hf.
    eexists. repeat split.
Qed.

Lemma rand_argmax_flat_ok (d : list float) (rs : rand_arg) (w : world) :
  rs_valid rs w → 0 < count_not_nan d →
  ∃ p w', rand_argmax_flat d rs w = (Ok p, w')
          ∧ p ∈ argmax_ties d ∧ rng_only w w' ∧ rs_valid rs w'.
Proof.
  intros Hv Hpos. unfold rand_argmax_flat.
  pose proof (argmax_ties_nonempty d Hpos) as Hne.
  destruct (argmax_ties d) as [| p0 ties] eqn:Hties; [done |].
  match goal with
  | |- context [with_rng rs ?f w] =>
      destruct (with_rng_ok rs f w Hv) as (st & w' & -> & Hw & Hv')
  end.
  do 2 eexists. split; [reflexivity |]. split; [| done].
  destruct (rs_randint st (length (p0 :: ties))) as [k st'].
  cbv beta iota zeta delta [fst]. apply list_elem_of_In, nth_In.
  apply Nat.mod_upper_bound. simpl. lia.
Qed.

(** When nothing but [NaN] is left, the selector raises. *)
Lemma rand_argmax_flat_all_nan (d : list float) (rs : rand_arg) (w : world) :
  count_not_nan d = 0 → rand_argmax_flat d rs w = (Err ValueError, w).
Proof.
  intros Hz. unfold rand_argmax_flat, argmax_ties, nanmax.
  unfold count_not_nan in Hz.
  by destruct (List.filter _ d); [| discriminate].
Qed.
End RngFacts.

(** ** Picks, masks and snapshots *)

Lemma length_mask_positions (d : list float) (ps : list nat) :
  length (mask_positions d ps) = length d.
Proof.
  revert d. induction ps as [| p ps IH]; intros d; simpl; [done |].
  unfold mask_positions in *. simpl. by rewrite IH, length_insert.
Qed.

Lemma mask_positions_nan (d : list float) (ps : list nat) (p : nat) :
  p < length d → p ∈ ps → mask_positions d ps !! p = Some NaN.
Proof.
  unfold mask_positions. revert d.
  induction ps as [| q ps IH]; intros d Hp Hin; simpl.
  - by apply elem_of_nil in Hin.
  - destruct (decide (p ∈ ps)) as [Hps | Hps].
    + apply IH; [by rewrite length_insert | done].
    + apply elem_of_cons in Hin as [-> | ?]; [| done].
      clear IH. revert d Hp.
      induction ps as [| r ps IH]; intros d Hp; simpl.
      * by apply list_lookup_insert_eq.
      * apply not_elem_of_cons in Hps as [Hne Hps].
        rewrite list_insert_insert_ne by done.
        apply IH; [done | by rewrite length_insert].
  Qed.

Lemma mask_positions_keeps_nan (d : list float) (ps : list nat) (p : nat) :
  d !! p = Some NaN → mask_positions d ps !! p = Some NaN.
Proof.
  unfold mask_positions. revert d.
  induction ps as [| q ps IH]; intros d Hd; simpl; [done |].
  apply IH. destruct (decide (q = p)) as [-> | Hne].
  - apply list_lookup_insert_eq. by eapply lookup_lt_Some.
  - by rewrite list_lookup_insert_ne.
Qed.

Lemma picks_lt (d : list float) (ps : list nat) (p : nat) :
  picks d ps → p ∈ ps → p < length d.
Proof.
  revert d. induction ps as [| q ps IH]; intros d Hpk Hin; simpl in *.
  - by apply elem_of_nil in Hin.
  - destruct Hpk as [(x & Hx & _) Hpk].
    apply elem_of_cons in Hin as [-> | Hin].
    + by eapply lookup_lt_Some.
    + specialize (IH _ Hpk Hin). by rewrite length_insert in IH.
Qed.

(** A position is never picked twice. *)
Lemma picks_NoDup (d : list float) (ps : list nat) : picks d ps → NoDup ps.
Proof.
  revert d. induction ps as [| p ps IH]; intros d Hpk; simpl in *.
  - constructor.
  - destruct Hpk as [(x & Hx & Hnn) Hpk]. constructor; [| by eapply IH].
    intros Hin. clear IH.
    assert (Hnan : <[p := NaN]> d !! p = Some NaN).
    { apply list_lookup_insert_eq. by eapply lookup_lt_Some. }
    revert Hpk Hnan Hin. generalize (<[p := NaN]> d). clear.
    induction ps as [| q ps IH]; intros d Hpk Hnan Hin; simpl in *.
    + by apply elem_of_nil in Hin.
    + destruct Hpk as [(y & Hy & Hynn) Hpk].
      apply elem_of_cons in Hin as [-> | Hin].
      * rewrite Hnan in Hy. by injection Hy as <-.
      * apply (IH (<[q := NaN]> d)); [done | | done].
        destruct (decide (q = p)) as [-> | Hne].
        -- apply list_lookup_insert_eq. by eapply lookup_lt_Some.
        -- by rewrite list_lookup_insert_ne.
Qed.

Lemma length_snapshots (d : list float) (ps : list nat) :
  length (snapshots d ps) = length ps.
Proof. revert d. induction ps; intros d; simpl; [done | by f_equal]. Qed.

Lemma snapshots_lookup (d : list float) (ps : list nat) (k : nat) :
  k < length ps → snapshots d ps !! k = Some (mask_positions d (take k ps)).
Proof.
  revert d k. induction ps as [| p ps IH]; intros d [| k] Hk; simpl in *;
    try lia; [done |].
  rewrite IH by lia. done.
Qed.

Lemma snapshots_length_each (d : list float) (ps : list nat) (r : list float) :
  r ∈ snapshots d ps → length r = length d.
Proof.
  revert d. induction ps as [| p ps IH]; intros d Hr; simpl in *.
  - by apply elem_of_nil in Hr.
  - apply elem_of_cons in Hr as [-> | Hr]; [done |].
    rewrite (IH _ Hr). apply length_insert.
Qed.

(** Row [k] of the history masks every position picked before [k]. *)
Lemma snapshots_earlier_nan (d : list float) (ps : list nat) (j k p : nat)
    (row : list float) :
  picks d ps → j < k → ps !! j = Some p → snapshots d ps !! k = Some row →
  row !! p = Some NaN.
Proof.
  intros Hpk Hjk Hj Hrow.
  assert (Hk : k < length ps).
  { apply lookup_lt_Some in Hrow. by rewrite length_snapshots in Hrow. }
  rewrite snapshots_lookup in Hrow by done. injection Hrow as <-.
  apply mask_positions_nan.
  - eapply picks_lt; [done |]. by eapply list_elem_of_lookup_2.
  - apply list_elem_of_lookup. exists j. rewrite lookup_take_lt by done. done.
Qed.

(** ** [simple_batch] *)

Lemma take_drop_concat_row {A} (rows : list (list A)) (w k : nat)
    (r : list A) :
  (∀ r', r' ∈ rows → length r' = w) → rows !! k = Some r →
  take w (drop (k * w) (concat rows)) = r.
Proof.
  revert k. induction rows as [| r0 rows IH]; intros k Hlen Hk; [done |].
  assert (Hr0 : length r0 = w) by (apply Hlen, list_elem_of_here).
  destruct k as [| k]; cbn [lookup list_lookup concat] in *.
  - injection Hk as ->. rewrite Nat.mul_0_l, drop_0.
    rewrite take_app_le by lia. apply take_ge. lia.
  - rewrite drop_app_ge by lia.
    replace (S k * w - length r0) with (k * w) by lia.
    apply IH; [| done]. intros r' Hr'. by apply Hlen, list_elem_of_further.
Qed.


Lemma unravel_index_inj (s : list nat) (p q : nat) :
  p < prod_shape s → q < prod_shape s →
  unravel_index s p = unravel_index s q → p = q.
Proof.
  intros Hp Hq Heq.
  rewrite <- (ravel_unravel s p), <- (ravel_unravel s q) by done.
  by rewrite Heq.
Qed.

Section SimpleBatch.
Context `{RandomSource}.

Lemma rand_argmax_ok (u : loc) (rs : rand_arg) (w : world)
    (dt : dtype) (s : list nat) (d : list float) :
  arrays w !! u = Some (NdArray dt s d) →
  rs_valid rs w → 0 < count_not_nan d →
  ∃ p w', rand_argmax u rs w = (Ok (unravel_index s p), w')
          ∧ p ∈ argmax_ties d ∧ rng_only w w' ∧ rs_valid rs w'.
Proof.
  intros Hu Hv Hpos.
  destruct (rand_argmax_flat_ok d rs w Hv Hpos) as (p & w' & Hr & Hp & Hw).
  exists p, w'. split; [| done].
  unfold rand_argmax. rewrite bind_unfold. unfold read_array at 1.
  rewrite Hu. simpl data. simpl shape.
  by rewrite (bind_ok _ _ _ _ _ Hr).
Qed.

(** The loop picks [n] positions, one after the other, as long as [n]
    entries are not [NaN]; it touches the array it is given and the
    generator, nothing else. *)
Lemma batch_loop_ok (n : nat) (u : loc) (rs : rand_arg)
    (best : list (list nat)) (rows : list (list float)) (w : world)
    (dt : dtype) (s : list nat) (d : list float) :
  arrays w !! u = Some (NdArray dt s d) → length d = prod_shape s →
  rs_valid rs w → n ≤ count_not_nan d →
  ∃ ps w',
    batch_loop n u rs best rows w
    = (Ok (best ++ (unravel_index s <$> ps), rows ++ snapshots d ps), w')
    ∧ length ps = n ∧ picks d ps
    ∧ arrays w' = <[u := NdArray dt s (mask_positions d ps)]> (arrays w)
    ∧ warnings w' = warnings w ∧ fit_log w' = fit_log w.
Proof.
  revert best rows w d.
  induction n as [| n IH]; intros best rows w d Hu Hlen Hv Hn.
  - exists [], w. simpl. rewrite !app_nil_r. repeat split.
    by rewrite insert_id.
  - destruct (rand_argmax_ok u rs w dt s d Hu Hv)
      as (p & w1 & Hr & Hp & (Ha1 & Hw1 & Hf1) & Hv1); [lia |].
    destruct (argmax_ties_spec d p Hp) as (x & Hx & Hnn).
    assert (Hplt : p < prod_shape s).
    { rewrite <- Hlen. by eapply lookup_lt_Some. }
    set (d' := <[p := NaN]> d).
    set (w2 := set_arrays <[u := NdArray dt s d']> w1).
    assert (Hstep : ∀ (B : Type) (k : list nat → ndarray → M B),
      (rand_argmax u rs ≫= λ idx, read_array u ≫= λ a,
         setitem u idx NaN ≫= λ _, k idx a) w
      = k (unravel_index s p) (NdArray dt s d) w2).
    { intros B k. rewrite (bind_ok _ _ _ _ _ Hr).
      rewrite bind_unfold. unfold read_array. rewrite Ha1, Hu.
      rewrite bind_unfold. unfold setitem. rewrite Ha1, Hu. simpl shape.
      rewrite unravel_index_in_bounds, ravel_unravel by done. done. }
    destruct (IH (best ++ [unravel_index s p]) (rows ++ [d]) w2 d')
      as (ps & w' & Hloop & Hps & Hpk & Ha & Hw & Hf).
    + subst w2. simpl. by rewrite lookup_insert_eq.
    + subst d'. by rewrite length_insert.
    + subst w2. by destruct rs.
    + subst d'. pose proof (count_not_nan_mask d p x Hx Hnn). lia.
    + exists (p :: ps), w'. simpl batch_loop. rewrite Hstep. simpl data.
      rewrite Hloop. rewrite <- !app_assoc. simpl.
      split; [done |]. split; [by rewrite Hps |].
      split; [split; eauto |].
      subst w2. simpl in Ha, Hw, Hf.
      split; [| split; congruence].
      rewrite Ha, Ha1. by rewrite insert_insert_eq.
Qed.


Lemma check_array_allow_nan_ok (u : loc) (w : world) (a : ndarray) :
  arrays w !! u = Some a → array_accepted a = true →
  ∃ u' w1,
    check_array_allow_nan u w = (Ok u', w1)
    ∧ (if decide (nd_dtype a = Float64) then u' = u
       else arrays w !! u' = None)
    ∧ arrays w1 = <[u' := NdArray Float64 (shape a) (data a)]> (arrays w)
    ∧ rngs w1 = rngs w
    ∧ warnings w1 = warnings w ∧ fit_log w1 = fit_log w.
Proof.
  intros Hu Hacc. unfold array_accepted in Hacc.
  apply andb_true_iff in Hacc as [Hinf Hshape].
  apply negb_true_iff in Hinf.
  unfold check_array_allow_nan. rewrite bind_unfold.
  unfold read_array. rewrite Hu.
  destruct a as [dt s d]. simpl in *.
  assert (Hs : ∀ (l : loc) (w1 : world),
    (if existsb isinf d then raise ValueError
     else match s with
          | [] => raise TypeError
          | 0 :: _ => raise ValueError
          | [_; 0] => raise ValueError
          | _ => mret l
          end) w1 = (Ok l, w1)).
  { intros l w1. rewrite Hinf.
    destruct s as [| [| n] [| [| m] [| ? ?]]]; done. }
  destruct dt; rewrite bind_unfold; simpl.
  - exists u, w. rewrite Hs. repeat split. by rewrite insert_id.
  - eexists _, _. rewrite Hs. repeat split.
    apply not_elem_of_dom, is_fresh.
Qed.

Lemma unravel_index_1d (n0 p : nat) : unravel_index [n0] p = [p].
Proof.
  change (unravel_index [n0] p) with [p / 1]. by rewrite Nat.div_1_r.
Qed.

Lemma index_rows_flat (n0 : nat) (ps : list nat) :
  (λ p, [p]) <$> concat (unravel_index [n0] <$> ps)
  = unravel_index [n0] <$> ps.
Proof.
  induction ps as [| p ps IH]; [done |].
  rewrite !fmap_cons, unravel_index_1d. cbn [concat app].
  rewrite fmap_cons. by f_equal.
Qed.

(** What a call of [simple_batch] on an accepted array does: it picks
    [min batch_size m] positions [ps], where [m] entries are not [NaN],
    returns their multi-indices and the snapshots taken before each pick,
    leaves the array it worked on masked at [ps], and warns when
    [m < batch_size]. *)
Lemma simple_batch_spec (u : loc) (rs : rand_arg) (z : Z) (ru : bool)
    (w : world) (a : ndarray) :
  arrays w !! u = Some a → wf_ndarray a → array_accepted a = true →
  (1 ≤ z)%Z → rs_valid rs w →
  ∃ u' ps best w',
    simple_batch u rs (SInt z) ru w
    = (Ok (if ru
           then WithUtilities best
                  (NdArray Float64 (length ps :: shape a)
                     (concat (snapshots (data a) ps)))
           else JustIndices best), w')
    ∧ index_rows best = unravel_index (shape a) <$> ps
    ∧ length ps = Z.to_nat z `min` count_not_nan (data a)
    ∧ picks (data a) ps
    ∧ (if decide (nd_dtype a = Float64) then u' = u
       else arrays w !! u' = None)
    ∧ arrays w'
      = <[u' := NdArray Float64 (shape a) (mask_positions (data a) ps)]>
          (arrays w)
    ∧ warnings w'
      = warnings w
        ++ (if (Z.of_nat (count_not_nan (data a)) <? z)%Z
            then [BatchSizeWarning z (count_not_nan (data a))] else [])
    ∧ fit_log w' = fit_log w.
Proof.
  intros Hu Hwf Hacc Hz Hv.
  destruct (check_array_allow_nan_ok u w a Hu Hacc)
    as (u' & w1 & Hca & Hu' & Ha1 & Hr1 & Hw1 & Hf1).
  unfold simple_batch. rewrite (bind_ok _ _ _ _ _ Hca).
  rewrite bind_unfold. unfold check_scalar_int.
  destruct (Z.ltb_spec z 1) as [? | _]; [lia |].
  cbn [mret ST_ret]. rewrite bind_unfold. unfold read_array.
  rewrite Ha1, lookup_insert_eq. simpl data. simpl shape.
  set (m := count_not_nan (data a)).
  set (n := Z.to_nat z `min` m).
  set (w2 := if (Z.of_nat m <? z)%Z
             then add_warning (BatchSizeWarning z m) w1 else w1).
  assert (Hbs : ∀ (B : Type) (k : nat → M B),
    ((if (Z.of_nat m <? z)%Z
      then warn (BatchSizeWarning z m) ≫= λ _, mret m
      else mret (Z.to_nat z)) ≫= k) w1 = k n w2).
  { intros B k. rewrite bind_unfold. subst n w2.
    destruct (Z.ltb_spec (Z.of_nat m) z); simpl.
    - f_equal. lia.
    - f_equal. lia. }
  rewrite Hbs. clear Hbs.
  destruct (batch_loop_ok n u' rs [] [] w2 Float64 (shape a) (data a))
    as (ps & w' & Hloop & Hps & Hpk & Ha & Hw & Hf).
  - subst w2. destruct (Z.of_nat m <? z)%Z; simpl;
      by rewrite Ha1, lookup_insert_eq.
  - exact Hwf.
  - subst w2. destruct rs as [| | l |]; try done. simpl in *.
    destruct (Z.of_nat m <? z)%Z; simpl; by rewrite Hr1.
  - subst n. lia.
  - rewrite (bind_ok _ _ _ _ _ Hloop). simpl app.
    exists u', ps.
    exists (if ndim a =? 1 then Idx1 (concat (unravel_index (shape a) <$> ps))
            else IdxN (unravel_index (shape a) <$> ps)).
    exists w'. rewrite Hps. unfold ndim. simpl shape.
    split; [by destruct ru |].
    split.
    { destruct (shape a) as [| n0 [| ? ?]];
        cbn [length Nat.eqb index_rows]; try done.
      apply index_rows_flat. }
    split; [done |]. split; [done |]. split; [done |].
    split.
    { rewrite Ha. subst w2.
      destruct (Z.of_nat m <? z)%Z; simpl; rewrite Ha1;
        by rewrite insert_insert_eq. }
    split.
    { rewrite Hw. subst w2.
      destruct (Z.of_nat m <? z)%Z; simpl; rewrite Hw1;
        [done | by rewrite app_nil_r]. }
    rewrite Hf. subst w2. by destruct (Z.of_nat m <? z)%Z.
Qed.
End SimpleBatch.

Lemma picks_not_nan (d : list float) (ps : list nat) (p : nat) :
  picks d ps → p ∈ ps → ∃ x, d !! p = Some x ∧ isnan x = false.
Proof.
  revert d. induction ps as [| q ps IH]; intros d Hpk Hin; simpl in *.
  - by apply elem_of_nil in Hin.
  - destruct Hpk as [Hq Hpk].
    apply elem_of_cons in Hin as [-> | Hin]; [done |].
    destruct Hq as (y & Hy & _).
    destruct (IH _ Hpk Hin) as (x & Hx & Hnn).
    destruct (decide (q = p)) as [-> | Hne].
    + rewrite list_lookup_insert_eq in Hx by (by eapply lookup_lt_Some).
      injection Hx as <-. discriminate.
    + rewrite list_lookup_insert_ne in Hx by done. eauto.
Qed.

Lemma count_not_nan_picks (d : list float) (ps : list nat) :
  picks d ps →
  count_not_nan (mask_positions d ps) + length ps = count_not_nan d.
Proof.
  unfold mask_positions. revert d.
  induction ps as [| p ps IH]; intros d Hpk; simpl in *; [lia |].
  destruct Hpk as [(x & Hx & Hnn) Hpk].
  rewrite <- (count_not_nan_mask d p x Hx Hnn).
  specialize (IH _ Hpk). lia.
Qed.

Section SimpleBatchClaims.
Context `{RandomSource}.

(** C2.  Within one call of [simple_batch] on an accepted array, whatever
    the batch size asked for, the indices returned are pairwise distinct,
    and in the utility history returned with them every row holds [NaN] at
    each position that an earlier row's pick selected. *)
Theorem simple_batch_no_double_selection (u : loc) (rs : rand_arg) (z : Z)
    (ru : bool) (w : world) (a : ndarray) :
  arrays w !! u = Some a → wf_ndarray a → array_accepted a = true →
  (1 ≤ z)%Z → rs_valid rs w →
  ∃ best hist w',
    simple_batch u rs (SInt z) ru w
    = (Ok (if ru then WithUtilities best hist else JustIndices best), w')
    ∧ NoDup (index_rows best)
    ∧ ∀ j k idx,
        j < k → k < length (index_rows best) →
        index_rows best !! j = Some idx →
        nd_row hist k !! ravel_multi_index (shape a) idx = Some NaN.
Proof.
  intros Hu Hwf Hacc Hz Hv.
  destruct (simple_batch_spec u rs z ru w a Hu Hwf Hacc Hz Hv)
    as (u' & ps & best & w' & Hsb & Hrows & Hlen & Hpk & _).
  eexists best, _, w'. split; [exact Hsb |].
  assert (Hlt : ∀ p, p ∈ ps → p < prod_shape (shape a)).
  { intros p Hp. rewrite <- Hwf. by eapply picks_lt. }
  split.
  - rewrite Hrows. apply NoDup_fmap_2_strong; [| by eapply picks_NoDup].
    intros p q Hp Hq. apply unravel_index_inj; auto.
  - intros j k idx Hjk Hk Hj.
    rewrite Hrows in Hj, Hk. rewrite length_fmap in Hk.
    rewrite list_lookup_fmap in Hj.
    destruct (ps !! j) as [p |] eqn:Hpj; [| discriminate].
    injection Hj as <-.
    rewrite ravel_unravel by (by eapply Hlt, list_elem_of_lookup_2).
    destruct (lookup_lt_is_Some_2 (snapshots (data a) ps) k) as [row Hrow].
    { by rewrite length_snapshots. }
    unfold nd_row. simpl.
    rewrite (take_drop_concat_row _ _ _ row).
    + by apply (snapshots_earlier_nan (data a) ps j k p row).
    + intros r' Hr'. rewrite <- Hwf. by eapply snapshots_length_each.
    + done.
Qed.


(** C10.  [simple_batch] writes into the array it is given: when the
    caller's array has element type float, so that the validation hands
    back the very same object, the call selects
    [min(batch_size, m)] positions, [m] being the number of entries that
    are not [NaN], and after the call the caller's array holds [NaN] at
    every selected position, each of which held a value that was not [NaN]
    before the call: the caller's array has that many entries that are not
    [NaN] fewer, and is not the array it was as soon as one entry was not
    [NaN]. *)
Theorem simple_batch_mutates_input (u : loc) (rs : rand_arg) (z : Z)
    (ru : bool) (w : world) (a : ndarray) :
  arrays w !! u = Some a → nd_dtype a = Float64 →
  wf_ndarray a → array_accepted a = true → (1 ≤ z)%Z → rs_valid rs w →
  ∃ r w' a',
    simple_batch u rs (SInt z) ru w = (Ok r, w')
    ∧ arrays w' !! u = Some a'
    ∧ shape a' = shape a
    ∧ length (index_rows (result_indices r))
      = Z.to_nat z `min` count_not_nan (data a)
    ∧ count_not_nan (data a') + length (index_rows (result_indices r))
      = count_not_nan (data a)
    ∧ (0 < count_not_nan (data a) → data a' ≠ data a)
    ∧ ∀ idx, idx ∈ index_rows (result_indices r) →
        data a' !! ravel_multi_index (shape a) idx = Some NaN
        ∧ ∃ x, data a !! ravel_multi_index (shape a) idx = Some x
               ∧ isnan x = false.
Proof.
  intros Hu Hdt Hwf Hacc Hz Hv.
  destruct (simple_batch_spec u rs z ru w a Hu Hwf Hacc Hz Hv)
    as (u' & ps & best & w' & Hsb & Hrows & Hlen & Hpk & Hu' & Ha & _).
  destruct (decide (nd_dtype a = Float64)) as [_ | ?]; [subst u' | done].
  eexists _, w', _. split; [exact Hsb |].
  split; [by rewrite Ha, lookup_insert_eq |].
  split; [done |].
  assert (Hn : length (index_rows
                         (result_indices
                            (if ru
                             then WithUtilities best
                                    (NdArray Float64 (length ps :: shape a)
                                       (concat (snapshots (data a) ps)))
                             else JustIndices best)))
               = length ps).
  { replace (result_indices _) with best by (by destruct ru).
    by rewrite Hrows, length_fmap. }
  pose proof (count_not_nan_picks _ _ Hpk) as Hcount.
  split; [by rewrite Hn |].
  split; [simpl; by rewrite Hn |].
  split.
  { simpl. intros Hpos Heq. rewrite Heq in Hcount. lia. }
  intros idx Hidx.
  assert (Hin : idx ∈ index_rows best) by (by destruct ru).
  rewrite Hrows in Hin. apply list_elem_of_fmap in Hin as (p & -> & Hp).
  assert (Hlt : p < length (data a)) by (by eapply picks_lt).
  rewrite ravel_unravel by (by rewrite <- Hwf).
  split; [by apply mask_positions_nan | by eapply picks_not_nan].
Qed.
End SimpleBatchClaims.

Lemma simple_batch_no_double_selection_witness :
  ∃ best hist w',
    simple_batch 0 (RsSeed 7) (SInt 3) true
      (world_with sample_utilities_2d)
    = (Ok (WithUtilities best hist), w')
    ∧ NoDup (index_rows best)
    ∧ ∀ j k idx,
        j < k → k < length (index_rows best) →
        index_rows best !! j = Some idx →
        nd_row hist k !! ravel_multi_index [2; 3] idx = Some NaN.
Proof.
  apply (simple_batch_no_double_selection (H := lcg_source) 0 (RsSeed 7) 3
           true (world_with sample_utilities_2d)
           sample_utilities_2d);
    [reflexivity | reflexivity | reflexivity | lia | exact I].
Defined.


Lemma simple_batch_mutates_input_witness :
  ∃ r w' a',
    simple_batch 0 (RsSeed 7) (SInt 2) false
      (world_with sample_utilities) = (Ok r, w')
    ∧ arrays w' !! 0 = Some a'
    ∧ shape a' = [5]
    ∧ length (index_rows (result_indices r)) = 2
    ∧ count_not_nan (data a') + length (index_rows (result_indices r)) = 4
    ∧ (0 < 4 → data a' ≠ data sample_utilities)
    ∧ ∀ idx, idx ∈ index_rows (result_indices r) →
        data a' !! ravel_multi_index [5] idx = Some NaN
        ∧ ∃ x, data sample_utilities !! ravel_multi_index [5] idx = Some x
               ∧ isnan x = false.
Proof.
  apply (simple_batch_mutates_input (H := lcg_source) 0 (RsSeed 7) 2 false
           (world_with sample_utilities) sample_utilities);
    [reflexivity | reflexivity | reflexivity | reflexivity | lia | exact I].
Defined.

(** ** [ExpectedErrorReduction.query]: configuration errors *)

Section QueryConfiguration.
Context `{RandomSource} `{Classifier} `{FloatLog}.
Import ExpectedErrorReduction.

Variable check_classifier_params :
  list float → float → option matrix → option exn.

(** C7.  [ExpectedErrorReduction.query] raises [TypeError] when [clf] is not
    a [ClassFrequencyEstimator]; when it is one and the parameter check
    passes, it raises [ValueError] if [classes] differ from the classes of
    [clf], and [ValueError] if [method] is none of [emr], [csl] and
    [log_loss].  In each of the three situations, whatever the parameter
    check answers, the call ends in an exception with the world, and so the
    log of model fits, as it was before the call. *)
Theorem query_rejects_bad_configuration (self : t) (X_cand X : matrix)
    (y : list float) (ru : bool) (w : world) :
  let r := query check_classifier_params X_cand X y ru (self, w) in
  (clf self = NotAClassFrequencyEstimator → r = (Err TypeError, (self, w)))
  ∧ (∀ est,
       clf self = ClassFrequencyEstimator est →
       check_classifier_params (classes self) (missing_label self) (C self)
       = None →
       array_equal (est_classes est) (classes self) = false →
       r = (Err ValueError, (self, w)))
  ∧ (∀ est,
       clf self = ClassFrequencyEstimator est →
       check_classifier_params (classes self) (missing_label self) (C self)
       = None →
       method self ∉ [EMR; CSL; LOG_LOSS] →
       r.1 = Err ValueError ∧ r.2.2 = w)
  ∧ (clf self = NotAClassFrequencyEstimator
     ∨ (∃ est, clf self = ClassFrequencyEstimator est
               ∧ array_equal (est_classes est) (classes self) = false)
     ∨ method self ∉ [EMR; CSL; LOG_LOSS] →
     ∃ e, r.1 = Err e ∧ r.2.2 = w ∧ fit_log r.2.2 = fit_log w).
Proof.
  intros r.
  assert (Hnot : clf self = NotAClassFrequencyEstimator →
                 r = (Err TypeError, (self, w))).
  { intros Hclf. subst r. unfold query. rewrite bind_unfold.
    unfold get_self. simpl. by rewrite Hclf. }
  assert (Hcls : ∀ est,
    clf self = ClassFrequencyEstimator est →
    check_classifier_params (classes self) (missing_label self) (C self)
    = None →
    array_equal (est_classes est) (classes self) = false →
    r = (Err ValueError, (self, w))).
  { intros est Hclf Hccp Hne. subst r. unfold query. rewrite bind_unfold.
    unfold get_self. simpl. by rewrite Hclf, Hccp, Hne. }
  assert (Hmeth : ∀ est,
    clf self = ClassFrequencyEstimator est →
    check_classifier_params (classes self) (missing_label self) (C self)
    = None →
    method self ∉ [EMR; CSL; LOG_LOSS] →
    r.1 = Err ValueError ∧ r.2.2 = w).
  { intros est Hclf Hccp Hm. subst r. unfold query. rewrite bind_unfold.
    unfold get_self. simpl. rewrite Hclf, Hccp.
    destruct (array_equal (est_classes est) (classes self)); [| done].
    simpl. rewrite bind_unfold.
    rewrite (bool_decide_eq_false_2 _ Hm).
    by destruct (C self). }
  split; [done |]. split; [done |]. split; [done |].
  intros Hbad.
  destruct (clf self) as [| est] eqn:Hclf.
  { rewrite Hnot by done. by exists TypeError. }
  destruct (check_classifier_params (classes self) (missing_label self)
              (C self)) as [e |] eqn:Hccp.
  { exists e. subst r. unfold query. rewrite bind_unfold.
    unfold get_self. simpl. by rewrite Hclf, Hccp. }
  destruct (array_equal (est_classes est) (classes self)) eqn:Heq.
  - destruct Hbad as [? | [(? & ? & ?) | Hm]]; [done | congruence |].
    destruct (Hmeth est) as [Hr Hw]; [done .. |].
    exists ValueError. by rewrite Hw.
  - rewrite (Hcls est) by done. by exists ValueError.
Qed.
End QueryConfiguration.

Lemma query_rejects_bad_configuration_witness :
  (ExpectedErrorReduction.query params_accepted [[0%Q]] [[0%Q]] [NaN] true
     (ExpectedErrorReduction.Build
        ExpectedErrorReduction.NotAClassFrequencyEstimator
        [of_int 0; of_int 1] "emr" None (RsSeed 0) NaN, empty_world)).1
  = Err TypeError
  ∧ (ExpectedErrorReduction.query params_accepted [[0%Q]] [[0%Q]] [NaN] true
       (ExpectedErrorReduction.Build
          (ExpectedErrorReduction.ClassFrequencyEstimator
             ([of_int 0; of_int 1], NaN))
          [of_int 0; of_int 2] "emr" None (RsSeed 0) NaN, empty_world)).1
    = Err ValueError
  ∧ (ExpectedErrorReduction.query params_accepted [[0%Q]] [[0%Q]] [NaN] true
       (sample_eer [of_int 0; of_int 1] "entropy" 0, empty_world)).1
    = Err ValueError.
Proof.
  split; [| split].
  - rewrite (proj1 (query_rejects_bad_configuration
                      (H0 := frequency_classifier) params_accepted
                      _ _ _ _ _ _)); reflexivity.
  - rewrite (proj1 (proj2 (query_rejects_bad_configuration
                             (H0 := frequency_classifier) params_accepted
                             _ _ _ _ _ _)) ([of_int 0; of_int 1], NaN));
      reflexivity.
  - apply (proj1 (proj2 (proj2 (query_rejects_bad_configuration
                                  (H0 := frequency_classifier)
                                  params_accepted _ _ _ _ _ _)))
             ([of_int 0; of_int 1], NaN)); [reflexivity | reflexivity |].
    intros Hin. by repeat (apply elem_of_cons in Hin as [? | Hin]);
      try by apply elem_of_nil in Hin.
Defined.

(** ** [expected_error_reduction]: the label of a hypothesis *)

(** C1 (evaluation at the failing input).  With classes [1] and [2], one
    labeled sample and one candidate, the refits of
    [expected_error_reduction] are on the labels [0] and [1], the positions
    of the classes, and not on the classes [1] and [2] themselves. *)
Theorem expected_error_reduction_appends_class_index :
  fit_log
    (expected_error_reduction (H0 := frequency_classifier)
       ([of_int 1; of_int 2], NaN) [[5%Q]] [[0%Q]] [of_int 1]
       [of_int 1; of_int 2] None "emr" empty_world).2
  = [FitEvent [[0%Q]] [of_int 1];
     FitEvent [[0%Q]; [5%Q]] [of_int 1; of_int 0];
     FitEvent [[0%Q]; [5%Q]] [of_int 1; of_int 1]].
Proof. reflexivity. Qed.

(** ** [ExpectedErrorReduction.query]: repeated calls *)

(** C4 (evaluation at the failing input).  Two candidates with the same
    features tie.  The first call of [query] on an object configured with
    the seed 4 replaces the seed by a generator object and advances it; the
    second call, on the same object and the same data, draws from where the
    first one stopped: the utilities are the same and the indices differ. *)
Theorem query_twice_differs :
  match query_twice (sample_eer [of_int 0; of_int 1] "emr" 4)
          [[0%Q]; [0%Q]] [[0%Q]] [NaN] empty_world with
  | (Ok (QueryWithUtilities i1 u1), Ok (QueryWithUtilities i2 u2)) =>
      i1 = [1] ∧ i2 = [0] ∧ u1 = u2
  | _ => False
  end.
Proof. vm_compute. by repeat split. Qed.

(** ** The risk of method [csl] *)









Section Csl.
Context `{RandomSource} `{Classifier} `{FloatLog}.






End Csl.


(** ** Drawing without replacement *)

Lemma submseteq_NoDup {A} (l k : list A) : l ⊆+ k → NoDup k → NoDup l.
Proof.
  intros [k' Hk]%submseteq_Permutation Hnd. rewrite Hk in Hnd.
  by apply NoDup_app in Hnd as [? _].
Qed.

Section Drawing.
Context `{RandomSource}.

Lemma draw_without_replacement_spec {A} (size : nat) (a : list A)
    (st : RandomState) :
  (draw_without_replacement size a st).1 ⊆+ a
  ∧ length (draw_without_replacement size a st).1 = size `min` length a.
Proof.
  revert a st. induction size as [| size IH]; intros a st.
  { split; [apply submseteq_nil_l | done]. }
  destruct a as [| x0 a']; [split; [apply submseteq_nil_l | done] |].
  cbn [draw_without_replacement].
  destruct (rs_randint st (length (x0 :: a'))) as [j st'].
  set (a := x0 :: a') in *. set (j' := j mod length a).
  assert (Hj : j' < length a) by (apply Nat.mod_upper_bound; done).
  destruct (lookup_lt_is_Some_2 a j' Hj) as [x Hx].
  rewrite (nth_lookup_Some a j' x0 x Hx).
  destruct (IH (delete j' a) st') as [Hsub Hlen].
  destruct (draw_without_replacement size (delete j' a) st') as [rest st''].
  simpl in *. split.
  - apply submseteq_cons_l. exists (delete j' a).
    split; [by apply delete_Permutation | done].
  - rewrite Hlen, length_delete by eauto. subst a. simpl. lia.
Qed.

Lemma choice_ok {A} (rs : rand_arg) (a : list A) (size : nat) (w : world) :
  rs_valid rs w → size ≤ length a →
  ∃ r w', choice rs a size w = (Ok r, w')
          ∧ r ⊆+ a ∧ length r = size ∧ rng_only w w'.
Proof.
  intros Hv Hsize. unfold choice.
  destruct (Nat.ltb_spec (length a) size) as [? | _]; [lia |].
  destruct (with_rng_ok rs (draw_without_replacement size a) w Hv)
    as (st & w' & -> & Hw & _).
  destruct (draw_without_replacement_spec size a st) as [Hsub Hlen].
  eexists _, w'. split; [done |]. split; [done |]. split; [lia | done].
Qed.

(** The generator of one call: a valid random state, in a world that
    differs by generators only. *)
Lemma check_random_state_mult_ok (rs : rand_arg) (m : Z) (w : world) :
  rs_valid rs w →
  ∃ rs' w', check_random_state_mult rs m w = (Ok rs', w')
            ∧ rng_only w w' ∧ rs_valid rs' w'.
Proof.
  intros Hv. unfold check_random_state_mult.
  destruct rs as [| s | l |]; simpl in *.
  - by exists RsGlobal, w.
  - eexists _, _. split; [done |]. split; [done |].
    simpl. rewrite lookup_insert_eq. eauto.
  - destruct Hv as [st ->]. eexists _, _. split; [done |]. split; [done |].
    simpl. rewrite lookup_insert_eq. eauto.
  - eexists _, _. split; [done |]. split; [done |].
    simpl. rewrite lookup_insert_eq. eauto.
Qed.
End Drawing.

(** ** Broadcasting and column assignment *)



(** Values of the shape asked for are taken as they are. *)
Lemma broadcast_to_id {A} (r c : nat) (u : list (list A)) :
  length u = r → Forall (λ v, length v = c) u → broadcast_to r c u = Ok u.
Proof.
  intros Hr Hc. unfold broadcast_to.
  assert (Hm : mapM (broadcast_row c) u = Some u).
  { apply mapM_Some. clear Hr. induction Hc as [| v u Hv _ IH]; constructor;
      [| done].
    unfold broadcast_row. by rewrite Hv, Nat.eqb_refl. }
  by rewrite Hm, Hr, Nat.eqb_refl.
Qed.





(** ** [SubSamplingWrapper.query] *)

Section Wrapper.
Context `{RandomSource}.
Import SubSamplingWrapper.

Lemma sub_sample_size_le (mc : scalar) (n : nat) : sub_sample_size mc n ≤ n.
Proof. unfold sub_sample_size. lia. Qed.

(** An integer [max_candidates] above the pool size is clipped to it. *)
Lemma sub_sample_size_clipped (z : Z) (n : nat) :
  (Z.of_nat n < z)%Z → sub_sample_size (SInt z) n = n.
Proof. unfold sub_sample_size. simpl. lia. Qed.

Lemma lookup_all_rows {A} (rows : list A) (idx : list nat) :
  idx ⊆+ seq 0 (length rows) →
  ∃ sub, mapM (λ i, rows !! i) idx = Some sub
         ∧ Forall2 (λ j r, rows !! j = Some r) idx sub.
Proof.
  intros Hsub.
  destruct (proj2 (mapM_is_Some (λ i, rows !! i) idx)) as [sub Hm].
  - apply Forall_forall. intros j Hj. simpl.
    apply lookup_lt_is_Some_2.
    apply (elem_of_submseteq _ _ _ Hj) in Hsub.
    apply elem_of_seq in Hsub. lia.
  - exists sub. split; [done |]. by apply mapM_Some_1.
Qed.

(** The sub-sample is drawn without failing and without a warning: the
    world changes by the state of generators only. *)
Lemma sub_sample_ok (rs : rand_arg) (y : list float) (ml : float)
    (cands : candidates) (mc : scalar) (w : world) :
  rs_valid rs w →
  ∃ new idx w',
    sub_sample rs y ml cands mc w = (Ok (new, idx), w')
    ∧ rng_only w w'
    ∧ sub_sample_of y ml cands new idx
    ∧ n_given new = sub_sample_size mc (pool_size cands y ml)
    ∧ (SubSamplingWrapper.is_features cands = true →
       length idx = sub_sample_size mc (pool_size cands y ml)).
Proof.
  intros Hv. unfold sub_sample. destruct cands as [| pool | rows].
  - destruct (choice_ok rs (unlabeled_indices y ml)
                (sub_sample_size mc (length (unlabeled_indices y ml))) w Hv)
      as (l & w' & Hc & Hsub & Hlen & Hw); [apply sub_sample_size_le |].
    unfold sub_sample_size in Hc. rewrite (bind_ok _ _ _ _ _ Hc).
    exists (CandIndices l), [], w'.
    split; [done |]. split; [done |]. split; [by exists l |].
    split; [done | discriminate].
  - destruct (choice_ok rs pool (sub_sample_size mc (length pool)) w Hv)
      as (l & w' & Hc & Hsub & Hlen & Hw); [apply sub_sample_size_le |].
    unfold sub_sample_size in Hc. rewrite (bind_ok _ _ _ _ _ Hc).
    exists (CandIndices l), [], w'.
    split; [done |]. split; [done |]. split; [by exists l |].
    split; [done | discriminate].
  - destruct (choice_ok rs (seq 0 (length rows))
                (sub_sample_size mc (length rows)) w Hv)
      as (idx & w' & Hc & Hsub & Hlen & Hw).
    { rewrite length_seq. apply sub_sample_size_le. }
    unfold sub_sample_size in Hc.
    rewrite (bind_ok _ _ _ _ _ Hc).
    destruct (lookup_all_rows rows idx Hsub) as (sub & Hm & Hf2).
    rewrite bind_unfold. unfold lift_opt. rewrite Hm.
    exists (CandFeatures sub), idx, w'.
    split; [done |]. split; [done |].
    split; [split; [done | by exists sub] |].
    simpl. apply Forall2_length in Hf2. split; [lia | done].
Qed.

Variable query_kwargs : Type.
Variable validate_data :
  t query_kwargs → matrix → list float → candidates → scalar → bool
  → M (matrix * list float * candidates * nat * bool).

(** What a call does once the arguments are validated and [max_candidates]
    is accepted: it draws the sub-sample, in a world that differs by
    generators only, and hands it to the wrapped strategy, whose answer it
    translates. *)
Lemma query_delegates (self : t query_kwargs) (X : matrix) (y : list float)
    (cands : candidates) (bs : scalar) (ru : bool) (kw : query_kwargs)
    (w : world) (X' : matrix) (y' : list float) (cands' : candidates)
    (bs' : nat) (ru' : bool) (w1 : world) (inner : inner_query query_kwargs) :
  validate_data self X y cands bs ru w = (Ok (X', y', cands', bs', ru'), w1) →
  query_strategy _ self = SingleAnnotatorPoolQueryStrategy _ inner →
  (∃ u w0, check_max_candidates (max_candidates _ self) w0 = (Ok u, w0)) →
  rs_valid (random_state _ self) w1 →
  ∃ new idx w2,
    rng_only w1 w2
    ∧ sub_sample_of y' (missing_label _ self) cands' new idx
    ∧ n_given new
      = sub_sample_size (max_candidates _ self)
          (pool_size cands' y' (missing_label _ self))
    ∧ (is_features cands' = true →
       length idx = sub_sample_size (max_candidates _ self)
                      (pool_size cands' y' (missing_label _ self)))
    ∧ query _ validate_data self X y cands bs ru kw w
      = (inner X' y' new bs' ru' kw ≫= λ out,
           lift_result (translate cands' bs' ru' idx out)) w2.
Proof.
  intros Hval Hqs Hmc Hv.
  assert (Hmc' : check_max_candidates (max_candidates _ self) w1 = (Ok tt, w1)).
  { destruct Hmc as (u & w0 & Hmc). unfold check_max_candidates in *.
    destruct (max_candidates _ self) as [z | q |]; simpl in *.
    - rewrite bind_unfold in *. unfold check_scalar_int in *.
      destruct (z <? 1)%Z; [discriminate | done].
    - rewrite bind_unfold in *. unfold check_scalar_float in *.
      destruct (Qle_bool q 0); [discriminate |].
      destruct (Qle_bool q 1); [done | discriminate].
    - discriminate. }
  destruct (check_random_state_mult_ok (random_state _ self)
              (Z.of_nat (length (List.filter id
                 (is_labeled y' (missing_label _ self)))) + 1) w1 Hv)
    as (rs & w1' & Hrs & Hw1 & Hv').
  destruct (sub_sample_ok rs y' (missing_label _ self) cands'
              (max_candidates _ self) w1' Hv')
    as (new & idx & w2 & Hss & Hw2 & Hof & Hn & Hi).
  exists new, idx, w2.
  split; [by eapply rng_only_trans |].
  split; [done |]. split; [done |]. split; [done |].
  unfold query. rewrite (bind_ok _ _ _ _ _ Hval). cbv beta iota.
  rewrite Hqs. rewrite (bind_ok _ _ _ _ _ Hmc').
  rewrite (bind_ok _ _ _ _ _ Hrs). by rewrite (bind_ok _ _ _ _ _ Hss).
Qed.

(** C5 (amended).  When [max_candidates], an integer not below 1, exceeds
    the size of the resolved pool, the wrapper clips it to the pool size
    and goes on without failing: the sub-sample is the whole pool, in the
    order drawn, and the call answers what the wrapped strategy answers on
    it, translated.  The wrapper issues no warning of its own: the wrapped
    strategy starts in a world with the warnings the validation left. *)
Theorem query_clips_max_candidates (self : t query_kwargs) (X : matrix)
    (y : list float) (cands : candidates) (bs : scalar) (ru : bool)
    (kw : query_kwargs) (w : world) (X' : matrix) (y' : list float)
    (cands' : candidates) (bs' : nat) (ru' : bool) (w1 : world)
    (inner : inner_query query_kwargs) (z : Z) :
  validate_data self X y cands bs ru w = (Ok (X', y', cands', bs', ru'), w1) →
  query_strategy _ self = SingleAnnotatorPoolQueryStrategy _ inner →
  max_candidates _ self = SInt z → (1 ≤ z)%Z →
  (Z.of_nat (pool_size cands' y' (missing_label _ self)) < z)%Z →
  rs_valid (random_state _ self) w1 →
  ∃ new idx w2,
    warnings w2 = warnings w1
    ∧ n_given new = pool_size cands' y' (missing_label _ self)
    ∧ match cands' with
      | CandNone =>
          ∃ l, new = CandIndices l
               ∧ l ≡ₚ unlabeled_indices y' (missing_label _ self)
      | CandIndices pool => ∃ l, new = CandIndices l ∧ l ≡ₚ pool
      | CandFeatures rows =>
          idx ≡ₚ seq 0 (length rows)
          ∧ ∃ sub, new = CandFeatures sub
                   ∧ Forall2 (λ j r, rows !! j = Some r) idx sub
      end
    ∧ query _ validate_data self X y cands bs ru kw w
      = (inner X' y' new bs' ru' kw ≫= λ out,
           lift_result (translate cands' bs' ru' idx out)) w2.
Proof.
  intros Hval Hqs Hmc Hz Hbig Hv.
  destruct (query_delegates self X y cands bs ru kw w X' y' cands' bs' ru'
              w1 inner Hval Hqs) as (new & idx & w2 & Hw & Hof & Hn & Hi & Hq);
    [| done |].
  { exists tt, w1. rewrite Hmc. unfold check_max_candidates.
    rewrite bind_unfold. unfold check_scalar_int.
    by destruct (Z.ltb_spec z 1) as [? | _]; [lia |]. }
  rewrite Hmc, sub_sample_size_clipped in Hn, Hi by done.
  exists new, idx, w2. split; [apply Hw |]. split; [done |].
  split; [| done].
  destruct cands' as [| pool | rows]; simpl in *.
  - destruct Hof as (l & -> & Hsub). exists l. split; [done |].
    apply submseteq_length_Permutation; [done |]. simpl in Hn. lia.
  - destruct Hof as (l & -> & Hsub). exists l. split; [done |].
    apply submseteq_length_Permutation; [done |]. simpl in Hn. lia.
  - destruct Hof as (Hsub & sub & -> & Hf2). split; [| by exists sub].
    apply submseteq_length_Permutation; [done |].
    rewrite length_seq, Hi by done. done.
Qed.

End Wrapper.

(** C5 (counterexample).  Three candidates and [max_candidates=5]: the call
    succeeds, and no warning is issued. *)
Lemma query_clips_without_warning :
  let '(r, w') :=
    SubSamplingWrapper.query unit accept_data (sample_wrapper (SInt 5))
      sample_X sample_y (CandFeatures sample_candidates) (SInt 2) true tt
      empty_world in
  (Z.of_nat (length sample_candidates) < 5)%Z
  ∧ is_ok r = true
  ∧ warnings w' = warnings empty_world.
Proof. vm_compute. by repeat split. Qed.

Lemma query_clips_max_candidates_witness :
  ∃ new idx w2,
    warnings w2 = warnings empty_world
    ∧ n_given new = 3
    ∧ (idx ≡ₚ seq 0 3
       ∧ ∃ sub, new = CandFeatures sub
                ∧ Forall2 (λ j r, sample_candidates !! j = Some r) idx sub)
    ∧ SubSamplingWrapper.query unit accept_data (sample_wrapper (SInt 5))
        sample_X sample_y (CandFeatures sample_candidates) (SInt 2) true tt
        empty_world
      = (uniform_strategy sample_X sample_y new 2 true tt ≫= λ out,
           lift_result
             (SubSamplingWrapper.translate (CandFeatures sample_candidates)
                2 true idx out)) w2.
Proof.
  apply (query_clips_max_candidates (H := lcg_source) unit accept_data
           (sample_wrapper (SInt 5)) sample_X sample_y
           (CandFeatures sample_candidates) (SInt 2) true tt empty_world
           sample_X sample_y (CandFeatures sample_candidates) 2 true
           empty_world uniform_strategy 5);
    [reflexivity | reflexivity | reflexivity | lia | reflexivity | exact I].
Defined.



(** ** Core-Set selection *)

Lemma Qminimum_spec (x : Q) (l : list Q) :
  Qminimum x l ∈ x :: l ∧ ∀ z, z ∈ x :: l → (Qminimum x l <= z)%Q.
Proof.
  unfold Qminimum. revert x.
  induction l as [| y l IH]; intros x; simpl.
  - split; [apply elem_of_cons; by left |].
    intros z Hz. apply elem_of_cons in Hz as [-> | Hz];
      [apply Qle_refl | by apply elem_of_nil in Hz].
  - destruct (IH (if Qle_bool x y then x else y)) as [Hin Hle].
    assert (Hx : (fold_left (λ a b, if Qle_bool a b then a else b) l
                    (if Qle_bool x y then x else y) <= x)%Q
                 ∧ (fold_left (λ a b, if Qle_bool a b then a else b) l
                      (if Qle_bool x y then x else y) <= y)%Q).
    { assert (Hm := Hle (if Qle_bool x y then x else y)
                      ltac:(apply elem_of_cons; by left)).
      destruct (Qle_bool x y) eqn:Hxy.
      - apply Qle_bool_iff in Hxy. split; [done |].
        by eapply Qle_trans.
      - assert (Hyx : (y <= x)%Q).
        { apply Qlt_le_weak, Qnot_le_lt. intros Hc.
          apply Qle_bool_iff in Hc. congruence. }
        split; [by eapply Qle_trans | done]. }
    split.
    + apply elem_of_cons in Hin as [Hin | Hin].
      * rewrite Hin. destruct (Qle_bool x y);
          [apply elem_of_cons; by left |].
        apply elem_of_cons; right. apply elem_of_cons; by left.
      * apply elem_of_cons; right. by apply elem_of_cons; right.
    + intros z Hz. apply elem_of_cons in Hz as [-> | Hz]; [apply Hx |].
      apply elem_of_cons in Hz as [-> | Hz]; [apply Hx |].
      apply Hle. by apply elem_of_cons; right.
Qed.

Lemma count_not_nan_pattern (d d' : list float) :
  isnan <$> d = isnan <$> d' → count_not_nan d = count_not_nan d'.
Proof.
  unfold count_not_nan. revert d'.
  induction d as [| x d IH]; intros [| x' d'] Heq; simpl in *; try done.
  injection Heq as Hx Hd. rewrite Hx. destruct (isnan x'); simpl;
    by rewrite (IH d').
Qed.

Section CoreSetFacts.
Context `{RandomSource} `{Distance}.

(** What the model computes for a candidate is the distance to its
    nearest reference point. *)
Lemma nearest_distance_spec (reference : list (list Q)) (x : list Q) :
  nearest_reference_distance reference x (nearest_distance reference x).
Proof.
  destruct reference as [| r reference]; [done |]. simpl.
  destruct (Qminimum_spec (dist x r) ((λ r', dist x r') <$> reference))
    as [Hin Hle].
  assert (Hall : ∀ r', r' ∈ r :: reference →
                       dist x r' ∈ dist x r :: ((λ r', dist x r') <$> reference)).
  { intros r' Hr'. apply elem_of_cons in Hr' as [-> | Hr'];
      [apply elem_of_cons; by left |].
    apply elem_of_cons; right. apply list_elem_of_fmap. by exists r'. }
  apply elem_of_cons in Hin as [Hin | Hin].
  - exists (Qminimum (dist x r) ((λ r', dist x r') <$> reference)), r.
    split; [done |]. split; [apply elem_of_cons; by left |].
    split; [done |]. intros r' Hr'. by apply Hle, Hall.
  - apply list_elem_of_fmap in Hin as (r0 & Hr0 & Hin).
    exists (Qminimum (dist x r) ((λ r', dist x r') <$> reference)), r0.
    split; [done |]. split; [by apply elem_of_cons; right |].
    split; [done |]. intros r' Hr'. by apply Hle, Hall.
Qed.

(** A distance to the nearest reference point is never negative. *)
Lemma nearest_reference_distance_nonneg (reference : list (list Q))
    (x : list Q) (u : float) :
  nearest_reference_distance reference x u → fleb (Fin 0) u = true.
Proof.
  destruct reference as [| r reference]; simpl; [by intros -> |].
  intros (d & r0 & -> & _ & -> & _). apply Qle_bool_iff, dist_nonneg.
Qed.

Lemma isnan_nearest_distance (reference : list (list Q)) (x : list Q) :
  isnan (nearest_distance reference x) = false.
Proof. by destruct reference. Qed.

Lemma length_core_set_utilities (pool : list (list Q)) (eligible : list bool)
    (selected : list nat) (reference : list (list Q)) :
  length (core_set_utilities pool eligible selected reference)
  = length pool `min` length eligible.
Proof.
  unfold core_set_utilities.
  rewrite length_fmap, !length_zip_with, length_seq. lia.
Qed.

Lemma core_set_utilities_lookup (pool : list (list Q)) (eligible : list bool)
    (selected : list nat) (reference : list (list Q)) (j : nat) (x : list Q)
    (e : bool) :
  pool !! j = Some x → eligible !! j = Some e →
  core_set_utilities pool eligible selected reference !! j
  = Some (if e && negb (bool_decide (j ∈ selected))
          then nearest_distance reference x else NaN).
Proof.
  intros Hx He. unfold core_set_utilities.
  rewrite list_lookup_fmap.
  assert (Hz : zip (seq 0 (length pool)) (zip pool eligible) !! j
               = Some (j, (x, e))).
  { apply lookup_zip_with_Some. exists j, (x, e). split; [done |].
    split.
    - apply lookup_seq. split; [done |]. by eapply lookup_lt_Some.
    - apply lookup_zip_with_Some. by exists x, e. }
  by rewrite Hz.
Qed.

Lemma core_set_utilities_lookup_inv (pool : list (list Q))
    (eligible : list bool) (selected : list nat) (reference : list (list Q))
    (j : nat) (u : float) :
  core_set_utilities pool eligible selected reference !! j = Some u →
  ∃ x e, pool !! j = Some x ∧ eligible !! j = Some e.
Proof.
  intros Hu. apply lookup_lt_Some in Hu.
  rewrite length_core_set_utilities in Hu.
  destruct (lookup_lt_is_Some_2 pool j) as [x Hx]; [lia |].
  destruct (lookup_lt_is_Some_2 eligible j) as [e He]; [lia |].
  by exists x, e.
Qed.

(** Selecting a candidate takes it, and it alone, out of those that have
    a utility. *)
Lemma count_not_nan_select (pool : list (list Q)) (eligible : list bool)
    (selected : list nat) (reference reference' : list (list Q))
    (idx : nat) (u : float) :
  core_set_utilities pool eligible selected reference !! idx = Some u →
  isnan u = false →
  S (count_not_nan
       (core_set_utilities pool eligible (selected ++ [idx]) reference'))
  = count_not_nan (core_set_utilities pool eligible selected reference).
Proof.
  intros Hu Hnn.
  rewrite <- (count_not_nan_mask _ idx u Hu Hnn). f_equal.
  apply count_not_nan_pattern. apply list_eq. intros j.
  rewrite !list_lookup_fmap.
  destruct (decide (j < length pool `min` length eligible)) as [Hj | Hj].
  - destruct (lookup_lt_is_Some_2 pool j) as [x Hx]; [lia |].
    destruct (lookup_lt_is_Some_2 eligible j) as [e He]; [lia |].
    rewrite (core_set_utilities_lookup _ _ _ _ _ _ _ Hx He).
    destruct (decide (j = idx)) as [-> | Hne].
    + rewrite list_lookup_insert_eq
        by (rewrite length_core_set_utilities; lia).
      simpl. rewrite bool_decide_eq_true_2
        by (apply elem_of_app; right; apply elem_of_cons; by left).
      by rewrite andb_false_r.
    + rewrite list_lookup_insert_ne by done.
      rewrite (core_set_utilities_lookup _ _ _ _ _ _ _ Hx He). simpl.
      rewrite (bool_decide_ext (j ∈ selected ++ [idx]) (j ∈ selected)).
      2:{ rewrite elem_of_app, elem_of_cons, elem_of_nil.
          split; [intros [? | [? | []]]; done | by left]. }
      destruct (e && negb (bool_decide (j ∈ selected))); [| done].
      by rewrite !isnan_nearest_distance.
  - rewrite !lookup_ge_None_2; [done | |].
    + rewrite length_insert, length_core_set_utilities. lia.
    + rewrite length_core_set_utilities. lia.
Qed.

(** Before any selection, the candidates are the positions that have a
    utility. *)
Lemma count_not_nan_candidates (pool : list (list Q)) (eligible : list bool)
    (reference : list (list Q)) :
  length eligible = length pool →
  count_not_nan (core_set_utilities pool eligible [] reference)
  = n_eligible eligible.
Proof.
  intros Hlen. unfold core_set_utilities, count_not_nan, n_eligible.
  assert (Hgen : ∀ (g : nat * (list Q * bool) → float)
                   (l : list (nat * (list Q * bool))),
    (∀ pxe, isnan (g pxe) = negb pxe.2.2) →
    length (List.filter (λ u, negb (isnan u)) (g <$> l))
    = length (List.filter id (l.*2.*2))).
  { intros g l Hg. induction l as [| pxe l IH]; [done |].
    rewrite !fmap_cons. cbn [List.filter]. rewrite Hg, negb_involutive.
    unfold id at 1. destruct (pxe.2.2); simpl; by rewrite IH. }
  rewrite Hgen.
  - f_equal. f_equal.
    rewrite snd_zip by (rewrite length_zip_with, length_seq; lia).
    by rewrite snd_zip by lia.
  - intros [p [x e]]. simpl.
    destruct e; simpl; [apply isnan_nearest_distance | done].
Qed.

Lemma greedy_rows_lookup (pool : list (list Q)) (eligible : list bool)
    (selected : list nat) (reference : list (list Q)) (new : list nat)
    (newf : list (list Q)) (k : nat) (row : list float) :
  greedy_rows pool eligible selected reference new newf !! k = Some row →
  row = core_set_utilities pool eligible (selected ++ take k new)
          (reference ++ take k newf).
Proof.
  revert selected reference newf k.
  induction new as [| i new IH]; intros selected reference [| x newf] k;
    simpl; try done.
  destruct k as [| k]; simpl.
  - intros [= <-]. by rewrite !app_nil_r.
  - intros Hk. rewrite (IH _ _ _ _ Hk). by rewrite <- !app_assoc.
Qed.

Lemma length_greedy_rows (pool : list (list Q)) (eligible : list bool)
    (selected : list nat) (reference : list (list Q)) (new : list nat)
    (newf : list (list Q)) :
  length new = length newf →
  length (greedy_rows pool eligible selected reference new newf) = length new.
Proof.
  revert selected reference newf.
  induction new as [| i new IH]; intros selected reference [| x newf] Hl;
    simpl in *; try done.
  by rewrite IH by lia.
Qed.

(** The greedy loop returns as long as candidates are left: it picks [n]
    positions of the pool, each one a position of a maximum of its row,
    and its rows of utilities are those of the picks. *)
Lemma k_greedy_center_loop_ok (n : nat) (pool : list (list Q))
    (eligible : list bool) (rs : rand_arg) (selected : list nat)
    (reference : list (list Q)) (rows : list (list float)) (w : world) :
  rs_valid rs w →
  n ≤ count_not_nan (core_set_utilities pool eligible selected reference) →
  ∃ new newf w',
    k_greedy_center_loop n pool eligible rs selected reference rows w
    = (Ok (selected ++ new,
           rows ++ greedy_rows pool eligible selected reference new newf),
       w')
    ∧ length new = n
    ∧ Forall2 (λ i x, pool !! i = Some x) new newf
    ∧ rng_only w w'
    ∧ ∀ k i, new !! k = Some i →
        i ∈ argmax_ties
              (core_set_utilities pool eligible (selected ++ take k new)
                 (reference ++ take k newf)).
Proof.
  revert selected reference rows w.
  induction n as [| n IH]; intros selected reference rows w Hv Hn.
  - exists [], [], w. simpl. rewrite !app_nil_r.
    split; [done |]. split; [done |]. split; [constructor |].
    split; [apply rng_only_refl | done].
  - cbn [k_greedy_center_loop].
    set (U := core_set_utilities pool eligible selected reference) in *.
    destruct (rand_argmax_flat_ok U rs w Hv) as (idx & w1 & Hra & Hin & Hw1
                                                 & Hv1); [lia |].
    rewrite (bind_ok _ _ _ _ _ Hra).
    destruct (argmax_ties_spec _ _ Hin) as (u & Hu & Hnn).
    destruct (core_set_utilities_lookup_inv _ _ _ _ _ _ Hu)
      as (x & e & Hx & He).
    rewrite bind_unfold. unfold lift_opt. rewrite Hx.
    destruct (IH (selected ++ [idx]) (reference ++ [x]) (rows ++ [U]) w1 Hv1)
      as (new & newf & w' & Hloop & Hlen & Hf2 & Hw' & Hmax).
    { pose proof (count_not_nan_select pool eligible selected reference
                    (reference ++ [x]) idx u Hu Hnn) as Hc.
      fold U in Hc. lia. }
    exists (idx :: new), (x :: newf), w'.
    split.
    { rewrite Hloop. simpl. by rewrite <- !app_assoc. }
    split; [simpl; by rewrite Hlen |].
    split; [by constructor |].
    split; [by eapply rng_only_trans |].
    intros [| k] i Hk; simpl in Hk.
    + injection Hk as <-. simpl. by rewrite !app_nil_r.
    + specialize (Hmax k i Hk). rewrite <- !app_assoc in Hmax.
      exact Hmax.
Qed.

Lemma resolve_lengths (X : matrix) (y : list float) (ml : float)
    (cands : candidates) (pool : list (list Q)) (eligible : list bool) :
  length X = length y →
  CoreSet.resolve X y ml cands = Ok (pool, eligible) →
  length eligible = length pool.
Proof.
  intros Hlen. unfold CoreSet.resolve.
  destruct cands as [| idx | rows].
  - intros [= <- <-]. unfold is_labeled. by rewrite !length_fmap.
  - destruct (forallb _ idx); [| discriminate]. intros [= <- <-].
    by rewrite length_fmap, length_seq.
  - destruct (_ || _); [| discriminate]. intros [= <- <-].
    by rewrite length_replicate.
Qed.

(** C9.  A Core-Set query with the greedy method, on data that resolve to
    candidates, returns: a batch size larger than the number of candidates
    is clipped to it, with the warning.  The row of every batch position
    holds, for each candidate not selected yet, the distance to its nearest
    reference point (the distance to one of the reference points, and no
    more than the distance to any of them), the reference points being the
    labeled samples and the candidates selected at earlier batch positions,
    and [NaN] elsewhere; the candidate selected at a batch position holds a
    maximum of its row; and every entry that is not [NaN] is at least 0. *)
Theorem core_set_utilities_are_distances (self : CoreSet.t) (X : matrix)
    (y : list float) (cands : candidates) (bs : nat) (w : world)
    (pool : list (list Q)) (eligible : list bool) :
  CoreSet.method self = Some "greedy"%string →
  length X = length y →
  CoreSet.resolve X y (CoreSet.missing_label self) cands
  = Ok (pool, eligible) →
  rs_valid (CoreSet.random_state self) w →
  ∃ qi us newf w',
    CoreSet.query self X y cands bs true w
    = (Ok (QueryWithUtilities qi us), w')
    ∧ length qi = bs `min` n_eligible eligible
    ∧ length us = bs `min` n_eligible eligible
    ∧ warnings w'
      = warnings w
        ++ (if n_eligible eligible <? bs
            then [BatchSizeWarning (Z.of_nat bs) (n_eligible eligible)]
            else [])
    ∧ Forall2 (λ i x, pool !! i = Some x) qi newf
    ∧ (∀ k row,
         us !! k = Some row →
         let reference :=
           labeled_rows X y (CoreSet.missing_label self) ++ take k newf in
         length row = length pool
         ∧ (∀ i, qi !! k = Some i → i ∈ argmax_ties row)
         ∧ ∀ j x e u,
             pool !! j = Some x → eligible !! j = Some e →
             row !! j = Some u →
             if e && negb (bool_decide (j ∈ take k qi))
             then nearest_reference_distance reference x u
             else u = NaN)
    ∧ Forall (Forall nonneg_or_nan) us.
Proof.
  intros Hmeth Hlen Hres Hv.
  pose proof (resolve_lengths _ _ _ _ _ _ Hlen Hres) as Hel.
  set (reference := labeled_rows X y (CoreSet.missing_label self)).
  set (m := n_eligible eligible).
  assert (Havail :
    count_not_nan (core_set_utilities pool eligible [] reference) = m)
    by (by apply count_not_nan_candidates).
  set (w0 := if m <? bs
             then add_warning (BatchSizeWarning (Z.of_nat bs) m) w else w).
  assert (Hv0 : rs_valid (CoreSet.random_state self) w0).
  { subst w0. destruct (m <? bs); [| done].
    by destruct (CoreSet.random_state self). }
  destruct (k_greedy_center_loop_ok (bs `min` m) pool eligible
              (CoreSet.random_state self) [] reference [] w0 Hv0)
    as (new & newf & w' & Hloop & Hn & Hf2 & Hw' & Hmax); [lia |].
  simpl in Hloop.
  exists new, (greedy_rows pool eligible [] reference new newf), newf, w'.
  assert (Hrow : ∀ k row,
    greedy_rows pool eligible [] reference new newf !! k = Some row →
    row = core_set_utilities pool eligible (take k new)
            (reference ++ take k newf)).
  { intros k row Hk. by apply greedy_rows_lookup in Hk. }
  split.
  { unfold CoreSet.query. rewrite Hmeth.
    rewrite bool_decide_eq_true_2 by done. cbn [negb].
    rewrite Hlen, Nat.eqb_refl. cbn [negb].
    rewrite bind_unfold. unfold lift_result. rewrite Hres. cbv beta iota.
    rewrite bind_unfold. unfold k_greedy_center.
    change (snd <$> List.filter fst
                      (zip (is_labeled y (CoreSet.missing_label self)) X))
      with reference.
    rewrite Havail. rewrite bind_unfold.
    subst w0. destruct (Nat.ltb_spec m bs) as [Hlt | Hge].
    - rewrite bind_unfold. unfold warn. cbv beta iota.
      unfold mret at 1, ST_ret at 1.
      replace (bs `min` m) with m in Hloop by lia.
      by rewrite Hloop.
    - unfold mret at 1, ST_ret at 1.
      replace (bs `min` m) with bs in Hloop by lia.
      by rewrite Hloop. }
  split; [done |].
  split; [rewrite length_greedy_rows; [done | by eapply Forall2_length] |].
  split.
  { destruct Hw' as (_ & -> & _). subst w0.
    destruct (m <? bs); simpl; [done | by rewrite app_nil_r]. }
  split; [done |].
  split.
  { intros k row Hk. pose proof (Hrow k row Hk) as ->. cbv zeta.
    split; [rewrite length_core_set_utilities; lia |].
    split; [intros i Hi; by apply (Hmax k i) |].
    intros j x e u Hx He Hu.
    rewrite (core_set_utilities_lookup _ _ _ _ _ _ _ Hx He) in Hu.
    injection Hu as <-.
    destruct (e && negb (bool_decide (j ∈ take k new))); [| done].
    apply nearest_distance_spec. }
  apply Forall_forall. intros row Hin.
  apply list_elem_of_lookup in Hin as [k Hk].
  pose proof (Hrow k row Hk) as ->.
  apply Forall_forall. intros u Hu.
  apply list_elem_of_lookup in Hu as [j Hj].
  destruct (core_set_utilities_lookup_inv _ _ _ _ _ _ Hj)
    as (x & e & Hx & He).
  rewrite (core_set_utilities_lookup _ _ _ _ _ _ _ Hx He) in Hj.
  injection Hj as <-. intros Hnn.
  destruct (e && negb (bool_decide (j ∈ take k new))); [| discriminate].
  eapply nearest_reference_distance_nonneg, nearest_distance_spec.
Qed.
End CoreSetFacts.

Lemma core_set_utilities_are_distances_witness :
  (CoreSet.query sample_core_set line_X line_y CandNone 5 true
     empty_world).1
  = Ok (QueryWithUtilities [3; 2; 1]
          [[NaN; Fin 1; Fin 3; Fin 7]; [NaN; Fin 1; Fin 3; NaN];
           [NaN; Fin 1; NaN; NaN]])
  ∧ ∃ qi us newf w',
      CoreSet.query sample_core_set line_X line_y CandNone 5 true
        empty_world
      = (Ok (QueryWithUtilities qi us), w')
      ∧ length qi = 5 `min` n_eligible [false; true; true; true]
      ∧ length us = 5 `min` n_eligible [false; true; true; true]
      ∧ warnings w'
        = warnings empty_world
          ++ (if n_eligible [false; true; true; true] <? 5
              then [BatchSizeWarning (Z.of_nat 5)
                      (n_eligible [false; true; true; true])]
              else [])
      ∧ Forall2 (λ i x, line_X !! i = Some x) qi newf
      ∧ (∀ k row,
           us !! k = Some row →
           let reference := labeled_rows line_X line_y NaN ++ take k newf in
           length row = length line_X
           ∧ (∀ i, qi !! k = Some i → i ∈ argmax_ties row)
           ∧ ∀ j x e u,
               line_X !! j = Some x →
               [false; true; true; true] !! j = Some e →
               row !! j = Some u →
               if e && negb (bool_decide (j ∈ take k qi))
               then nearest_reference_distance reference x u
               else u = NaN)
      ∧ Forall (Forall nonneg_or_nan) us.
Proof.
  split; [vm_compute; reflexivity |].
  apply (core_set_utilities_are_distances (H := lcg_source)
           (H0 := manhattan_distance) sample_core_set line_X line_y
           CandNone 5 empty_world line_X [false; true; true; true]);
    [reflexivity | reflexivity | reflexivity | exact I].
Defined.

(** ** The structure of [expected_error_reduction] *)

Section Structure.
Context `{RandomSource} `{Classifier} `{FloatLog}.

(** The inner loop over the class positions [a, a + b): it overwrites these
    entries of [errors_per_class] with the weighted risks and fits one model
    per position, on the label that is the position. *)
Lemma class_loop_spec (clf : estimator) (X_cand X : matrix)
    (y classes : list float) (C P : matrix) (method : string) (i : nat)
    (x : list Q) (b a : nat) (epc epc' : list Q) (w w' : world) :
  class_loop clf X_cand X y classes C method P i x (seq a b) epc w
  = (Ok epc', w') →
  a + b ≤ length epc →
  ∃ vals,
    weighted_risks method clf X_cand X y classes C P i x (seq a b) vals
    ∧ epc' = take a epc ++ vals ++ drop (a + b) epc
    ∧ fit_log w'
      = fit_log w
        ++ ((λ k, FitEvent (X ++ [x]) (y ++ [index_label k])) <$> seq a b)
    ∧ arrays w' = arrays w ∧ rngs w' = rngs w
    ∧ global_rng w' = global_rng w ∧ warnings w' = warnings w.
Proof.
  revert a epc w. induction b as [| b IH]; intros a epc w Hcl Hlen.
  - simpl in Hcl. injection Hcl as <- <-. exists [].
    split; [constructor |]. rewrite Nat.add_0_r. simpl.
    by rewrite take_drop, app_nil_r.
  - cbn [seq class_loop] in Hcl.
    rewrite bind_unfold in Hcl. unfold fit at 1 in Hcl.
    rewrite bind_unfold in Hcl. unfold lift_result at 1 in Hcl.
    destruct (costs_of method clf _ X_cand X y classes C) as [c | e] eqn:Hc;
      [| discriminate].
    rewrite bind_unfold in Hcl. unfold getitem2 at 1 in Hcl.
    destruct (P !! i) as [r |] eqn:Hr; [| discriminate].
    destruct (r !! a) as [p |] eqn:Hp; [| discriminate].
    apply IH in Hcl as (vals & Hvals & -> & Hfit & Ha & Hrn & Hg & Hw);
      [| rewrite length_insert; lia].
    exists ((p * c)%Q :: vals). split; [| split; [| split]].
    + constructor; [| done]. exists p, c. rewrite Hr. simpl.
      by repeat split.
    + rewrite (take_S_r _ a (p * c)%Q)
        by (apply list_lookup_insert_eq; lia).
      rewrite take_insert_ge by lia. rewrite drop_insert_lt by lia.
      rewrite <- app_assoc. simpl. by rewrite <- Nat.add_succ_comm.
    + rewrite Hfit. simpl. by rewrite <- app_assoc.
    + done.
Qed.

(** The outer loop over the candidates [Xs], at the positions
    [a, a + length Xs): it overwrites these entries of [errors] with the sum
    of the weighted risks of each candidate. *)
Lemma cand_loop_spec (clf : estimator) (X_cand X : matrix)
    (y classes : list float) (C P : matrix) (method : string)
    (Xs : matrix) (a : nat) (errors epc errors' : list Q) (w w' : world) :
  cand_loop clf X_cand X y classes C method P (zip (seq a (length Xs)) Xs)
    errors epc w = (Ok errors', w') →
  a + length Xs ≤ length errors → length epc = length classes →
  ∃ es,
    Forall2
      (λ ix e, ∃ vals,
         weighted_risks method clf X_cand X y classes C P ix.1 ix.2
           (seq 0 (length classes)) vals
         ∧ e = Qsum vals)
      (zip (seq a (length Xs)) Xs) es
    ∧ errors' = take a errors ++ es ++ drop (a + length Xs) errors
    ∧ fit_log w'
      = fit_log w ++ (x ← Xs; hypothesis_fits X y (length classes) x)
    ∧ arrays w' = arrays w ∧ rngs w' = rngs w
    ∧ global_rng w' = global_rng w ∧ warnings w' = warnings w.
Proof.
  revert a errors epc w.
  induction Xs as [| x Xs IH]; intros a errors epc w Hloop Hlen Hepc.
  - simpl in Hloop. injection Hloop as <- <-. exists [].
    split; [constructor |]. simpl. rewrite Nat.add_0_r.
    by rewrite take_drop, app_nil_r.
  - cbn [length seq zip zip_with cand_loop] in Hloop.
    rewrite bind_unfold in Hloop.
    destruct (class_loop clf X_cand X y classes C method P a x
                (seq 0 (length classes)) epc w) as [[epc1 | e] w1] eqn:Hcl;
      [| discriminate].
    apply class_loop_spec in Hcl
      as (vals & Hvals & -> & Hfit1 & Ha1 & Hr1 & Hg1 & Hw1); [| lia].
    assert (Hvl : length vals = length classes).
    { apply Forall2_length in Hvals. by rewrite length_seq in Hvals. }
    simpl in Hlen.
    rewrite drop_ge, app_nil_r in Hloop by (simpl; lia).
    simpl take in Hloop. simpl app in Hloop.
    apply IH in Hloop
      as (es & Hes & -> & Hfit & Ha & Hr & Hg & Hw);
      [| rewrite length_insert; lia | done].
    exists (Qsum vals :: es). split; [| split; [| split]].
    + constructor; [| done]. by exists vals.
    + rewrite (take_S_r _ a (Qsum vals))
        by (apply list_lookup_insert_eq; lia).
      rewrite take_insert_ge by lia. rewrite drop_insert_lt by lia.
      rewrite <- app_assoc. simpl. by rewrite <- Nat.add_succ_comm.
    + rewrite Hfit, Hfit1. simpl. by rewrite <- app_assoc.
    + repeat split; congruence.
Qed.

(** Whenever [expected_error_reduction] returns: the utility of candidate
    [i] is the negated sum, over the class positions [k], of the risk of the
    model refitted with the candidate and the label [k] appended, weighted
    by the baseline probability [P[i, k]]; the models fitted are the
    baseline and, for each candidate, one per class position. *)
Theorem expected_error_reduction_structure (clf : estimator)
    (X_cand X : matrix) (y classes : list float) (C : option matrix)
    (method : string) (w w' : world) (utilities : list Q) :
  expected_error_reduction clf X_cand X y classes C method w
  = (Ok utilities, w') →
  let P := est_predict_proba (est_fit clf X y) X_cand in
  let C' := match C with None => zero_one_cost (ncols P) | Some C => C end in
  Forall2
    (λ ix u, ∃ vals,
       weighted_risks method clf X_cand X y classes C' P ix.1 ix.2
         (seq 0 (length classes)) vals
       ∧ u = (- Qsum vals)%Q)
    (zip (seq 0 (length X_cand)) X_cand) utilities
  ∧ fit_log w'
    = fit_log w
      ++ FitEvent X y :: (x ← X_cand; hypothesis_fits X y (length classes) x)
  ∧ warnings w' = warnings w ∧ rngs w' = rngs w
  ∧ global_rng w' = global_rng w ∧ arrays w' = arrays w.
Proof.
  unfold expected_error_reduction. intros Hq.
  destruct ((0 <? nrows X) && (0 <? nrows X_cand)
            && negb (ncols X =? ncols X_cand)); [discriminate |].
  rewrite bind_unfold in Hq. unfold fit at 1, clone in Hq. cbv zeta.
  set (P := est_predict_proba (est_fit clf X y) X_cand) in *.
  set (C' := match C with None => zero_one_cost (ncols P) | Some C => C end)
    in *.
  rewrite bind_unfold in Hq.
  destruct (cand_loop clf X_cand X y classes C' method P _ _ _ _)
    as [[errors | e] w1] eqn:Hloop; [| discriminate].
  injection Hq as <- <-.
  apply cand_loop_spec in Hloop
    as (es & Hes & -> & Hfit & Ha & Hr & Hg & Hw);
    [| by rewrite length_replicate | by rewrite length_replicate].
  rewrite drop_ge, app_nil_r by (rewrite length_replicate; simpl; lia).
  simpl take. simpl app.
  split; [| split; [| by repeat split]].
  - apply Forall2_fmap_r. eapply Forall2_impl; [exact Hes |].
    intros [i x] e (vals & Hvals & ->). by exists vals.
  - rewrite Hfit. simpl. by rewrite <- app_assoc.
Qed.
End Structure.

(** * Further properties *)

(** ** The order of floats and the maximum *)

Lemma fleb_refl (x : float) : isnan x = false → fleb x x = true.
Proof.
  destruct x as [| [|] | q]; simpl; try done.
  intros _. apply Qle_bool_iff, Qle_refl.
Qed.

Lemma fleb_total (x y : float) :
  isnan x = false → isnan y = false → fleb x y = true ∨ fleb y x = true.
Proof.
  destruct x as [| [|] | a], y as [| [|] | b]; simpl; try discriminate;
    auto.
  intros _ _. destruct (Qlt_le_dec a b) as [Hlt | Hle].
  - left. apply Qle_bool_iff. by apply Qlt_le_weak.
  - right. by apply Qle_bool_iff.
Qed.

Lemma fleb_trans (x y z : float) :
  fleb x y = true → fleb y z = true → fleb x z = true.
Proof.
  destruct x as [| [|] | a], y as [| [|] | b], z as [| [|] | c]; simpl;
    try discriminate; auto.
  rewrite !Qle_bool_iff. apply Qle_trans.
Qed.

Lemma fleb_not_nan (x y : float) :
  fleb x y = true → isnan x = false ∧ isnan y = false.
Proof. by destruct x as [| [|] | a], y as [| [|] | b]. Qed.

Lemma feqb_fleb (x y : float) : feqb x y = true → fleb y x = true.
Proof.
  destruct x as [| [|] | a], y as [| [|] | b]; simpl; try discriminate;
    auto.
  rewrite Qle_bool_iff. intros Heq%Qeq_bool_iff. rewrite Heq. apply Qle_refl.
Qed.

Lemma fmaxf_ge_l (x y : float) :
  isnan x = false → isnan y = false → fleb x (fmaxf x y) = true.
Proof.
  intros Hx Hy. unfold fmaxf. destruct (fleb x y) eqn:Hxy; [done |].
  by apply fleb_refl.
Qed.

Lemma fmaxf_ge_r (x y : float) :
  isnan x = false → isnan y = false → fleb y (fmaxf x y) = true.
Proof.
  intros Hx Hy. unfold fmaxf. destruct (fleb x y) eqn:Hxy.
  - by apply fleb_refl.
  - destruct (fleb_total x y Hx Hy); congruence.
Qed.

Lemma fmaxf_not_nan (x y : float) :
  isnan x = false → isnan y = false → isnan (fmaxf x y) = false.
Proof. intros Hx Hy. unfold fmaxf. by destruct (fleb x y). Qed.

Lemma fold_fmaxf_ge (xs : list float) (x : float) :
  isnan x = false → Forall (λ y, isnan y = false) xs →
  Forall (λ y, fleb y (fold_left fmaxf xs x) = true) (x :: xs).
Proof.
  intros Hx Hxs. revert x Hx.
  induction Hxs as [| y xs Hy _ IH]; intros x Hx; simpl.
  - constructor; [by apply fleb_refl | constructor].
  - specialize (IH (fmaxf x y) (fmaxf_not_nan x y Hx Hy)).
    apply Forall_cons in IH as [Hm IH].
    constructor; [| constructor; [| done]].
    + apply (fleb_trans _ (fmaxf x y)); [by apply fmaxf_ge_l | done].
    + apply (fleb_trans _ (fmaxf x y)); [by apply fmaxf_ge_r | done].
Qed.

(** The maximum bounds every entry that is not [NaN]. *)
Lemma nanmax_ge (d : list float) (m y : float) :
  nanmax d = Some m → y ∈ d → isnan y = false → fleb y m = true.
Proof.
  unfold nanmax. intros Hm Hy Hnn.
  assert (Hin : In y (List.filter (λ x, negb (isnan x)) d)).
  { apply filter_In. split; [by apply list_elem_of_In |]. by rewrite Hnn. }
  assert (Hall : Forall (λ y, isnan y = false)
                   (List.filter (λ x, negb (isnan x)) d)).
  { apply Forall_forall. intros z Hz%list_elem_of_In%filter_In.
    destruct Hz as [_ Hz]. by apply negb_true_iff. }
  destruct (List.filter _ d) as [| x xs]; [discriminate |].
  injection Hm as <-. apply Forall_cons in Hall as [Hx Hxs].
  pose proof (fold_fmaxf_ge xs x Hx Hxs) as Hge.
  eapply Forall_forall in Hge; [done |]. by apply list_elem_of_In.
Qed.

(** A tied position holds a value that bounds every entry that is not
    [NaN]. *)
Lemma argmax_ties_max (d : list float) (p q : nat) (x y : float) :
  p ∈ argmax_ties d → d !! p = Some x → d !! q = Some y →
  isnan y = false → fleb y x = true.
Proof.
  unfold argmax_ties. intros Hp Hx Hy Hnn.
  destruct (nanmax d) as [m |] eqn:Hm; [| by apply elem_of_nil in Hp].
  apply list_elem_of_In, filter_In in Hp as [_ Hp]. rewrite Hx in Hp.
  apply (fleb_trans _ m); [| by apply feqb_fleb].
  apply (nanmax_ge d); [done | | done]. by eapply list_elem_of_lookup_2.
Qed.

Lemma greedy_picks_picks (d : list float) (ps : list nat) :
  greedy_picks d ps → picks d ps.
Proof.
  revert d. induction ps as [| p ps IH]; intros d; simpl; [done |].
  intros [Hp Hps]. split; [by apply argmax_ties_spec | by apply IH].
Qed.

(** ** [simple_batch], whenever it returns *)

Section SimpleBatchInversion.
Context `{RandomSource}.

Lemma with_rng_inv {A} (rs : rand_arg) (f : RandomState → A * RandomState)
    (w w' : world) (a : A) :
  with_rng rs f w = (Ok a, w') → (∃ st, a = (f st).1) ∧ rng_only w w'.
Proof.
  unfold with_rng. destruct rs as [| s | l |].
  - destruct (f (global_rng w)) as [a' g] eqn:Hf. intros [= <- <-].
    split; [| done]. exists (global_rng w). by rewrite Hf.
  - intros [= <- <-]. split; [by exists (rs_seed s) | done].
  - destruct (rngs w !! l) as [st |]; [| discriminate].
    destruct (f st) as [a' st'] eqn:Hf. intros [= <- <-].
    split; [| done]. exists st. by rewrite Hf.
  - destruct (f (global_rng w)) as [a' g] eqn:Hf. intros [= <- <-].
    split; [| done]. exists (global_rng w). by rewrite Hf.
Qed.

(** The selector answers a position of the maximum and touches generators
    only. *)
Lemma rand_argmax_flat_inv (d : list float) (rs : rand_arg) (w w' : world)
    (p : nat) :
  rand_argmax_flat d rs w = (Ok p, w') →
  p ∈ argmax_ties d ∧ rng_only w w'.
Proof.
  unfold rand_argmax_flat.
  destruct (argmax_ties d) as [| p0 ties] eqn:Hties; [discriminate |].
  intros [[st ->] Hw]%with_rng_inv. split; [| done].
  destruct (rs_randint st (length (p0 :: ties))) as [k st'].
  cbv beta iota zeta delta [fst]. apply list_elem_of_In, nth_In.
  apply Nat.mod_upper_bound. simpl. lia.
Qed.

Lemma rand_argmax_inv (u : loc) (rs : rand_arg) (w w' : world)
    (idx : list nat) (dt : dtype) (s : list nat) (d : list float) :
  rand_argmax u rs w = (Ok idx, w') →
  arrays w !! u = Some (NdArray dt s d) →
  ∃ p, idx = unravel_index s p ∧ p ∈ argmax_ties d ∧ rng_only w w'.
Proof.
  intros Hr Hu. unfold rand_argmax in Hr. rewrite bind_unfold in Hr.
  unfold read_array in Hr. rewrite Hu in Hr. simpl in Hr.
  rewrite bind_unfold in Hr.
  destruct (rand_argmax_flat d rs w) as [[p | e] w1] eqn:Hf;
    [| discriminate].
  unfold mret, ST_ret in Hr. simplify_eq.
  apply rand_argmax_flat_inv in Hf as [Hp Hw]. by exists p.
Qed.

Lemma batch_loop_inv (n : nat) (u : loc) (rs : rand_arg)
    (best best' : list (list nat)) (rows rows' : list (list float))
    (w w' : world) (dt : dtype) (s : list nat) (d : list float) :
  batch_loop n u rs best rows w = (Ok (best', rows'), w') →
  arrays w !! u = Some (NdArray dt s d) → length d = prod_shape s →
  ∃ ps,
    best' = best ++ (unravel_index s <$> ps)
    ∧ rows' = rows ++ snapshots d ps
    ∧ length ps = n ∧ greedy_picks d ps
    ∧ arrays w' = <[u := NdArray dt s (mask_positions d ps)]> (arrays w)
    ∧ warnings w' = warnings w ∧ fit_log w' = fit_log w.
Proof.
  revert best rows w d.
  induction n as [| n IH]; intros best rows w d Hloop Hu Hlen.
  - cbn [batch_loop] in Hloop. unfold mret, ST_ret in Hloop.
    simplify_eq. exists [].
    rewrite !app_nil_r. repeat split. by rewrite insert_id.
  - cbn [batch_loop] in Hloop. rewrite bind_unfold in Hloop.
    destruct (rand_argmax u rs w) as [[idx | e] w1] eqn:Hr; [| discriminate].
    apply (rand_argmax_inv _ _ _ _ _ dt s d) in Hr
      as (p & -> & Hp & (Ha1 & Hw1 & Hf1)); [| done].
    destruct (argmax_ties_spec d p Hp) as (x & Hx & Hnn).
    assert (Hplt : p < prod_shape s).
    { rewrite <- Hlen. by eapply lookup_lt_Some. }
    rewrite bind_unfold in Hloop. unfold read_array in Hloop.
    rewrite Ha1, Hu in Hloop. rewrite bind_unfold in Hloop.
    unfold setitem in Hloop. rewrite Ha1, Hu in Hloop. simpl shape in Hloop.
    rewrite unravel_index_in_bounds, ravel_unravel in Hloop by done.
    simpl data in Hloop. simpl nd_dtype in Hloop.
    apply (IH _ _ _ (<[p := NaN]> d)) in Hloop
      as (ps & -> & -> & Hps & Hpk & Ha & Hw & Hf).
    + exists (p :: ps). simpl. rewrite <- !app_assoc. simpl.
      split; [done |]. split; [done |]. split; [by rewrite Hps |].
      split; [done |]. simpl in Ha, Hw, Hf.
      split; [| split; congruence].
      rewrite Ha, Ha1. by rewrite insert_insert_eq.
    + simpl. by rewrite lookup_insert_eq.
    + by rewrite length_insert.
Qed.

(** The arrays the validation turns down: the call raises, and the caller's
    array is as it was. *)
Lemma check_array_allow_nan_rejects (u : loc) (w : world) (a : ndarray) :
  arrays w !! u = Some a → array_accepted a = false →
  ∃ e w1,
    check_array_allow_nan u w = (Err e, w1)
    ∧ arrays w1 !! u = Some a ∧ warnings w1 = warnings w
    ∧ (existsb isinf (data a) = true → e = ValueError).
Proof.
  intros Hu Hacc. unfold array_accepted in Hacc.
  unfold check_array_allow_nan. rewrite bind_unfold.
  unfold read_array. rewrite Hu.
  assert (Hs : ∀ (l : loc) (w1 : world), ∃ e,
    (if existsb isinf (data a) then raise ValueError
     else match shape a with
          | [] => raise TypeError
          | 0 :: _ => raise ValueError
          | [_; 0] => raise ValueError
          | _ => mret l
          end) w1 = (Err e, w1)
    ∧ (existsb isinf (data a) = true → e = ValueError)).
  { intros l w1. destruct (existsb isinf (data a)); simpl in *.
    - by exists ValueError.
    - destruct (shape a) as [| [| n] [| [| m] [| ? ?]]]; try discriminate;
        eexists; (split; [reflexivity | discriminate]). }
  destruct (nd_dtype a); rewrite bind_unfold; simpl.
  - destruct (Hs u w) as (e & -> & He). by exists e, w.
  - match goal with
    | |- context [set_arrays ?f w] =>
        destruct (Hs (fresh (dom (arrays w))) (set_arrays f w))
          as (e & -> & He)
    end.
    eexists e, _. split; [done |]. split; [| done].
    simpl. rewrite lookup_insert_ne; [done |].
    intros Heq. pose proof (is_fresh (dom (arrays w))) as Hfresh.
    rewrite Heq in Hfresh. apply Hfresh, elem_of_dom. eauto.
Qed.

(** What [simple_batch] has done whenever it returns: the batch size was an
    integer not below 1 and the array was accepted; the picks [ps] are
    greedy, [min batch_size m] in number where [m] entries are not [NaN];
    the history holds the snapshots; the array worked on, the caller's own
    for element type float and a fresh copy otherwise, is left masked at
    [ps]. *)
Lemma simple_batch_inv (u : loc) (rs : rand_arg) (bs : scalar) (ru : bool)
    (w w' : world) (a : ndarray) (r : batch_result) :
  simple_batch u rs bs ru w = (Ok r, w') →
  arrays w !! u = Some a → wf_ndarray a →
  ∃ z u' ps best,
    bs = SInt z ∧ (1 ≤ z)%Z ∧ array_accepted a = true
    ∧ greedy_picks (data a) ps
    ∧ length ps = Z.to_nat z `min` count_not_nan (data a)
    ∧ index_rows best = unravel_index (shape a) <$> ps
    ∧ r = (if ru
           then WithUtilities best
                  (NdArray Float64 (length ps :: shape a)
                     (concat (snapshots (data a) ps)))
           else JustIndices best)
    ∧ (if decide (nd_dtype a = Float64) then u' = u
       else arrays w !! u' = None)
    ∧ arrays w'
      = <[u' := NdArray Float64 (shape a) (mask_positions (data a) ps)]>
          (arrays w)
    ∧ warnings w'
      = warnings w
        ++ (if (Z.of_nat (count_not_nan (data a)) <? z)%Z
            then [BatchSizeWarning z (count_not_nan (data a))] else [])
    ∧ fit_log w' = fit_log w.
Proof.
  intros Hsb Hu Hwf.
  destruct (array_accepted a) eqn:Hacc.
  2: { destruct (check_array_allow_nan_rejects u w a Hu Hacc)
         as (e & w1 & Hca & _).
       unfold simple_batch in Hsb. by rewrite (bind_err _ _ _ _ _ Hca) in Hsb. }
  destruct (check_array_allow_nan_ok u w a Hu Hacc)
    as (u' & w1 & Hca & Hu' & Ha1 & Hr1 & Hw1 & Hf1).
  unfold simple_batch in Hsb. rewrite (bind_ok _ _ _ _ _ Hca) in Hsb.
  rewrite bind_unfold in Hsb. unfold check_scalar_int in Hsb.
  destruct bs as [z | q |]; [| discriminate ..].
  destruct (Z.ltb_spec z 1) as [? | Hz]; [discriminate |].
  cbn [mret ST_ret] in Hsb. rewrite bind_unfold in Hsb.
  unfold read_array in Hsb. rewrite Ha1, lookup_insert_eq in Hsb.
  simpl data in Hsb. simpl shape in Hsb.
  set (m := count_not_nan (data a)) in *.
  set (n := Z.to_nat z `min` m).
  set (w2 := if (Z.of_nat m <? z)%Z
             then add_warning (BatchSizeWarning z m) w1 else w1).
  assert (Hbs : ∀ (B : Type) (k : nat → M B),
    ((if (Z.of_nat m <? z)%Z
      then warn (BatchSizeWarning z m) ≫= λ _, mret m
      else mret (Z.to_nat z)) ≫= k) w1 = k n w2).
  { intros B k. rewrite bind_unfold. subst n w2.
    destruct (Z.ltb_spec (Z.of_nat m) z); simpl; f_equal; lia. }
  rewrite Hbs in Hsb. clear Hbs. rewrite bind_unfold in Hsb.
  destruct (batch_loop n u' rs [] [] w2) as [[[best rows] | e] w3] eqn:Hloop;
    [| discriminate].
  apply (batch_loop_inv _ _ _ _ _ _ _ _ _ Float64 (shape a) (data a))
    in Hloop as (ps & -> & -> & Hps & Hpk & Ha & Hw & Hf); [| | exact Hwf].
  2: { subst w2. destruct (Z.of_nat m <? z)%Z; simpl;
         by rewrite Ha1, lookup_insert_eq. }
  simpl app in Hsb. cbn [mret ST_ret] in Hsb.
  injection Hsb as <- <-.
  exists z, u', ps.
  exists (if ndim a =? 1 then Idx1 (concat (unravel_index (shape a) <$> ps))
          else IdxN (unravel_index (shape a) <$> ps)).
  rewrite Hps. unfold ndim.
  split; [done |]. split; [done |]. split; [done |]. split; [done |].
  split; [done |].
  split.
  { destruct (shape a) as [| n0 [| ? ?]];
      cbn [length Nat.eqb index_rows]; try done.
    apply index_rows_flat. }
  split; [done |]. split; [done |].
  split.
  { rewrite Ha. subst w2.
    destruct (Z.of_nat m <? z)%Z; simpl; rewrite Ha1;
      by rewrite insert_insert_eq. }
  split.
  { rewrite Hw. subst w2.
    destruct (Z.of_nat m <? z)%Z; simpl; rewrite Hw1;
      [done | by rewrite app_nil_r]. }
  rewrite Hf. subst w2. by destruct (Z.of_nat m <? z)%Z.
Qed.
End SimpleBatchInversion.

Lemma mask_positions_other (d : list float) (ps : list nat) (q : nat) :
  q ∉ ps → mask_positions d ps !! q = d !! q.
Proof.
  unfold mask_positions. revert d.
  induction ps as [| p ps IH]; intros d Hq; simpl; [done |].
  apply not_elem_of_cons in Hq as [Hne Hq].
  rewrite IH by done. by apply list_lookup_insert_ne.
Qed.

(** A greedy pick bounds every entry that is not [NaN] and was not picked
    before it. *)
Lemma greedy_picks_bound (d : list float) (ps : list nat) (k p q : nat)
    (x y : float) :
  greedy_picks d ps → ps !! k = Some p → d !! p = Some x →
  d !! q = Some y → isnan y = false → q ∉ take k ps →
  fleb y x = true.
Proof.
  revert d k. induction ps as [| p0 ps IH]; intros d k Hg Hk Hx Hy Hnn Hq;
    [done |].
  destruct Hg as [Hp0 Hg]. destruct k as [| k]; simpl in *.
  - injection Hk as ->. by eapply argmax_ties_max.
  - apply not_elem_of_cons in Hq as [Hne Hq].
    destruct (picks_not_nan _ _ p (greedy_picks_picks _ _ Hg))
      as (x' & Hx' & Hnn'); [by eapply list_elem_of_lookup_2 |].
    assert (Hpne : p0 ≠ p).
    { intros ->. rewrite list_lookup_insert_eq in Hx'
        by (by eapply lookup_lt_Some).
      by injection Hx' as <-. }
    apply (IH (<[p0 := NaN]> d) k); try done.
    + by rewrite list_lookup_insert_ne.
    + by rewrite list_lookup_insert_ne.
Qed.

Section SimpleBatchExtras.
Context `{RandomSource}.

(** X1.  A batch size that is not an integer, or is below 1, and an array
    that the validation turns down make [simple_batch] raise, [TypeError]
    for the type and [ValueError] for the value, before anything is
    selected: the caller's array and the warnings are as they were. *)
Theorem simple_batch_rejects_invalid_input (u : loc) (rs : rand_arg)
    (bs : scalar) (ru : bool) (w : world) (a : ndarray) :
  arrays w !! u = Some a →
  array_accepted a = false ∨ (∀ z, bs = SInt z → (z < 1)%Z) →
  ∃ e w',
    simple_batch u rs bs ru w = (Err e, w')
    ∧ arrays w' !! u = Some a ∧ warnings w' = warnings w
    ∧ (existsb isinf (data a) = true → e = ValueError)
    ∧ (array_accepted a = true →
       e = match bs with SInt _ => ValueError | _ => TypeError end).
Proof.
  intros Hu Hbad. unfold simple_batch.
  destruct (array_accepted a) eqn:Hacc.
  - destruct Hbad as [? | Hbs]; [done |].
    destruct (check_array_allow_nan_ok u w a Hu Hacc)
      as (u' & w1 & Hca & Hu' & Ha1 & Hr1 & Hw1 & Hf1).
    rewrite (bind_ok _ _ _ _ _ Hca). rewrite bind_unfold.
    assert (Hau : arrays w1 !! u = Some a).
    { rewrite Ha1. destruct (decide (nd_dtype a = Float64)) as [Hdt | Hdt].
      - subst u'. rewrite lookup_insert_eq. destruct a; simpl in *.
        by rewrite Hdt.
      - rewrite lookup_insert_ne; [done |]. intros ->. congruence. }
    assert (Hinf : existsb isinf (data a) = false).
    { unfold array_accepted in Hacc. apply andb_true_iff in Hacc as [Hi _].
      by apply negb_true_iff. }
    unfold check_scalar_int.
    destruct bs as [z | q |].
    + specialize (Hbs z eq_refl).
      destruct (Z.ltb_spec z 1) as [_ | ?]; [| lia].
      exists ValueError, w1. rewrite Hinf. by repeat split.
    + exists TypeError, w1. rewrite Hinf. by repeat split.
    + exists TypeError, w1. rewrite Hinf. by repeat split.
  - destruct (check_array_allow_nan_rejects u w a Hu Hacc)
      as (e & w1 & Hca & Hau & Hw1 & He).
    rewrite (bind_err _ _ _ _ _ Hca). exists e, w1.
    by repeat split.
Qed.

(** X2.  Whenever [simple_batch] returns, its picks are greedy: the value at
    a pick is not [NaN] and bounds every entry of the utilities that is not
    [NaN] and was not picked at an earlier batch position; so the picks
    come in order of decreasing utility. *)
Theorem simple_batch_picks_greedily (u : loc) (rs : rand_arg) (bs : scalar)
    (ru : bool) (w w' : world) (a : ndarray) (r : batch_result) :
  simple_batch u rs bs ru w = (Ok r, w') →
  arrays w !! u = Some a → wf_ndarray a →
  ∀ k idx,
    index_rows (result_indices r) !! k = Some idx →
    ∃ x,
      data a !! ravel_multi_index (shape a) idx = Some x
      ∧ isnan x = false
      ∧ (∀ q y,
           data a !! q = Some y → isnan y = false →
           unravel_index (shape a) q
           ∉ take k (index_rows (result_indices r)) →
           fleb y x = true)
      ∧ (∀ j idx' x',
           j ≤ k → index_rows (result_indices r) !! j = Some idx' →
           data a !! ravel_multi_index (shape a) idx' = Some x' →
           fleb x x' = true).
Proof.
  intros Hsb Hu Hwf.
  destruct (simple_batch_inv u rs bs ru w w' a r Hsb Hu Hwf)
    as (z & u' & ps & best & -> & Hz & Hacc & Hg & Hlen & Hrows & -> & _).
  assert (Hbest : index_rows (result_indices
            (if ru then WithUtilities best
                          (NdArray Float64 (length ps :: shape a)
                             (concat (snapshots (data a) ps)))
             else JustIndices best)) = unravel_index (shape a) <$> ps)
    by (by destruct ru).
  rewrite Hbest. clear Hbest Hrows.
  pose proof (greedy_picks_picks _ _ Hg) as Hpk.
  assert (Hlt : ∀ p, p ∈ ps → p < prod_shape (shape a)).
  { intros p Hp. rewrite <- Hwf. by eapply picks_lt. }
  intros k idx Hk. rewrite list_lookup_fmap in Hk.
  destruct (ps !! k) as [p |] eqn:Hpk'; [| discriminate].
  injection Hk as <-.
  assert (Hpin : p ∈ ps) by (by eapply list_elem_of_lookup_2).
  rewrite ravel_unravel by auto.
  destruct (picks_not_nan _ _ p Hpk Hpin) as (x & Hx & Hnn).
  exists x. split; [done |]. split; [done |].
  assert (Hbound : ∀ q y,
    data a !! q = Some y → isnan y = false → q ∉ take k ps →
    fleb y x = true).
  { intros q y Hy Hyn Hq. by eapply (greedy_picks_bound (data a) ps k p q). }
  split.
  - intros q y Hy Hyn Hq. apply (Hbound q y Hy Hyn).
    intros Hin. apply Hq. rewrite <- fmap_take.
    by apply list_elem_of_fmap_2.
  - intros j idx' x' Hjk Hj Hx'. rewrite list_lookup_fmap in Hj.
    destruct (ps !! j) as [p' |] eqn:Hpj; [| discriminate].
    injection Hj as <-.
    assert (Hp'in : p' ∈ ps) by (by eapply list_elem_of_lookup_2).
    rewrite ravel_unravel in Hx' by auto.
    assert (Hg' : greedy_picks (data a) ps) by done.
    eapply (greedy_picks_bound (data a) ps j p' p x' x); try done.
    intros Hin. apply list_elem_of_lookup in Hin as [i Hi].
    apply lookup_take_Some in Hi as [Hi Hij].
    pose proof (picks_NoDup _ _ Hpk) as Hnd.
    pose proof (NoDup_lookup _ _ _ _ Hnd Hi Hpk'). lia.
Qed.

(** X3.  Whenever [simple_batch] returns, the store holds the caller's
    array untouched when its element type is not float, and otherwise the
    caller's array with [NaN] at the picks and every other entry as it was;
    in both cases the arrays the store held before, other than the
    caller's, are as they were. *)
Theorem simple_batch_frame (u : loc) (rs : rand_arg) (bs : scalar) (ru : bool)
    (w w' : world) (a : ndarray) (r : batch_result) :
  simple_batch u rs bs ru w = (Ok r, w') →
  arrays w !! u = Some a → wf_ndarray a →
  (∀ l, l ≠ u → is_Some (arrays w !! l) → arrays w' !! l = arrays w !! l)
  ∧ (nd_dtype a ≠ Float64 → arrays w' !! u = Some a)
  ∧ (nd_dtype a = Float64 →
     ∃ a', arrays w' !! u = Some a'
           ∧ shape a' = shape a ∧ length (data a') = length (data a)
           ∧ ∀ q, unravel_index (shape a) q
                  ∉ index_rows (result_indices r) →
                  data a' !! q = data a !! q).
Proof.
  intros Hsb Hu Hwf.
  destruct (simple_batch_inv u rs bs ru w w' a r Hsb Hu Hwf)
    as (z & u' & ps & best & -> & Hz & Hacc & Hg & Hlen & Hrows & -> & Hu'
        & Ha & _).
  assert (Hbest : index_rows (result_indices
            (if ru then WithUtilities best
                          (NdArray Float64 (length ps :: shape a)
                             (concat (snapshots (data a) ps)))
             else JustIndices best)) = unravel_index (shape a) <$> ps)
    by (by destruct ru).
  rewrite Hbest. clear Hbest Hrows.
  destruct (decide (nd_dtype a = Float64)) as [Hdt | Hdt].
  - subst u'. split; [| split; [done |]].
    + intros l Hl _. rewrite Ha. by rewrite lookup_insert_ne.
    + intros _. eexists. rewrite Ha, lookup_insert_eq.
      split; [done |]. split; [done |].
      split; [apply length_mask_positions |].
      intros q Hq. simpl. apply mask_positions_other.
      intros Hin. apply Hq. by apply list_elem_of_fmap_2.
  - split; [| split; [| done]].
    + intros l Hl [b Hb]. rewrite Ha. rewrite lookup_insert_ne; [done |].
      intros ->. congruence.
    + intros _. rewrite Ha. rewrite lookup_insert_ne; [done |].
      intros ->. congruence.
Qed.

(** X4.  When at least [batch_size] entries of an accepted array are not
    [NaN], [simple_batch] issues no warning and returns exactly
    [batch_size] selections, with a history of shape
    [(batch_size,) + utilities.shape]. *)
Theorem simple_batch_full_batch (u : loc) (rs : rand_arg) (z : Z) (ru : bool)
    (w : world) (a : ndarray) :
  arrays w !! u = Some a → wf_ndarray a → array_accepted a = true →
  (1 ≤ z)%Z → rs_valid rs w →
  (z ≤ Z.of_nat (count_not_nan (data a)))%Z →
  ∃ best hist w',
    simple_batch u rs (SInt z) ru w
    = (Ok (if ru then WithUtilities best hist else JustIndices best), w')
    ∧ warnings w' = warnings w
    ∧ length (index_rows best) = Z.to_nat z
    ∧ shape hist = Z.to_nat z :: shape a.
Proof.
  intros Hu Hwf Hacc Hz Hv Hm.
  destruct (simple_batch_spec u rs z ru w a Hu Hwf Hacc Hz Hv)
    as (u' & ps & best & w' & Hsb & Hrows & Hlen & Hpk & _ & _ & Hw & _).
  assert (Hps : length ps = Z.to_nat z) by lia.
  eexists best, _, w'. split; [exact Hsb |].
  split.
  { rewrite Hw.
    destruct (Z.ltb_spec (Z.of_nat (count_not_nan (data a))) z); [lia |].
    by rewrite app_nil_r. }
  split; [by rewrite Hrows, length_fmap |]. simpl. by rewrite Hps.
Qed.

(** X5.  Whenever [simple_batch] returns the history, its row [k] is the
    input with [NaN] at the picks of the batch positions before [k] and
    nothing else changed: row 0 is the input, and an entry that no earlier
    position picked is the input's. *)
Theorem simple_batch_history_rows (u : loc) (rs : rand_arg) (bs : scalar)
    (w w' : world) (a : ndarray) (best : indices) (hist : ndarray) :
  simple_batch u rs bs true w = (Ok (WithUtilities best hist), w') →
  arrays w !! u = Some a → wf_ndarray a →
  shape hist = length (index_rows best) :: shape a
  ∧ (0 < length (index_rows best) → nd_row hist 0 = data a)
  ∧ ∀ k q,
      k < length (index_rows best) →
      unravel_index (shape a) q ∉ take k (index_rows best) →
      nd_row hist k !! q = data a !! q.
Proof.
  intros Hsb Hu Hwf.
  destruct (simple_batch_inv u rs bs true w w' a _ Hsb Hu Hwf)
    as (z & u' & ps & best' & -> & Hz & Hacc & Hg & Hlen & Hrows & Hr & _).
  injection Hr as -> ->. rewrite Hrows, length_fmap.
  assert (Hrow : ∀ k, k < length ps →
    nd_row (NdArray Float64 (length ps :: shape a)
              (concat (snapshots (data a) ps))) k
    = mask_positions (data a) (take k ps)).
  { intros k Hk. unfold nd_row. simpl.
    apply take_drop_concat_row.
    - intros r' Hr'. rewrite <- Hwf. by eapply snapshots_length_each.
    - by apply snapshots_lookup. }
  split; [done |]. split.
  - intros Hpos. by rewrite Hrow.
  - intros k q Hk Hq. rewrite Hrow by done.
    apply mask_positions_other. intros Hin. apply Hq.
    rewrite <- fmap_take. by apply list_elem_of_fmap_2.
Qed.
End SimpleBatchExtras.

Lemma simple_batch_rejects_invalid_input_witness :
  ∃ e w',
    simple_batch 0 RsNone (SInt 0) true (world_with sample_utilities)
    = (Err e, w')
    ∧ arrays w' !! 0 = Some sample_utilities
    ∧ warnings w' = []
    ∧ (existsb isinf (data sample_utilities) = true → e = ValueError)
    ∧ (array_accepted sample_utilities = true → e = ValueError).
Proof.
  apply (simple_batch_rejects_invalid_input (H := lcg_source) 0 RsNone
           (SInt 0) true (world_with sample_utilities) sample_utilities);
    [reflexivity |].
  right. intros z Hz. injection Hz as <-. lia.
Defined.

Lemma simple_batch_picks_greedily_witness :
  ∃ r w',
    simple_batch 0 (RsSeed 7) (SInt 3) true (world_with sample_utilities)
    = (Ok r, w')
    ∧ ∀ k idx,
        index_rows (result_indices r) !! k = Some idx →
        ∃ x,
          data sample_utilities !! ravel_multi_index [5] idx = Some x
          ∧ isnan x = false
          ∧ (∀ q y,
               data sample_utilities !! q = Some y → isnan y = false →
               unravel_index [5] q ∉ take k (index_rows (result_indices r)) →
               fleb y x = true)
          ∧ (∀ j idx' x',
               j ≤ k → index_rows (result_indices r) !! j = Some idx' →
               data sample_utilities !! ravel_multi_index [5] idx' = Some x' →
               fleb x x' = true).
Proof.
  destruct (simple_batch_spec (H := lcg_source) 0 (RsSeed 7) 3 true
              (world_with sample_utilities) sample_utilities
              eq_refl eq_refl eq_refl ltac:(lia) I)
    as (u' & ps & best & w' & Hsb & _).
  eexists _, w'. split; [exact Hsb |].
  apply (simple_batch_picks_greedily (H := lcg_source) 0 (RsSeed 7) (SInt 3)
           true (world_with sample_utilities) w' sample_utilities _ Hsb);
    reflexivity.
Defined.

Lemma simple_batch_frame_witness :
  ∃ r w',
    simple_batch 0 (RsSeed 7) (SInt 3) true (world_with sample_utilities)
    = (Ok r, w')
    ∧ (∀ l, l ≠ 0 → is_Some (arrays (world_with sample_utilities) !! l) →
         arrays w' !! l = arrays (world_with sample_utilities) !! l)
    ∧ (Float64 ≠ Float64 → arrays w' !! 0 = Some sample_utilities)
    ∧ (Float64 = Float64 →
       ∃ a', arrays w' !! 0 = Some a'
             ∧ shape a' = [5] ∧ length (data a') = 5
             ∧ ∀ q, unravel_index [5] q ∉ index_rows (result_indices r) →
                    data a' !! q = data sample_utilities !! q).
Proof.
  destruct (simple_batch_spec (H := lcg_source) 0 (RsSeed 7) 3 true
              (world_with sample_utilities) sample_utilities
              eq_refl eq_refl eq_refl ltac:(lia) I)
    as (u' & ps & best & w' & Hsb & _).
  eexists _, w'. split; [exact Hsb |].
  apply (simple_batch_frame (H := lcg_source) 0 (RsSeed 7) (SInt 3)
           true (world_with sample_utilities) w' sample_utilities _ Hsb);
    reflexivity.
Defined.

Lemma simple_batch_full_batch_witness :
  ∃ best hist w',
    simple_batch 0 (RsSeed 7) (SInt 3) true (world_with sample_utilities)
    = (Ok (WithUtilities best hist), w')
    ∧ warnings w' = []
    ∧ length (index_rows best) = 3
    ∧ shape hist = [3; 5].
Proof.
  apply (simple_batch_full_batch (H := lcg_source) 0 (RsSeed 7) 3 true
           (world_with sample_utilities) sample_utilities);
    [reflexivity | reflexivity | reflexivity | lia | exact I | ].
  vm_compute. discriminate.
Defined.

Lemma simple_batch_history_rows_witness :
  ∃ best hist w',
    simple_batch 0 (RsSeed 7) (SInt 3) true (world_with sample_utilities_2d)
    = (Ok (WithUtilities best hist), w')
    ∧ shape hist = length (index_rows best) :: [2; 3]
    ∧ (0 < length (index_rows best) →
       nd_row hist 0 = data sample_utilities_2d)
    ∧ ∀ k q,
        k < length (index_rows best) →
        unravel_index [2; 3] q ∉ take k (index_rows best) →
        nd_row hist k !! q = data sample_utilities_2d !! q.
Proof.
  destruct (simple_batch_spec (H := lcg_source) 0 (RsSeed 7) 3 true
              (world_with sample_utilities_2d) sample_utilities_2d
              eq_refl eq_refl eq_refl ltac:(lia) I)
    as (u' & ps & best & w' & Hsb & _).
  eexists best, _, w'. split; [exact Hsb |].
  apply (simple_batch_history_rows (H := lcg_source) 0 (RsSeed 7) (SInt 3)
           (world_with sample_utilities_2d) w' sample_utilities_2d _ _ Hsb);
    reflexivity.
Defined.

(** ** [ExpectedErrorReduction.query], whenever it returns *)

Lemma check_array_2d_inv {S} (X X' : matrix) (s s' : S) :
  check_array_2d X s = (Ok X', s') →
  X' = X ∧ s' = s ∧ X ≠ []
  ∧ Forall (λ r, length r = ncols X) X ∧ 0 < ncols X.
Proof.
  unfold check_array_2d, ncols. destruct X as [| r X]; [discriminate |].
  destruct (0 <? length r) eqn:Hr; [| discriminate].
  destruct (forallb _ (r :: X)) eqn:Hall; [| discriminate].
  simpl. intros [= <- <-]. repeat split; [done | | by apply Nat.ltb_lt].
  apply Forall_forall. intros r' Hr'.
  rewrite forallb_forall in Hall.
  apply Nat.eqb_eq, Hall. by apply list_elem_of_In.
Qed.

Lemma check_array_1d_inv {S} (y y' : list float) (s s' : S) :
  check_array_1d y s = (Ok y', s') → y' = y ∧ s' = s ∧ y ≠ [].
Proof. destruct y; [discriminate |]. by intros [= <- <-]. Qed.

Lemma check_array_2d_any {S S2} (X X' : matrix) (s s' : S) (s2 : S2) :
  check_array_2d X s = (Ok X', s') → check_array_2d X s2 = (Ok X, s2).
Proof.
  unfold check_array_2d. destruct X as [| r X]; [discriminate |].
  by destruct (_ && _).
Qed.

Lemma check_array_1d_any {S S2} (y y' : list float) (s s' : S) (s2 : S2) :
  check_array_1d y s = (Ok y', s') → check_array_1d y s2 = (Ok y, s2).
Proof. by destruct y. Qed.

Section QueryInversion.
Context `{RandomSource} `{Classifier} `{FloatLog}.
Import ExpectedErrorReduction.

Variable check_classifier_params :
  list float → float → option matrix → option exn.

Lemma query_inv (X_cand X : matrix) (y : list float) (ru : bool) (self : t)
    (w : world) (r : query_result Q) (self' : t) (w' : world) :
  query check_classifier_params X_cand X y ru (self, w)
  = (Ok r, (self', w')) →
  ∃ est rs w1 us i w2,
    clf self = ClassFrequencyEstimator est
    ∧ check_classifier_params (classes self) (missing_label self) (C self)
      = None
    ∧ array_equal (est_classes est) (classes self) = true
    ∧ method self ∈ [EMR; CSL; LOG_LOSS]
    ∧ check_random_state (random_state self) w = (Ok rs, w1)
    ∧ self' = set_random_state rs (with_default_C self)
    ∧ X_cand ≠ [] ∧ X ≠ [] ∧ y ≠ []
    ∧ expected_error_reduction est X_cand X y (classes self) (C self')
        (method self) w1 = (Ok us, w2)
    ∧ rand_argmax_flat (Fin <$> us) rs w2 = (Ok i, w')
    ∧ r = (if ru then QueryWithUtilities [i] [us] else QueryIndices [i])
    ∧ ∀ s : t * world,
        check_array_2d X_cand s = (Ok X_cand, s)
        ∧ check_array_2d X s = (Ok X, s)
        ∧ check_array_1d y s = (Ok y, s).
Proof.
  unfold query, Meth. rewrite bind_unfold. unfold get_self at 1.
  cbn [fst snd].
  destruct (clf self) as [| est] eqn:Hclf; [discriminate |].
  destruct (check_classifier_params _ _ _) as [e |] eqn:Hccp;
    [discriminate |].
  destruct (array_equal _ _) eqn:Heq; [| discriminate]. cbn [negb].
  rewrite bind_unfold.
  set (self1 := with_default_C self).
  assert (HC : ∀ (B : Type) (k : unit → ST (t * world) B),
    match (match C self with
           | Some _ => mret ()
           | None =>
               modify_self
                 (set_C (Some (zero_one_cost (length (classes self)))))
           end) (self, w) with
    | (Ok a, s') => k a s'
    | (Err e, s') => (Err e, s')
    end = k tt (self1, w)).
  { intros B k. subst self1. unfold with_default_C. by destruct (C self). }
  rewrite HC. clear HC.
  destruct (bool_decide (method self ∈ [EMR; CSL; LOG_LOSS])) eqn:Hm;
    [| discriminate].
  apply bool_decide_eq_true in Hm. cbn [negb].
  rewrite bind_unfold. unfold lift at 1. cbn [fst snd].
  destruct (check_random_state (random_state self) w) as [[rs | e] w1]
    eqn:Hrs; [| discriminate].
  rewrite bind_unfold. unfold modify_self at 1. cbn [fst snd].
  rewrite bind_unfold.
  destruct (check_array_2d X_cand _) as [[Xc' | e] s1] eqn:HXc;
    [| discriminate].
  pose proof (λ s : t * world, check_array_2d_any _ _ _ _ s HXc) as HXc'.
  apply check_array_2d_inv in HXc as (-> & -> & HXc & _).
  rewrite bind_unfold.
  destruct (check_array_2d X _) as [[X' | e] s1] eqn:HX; [| discriminate].
  pose proof (λ s : t * world, check_array_2d_any _ _ _ _ s HX) as HX'.
  apply check_array_2d_inv in HX as (-> & -> & HX & _).
  rewrite bind_unfold.
  destruct (check_array_1d y _) as [[y' | e] s1] eqn:Hy; [| discriminate].
  pose proof (λ s : t * world, check_array_1d_any _ _ _ _ s Hy) as Hy'.
  apply check_array_1d_inv in Hy as (-> & -> & Hy).
  rewrite bind_unfold. unfold get_self at 1. cbn [fst snd].
  rewrite bind_unfold. unfold lift at 1. cbn [fst snd].
  set (self2 := set_random_state rs self1).
  destruct (expected_error_reduction est X_cand X y (classes self2)
              (C self2) (method self2) w1) as [[us | e] w2] eqn:Heer;
    [| discriminate].
  rewrite bind_unfold. unfold lift at 1. cbn [fst snd].
  unfold rand_argmax_axis1. cbn [mapM]. rewrite !bind_unfold.
  destruct (rand_argmax_flat (Fin <$> us) (random_state self2) w2)
    as [[i | e] w3] eqn:Hra; [| discriminate].
  unfold mret, ST_ret. intros Hq. unfold mbind, ST_bind in Hq.
  assert (Hcl : classes self2 = classes self)
    by (subst self2 self1; unfold with_default_C; by destruct (C self)).
  assert (Hme : method self2 = method self)
    by (subst self2 self1; unfold with_default_C; by destruct (C self)).
  rewrite Hcl, Hme in Heer.
  assert (Hself : self' = self2) by congruence.
  assert (Hw' : w' = w3) by congruence.
  assert (Hr : r = if ru then QueryWithUtilities [i] [us]
                   else QueryIndices [i]) by congruence.
  subst self' w' r.
  exists est, rs, w1, us, i, w2.
  do 12 (split; [done |]). intros s. by rewrite HXc', HX', Hy'.
Qed.
End QueryInversion.

Lemma length_bind_const {A B} (f : A → list B) (l : list A) (n : nat) :
  (∀ x, length (f x) = n) → length (l ≫= f) = length l * n.
Proof.
  intros Hf. induction l as [| x l IH]; [done |].
  rewrite bind_cons, length_app, Hf, IH. simpl. lia.
Qed.

Section ExpectedErrorExtras.
Context `{RandomSource} `{Classifier} `{FloatLog}.
Import ExpectedErrorReduction.

(** X6.  Whenever [expected_error_reduction] returns, it has fitted the
    model exactly [1 + n_candidates * n_classes] times, it answers one
    utility per candidate, and it has touched nothing of the world but the
    log of fits. *)
Theorem expected_error_reduction_fit_count (clf : estimator)
    (X_cand X : matrix) (y classes : list float) (C : option matrix)
    (method : string) (w w' : world) (utilities : list Q) :
  expected_error_reduction clf X_cand X y classes C method w
  = (Ok utilities, w') →
  length utilities = length X_cand
  ∧ length (fit_log w')
    = length (fit_log w) + 1 + length X_cand * length classes
  ∧ warnings w' = warnings w ∧ arrays w' = arrays w ∧ rngs w' = rngs w
  ∧ global_rng w' = global_rng w.
Proof.
  intros Hq.
  destruct (expected_error_reduction_structure _ _ _ _ _ _ _ _ _ _ Hq)
    as (Hus & Hfit & Hw & Hr & Hg & Ha).
  split.
  { apply Forall2_length in Hus.
    rewrite length_zip_with, length_seq, Nat.min_id in Hus. done. }
  split; [| by repeat split].
  rewrite Hfit, length_app. simpl.
  rewrite (length_bind_const _ _ (length classes)); [lia |].
  intros x. unfold hypothesis_fits. by rewrite length_fmap, length_seq.
Qed.

(** A draw from a generator object: the position answered is the tied
    position that the draw designates, and the object is left advanced by
    that one draw. *)
Lemma rand_argmax_flat_object (d : list float) (l : loc) (w w' : world)
    (i : nat) (st : RandomState) :
  rand_argmax_flat d (RsObj l) w = (Ok i, w') → rngs w !! l = Some st →
  let n := length (argmax_ties d) in
  argmax_ties d !! ((rs_randint st n).1 mod n) = Some i
  ∧ rngs w' = <[l := (rs_randint st n).2]> (rngs w)
  ∧ arrays w' = arrays w ∧ warnings w' = warnings w
  ∧ fit_log w' = fit_log w.
Proof.
  unfold rand_argmax_flat. intros Hr Hst.
  destruct (argmax_ties d) as [| p0 ties] eqn:Hties; [discriminate |].
  unfold with_rng in Hr. rewrite Hst in Hr.
  destruct (rs_randint st (length (p0 :: ties))) as [k st'] eqn:Hk.
  injection Hr as <- <-. cbv zeta. cbn [fst snd].
  split; [| done].
  assert (Hlt : k mod length (p0 :: ties) < length (p0 :: ties))
    by (apply Nat.mod_upper_bound; simpl; lia).
  by destruct (nth_lookup_or_length (p0 :: ties)
                 (k mod length (p0 :: ties)) p0) as [Hn | ?]; [| lia].
Qed.
End ExpectedErrorExtras.

Section QueryExtras.
Context `{RandomSource} `{Classifier} `{FloatLog}.
Import ExpectedErrorReduction.

Variable check_classifier_params :
  list float → float → option matrix → option exn.

(** X7.  Whenever [query] returns, it answers exactly one index, into
    the candidates, with one utility per candidate, and the utility at the
    index is at least every other. *)
Theorem query_returns_a_maximum (X_cand X : matrix) (y : list float)
    (ru : bool) (self self' : t) (w w' : world) (r : query_result Q) :
  query check_classifier_params X_cand X y ru (self, w)
  = (Ok r, (self', w')) →
  ∃ i utilities ui,
    r = (if ru then QueryWithUtilities [i] [utilities]
         else QueryIndices [i])
    ∧ length utilities = length X_cand
    ∧ utilities !! i = Some ui
    ∧ ∀ q uq, utilities !! q = Some uq → (uq <= ui)%Q.
Proof.
  intros Hq.
  destruct (query_inv _ _ _ _ _ _ _ _ _ _ Hq)
    as (est & rs & w1 & us & i & w2 & _ & _ & _ & _ & _ & _ & _ & _ & _
        & Heer & Hra & -> & _).
  assert (Hlen : length us = length X_cand).
  { apply expected_error_reduction_structure in Heer as [Hus _].
    apply Forall2_length in Hus.
    by rewrite length_zip_with, length_seq, Nat.min_id in Hus. }
  apply rand_argmax_flat_inv in Hra as [Hi _].
  destruct (argmax_ties_spec _ _ Hi) as (x & Hx & _).
  rewrite list_lookup_fmap in Hx.
  destruct (us !! i) as [ui |] eqn:Hui; [| discriminate].
  injection Hx as <-.
  exists i, us, ui. split; [done |]. split; [done |]. split; [done |].
  intros q uq Hq'. apply Qle_bool_iff.
  change (fleb (Fin uq) (Fin ui) = true).
  apply (argmax_ties_max (Fin <$> us) i q); [done | | | done].
  - by rewrite list_lookup_fmap, Hui.
  - by rewrite list_lookup_fmap, Hq'.
Qed.

(** X8.  Whenever [query] returns, the object has changed in two
    attributes at most: a cost matrix that was [None] is now the zero-one
    cost of the classes, and the random state is now a generator object:
    for an integer seed an object new in the store, which the call leaves
    advanced by the one draw of the tie-break; for [None] the object of
    NumPy's global generator; a random state that was a generator object
    already is the same object.  The classifier, the classes, the method
    and the missing label are as they were. *)
Theorem query_updates_object (X_cand X : matrix) (y : list float)
    (ru : bool) (self self' : t) (w w' : world) (r : query_result Q) :
  query check_classifier_params X_cand X y ru (self, w)
  = (Ok r, (self', w')) →
  clf self' = clf self ∧ classes self' = classes self
  ∧ method self' = method self ∧ missing_label self' = missing_label self
  ∧ C self'
    = Some (default (zero_one_cost (length (classes self))) (C self))
  ∧ match random_state self with
    | RsSeed s =>
        ∃ l utilities,
          random_state self' = RsObj l ∧ rngs w !! l = None
          ∧ result_utilities_agree r utilities
          ∧ rngs w' !! l
            = Some (rs_randint (rs_seed s)
                      (length (argmax_ties (Fin <$> utilities)))).2
    | RsNone | RsGlobal => random_state self' = RsGlobal
    | RsObj l => random_state self' = RsObj l
    end.
Proof.
  intros Hq.
  destruct (query_inv _ _ _ _ _ _ _ _ _ _ Hq)
    as (est & rs & w1 & us & i & w2 & _ & _ & _ & _ & Hrs & -> & _ & _ & _
        & Heer & Hra & -> & _).
  unfold with_default_C.
  split; [by destruct (C self) |]. split; [by destruct (C self) |].
  split; [by destruct (C self) |]. split; [by destruct (C self) |].
  split; [destruct (C self) eqn:HC; simpl; by rewrite ?HC |].
  unfold check_random_state in Hrs.
  destruct (random_state self) as [| s | l0 |] eqn:Hself.
  - injection Hrs as <- <-. by destruct (C self).
  - injection Hrs as <- <-.
    set (l := fresh (dom (rngs w))) in *.
    exists l, us.
    split; [by destruct (C self) |].
    split; [apply not_elem_of_dom, is_fresh |].
    split; [by destruct ru |].
    apply expected_error_reduction_structure in Heer
      as (_ & _ & _ & Hr2 & _).
    apply (rand_argmax_flat_object _ _ _ _ _ (rs_seed s)) in Hra
      as (_ & Hr3 & _).
    + rewrite Hr3. by rewrite lookup_insert_eq.
    + rewrite Hr2. simpl. by rewrite lookup_insert_eq.
  - injection Hrs as <- <-. by destruct (C self).
  - injection Hrs as <- <-. by destruct (C self).
Qed.
End QueryExtras.

Lemma expected_error_reduction_fit_count_witness :
  ∃ utilities w',
    expected_error_reduction (H0 := frequency_classifier)
      ([of_int 0; of_int 1], NaN) [[1%Q]; [2%Q]] [[0%Q]] [of_int 1]
      [of_int 0; of_int 1] None "emr" empty_world
    = (Ok utilities, w')
    ∧ length utilities = 2
    ∧ length (fit_log w') = length (fit_log empty_world) + 1 + 2 * 2
    ∧ warnings w' = warnings empty_world ∧ arrays w' = arrays empty_world
    ∧ rngs w' = rngs empty_world
    ∧ global_rng w' = global_rng empty_world.
Proof.
  assert (Hok :
    is_ok (expected_error_reduction (H0 := frequency_classifier)
             ([of_int 0; of_int 1], NaN) [[1%Q]; [2%Q]] [[0%Q]] [of_int 1]
             [of_int 0; of_int 1] None "emr" empty_world).1 = true)
    by (vm_compute; reflexivity).
  destruct (expected_error_reduction (H0 := frequency_classifier)
              ([of_int 0; of_int 1], NaN) [[1%Q]; [2%Q]] [[0%Q]] [of_int 1]
              [of_int 0; of_int 1] None "emr" empty_world)
    as [[us | e] w'] eqn:Hq; [| discriminate Hok].
  exists us, w'. split; [reflexivity |].
  apply (expected_error_reduction_fit_count (H0 := frequency_classifier)
           ([of_int 0; of_int 1], NaN) [[1%Q]; [2%Q]] [[0%Q]] [of_int 1]
           [of_int 0; of_int 1] None "emr" empty_world w' us Hq).
Defined.

Lemma query_returns_a_maximum_witness :
  ∃ r i utilities ui,
    (ExpectedErrorReduction.query (H0 := frequency_classifier)
       params_accepted [[1%Q]; [2%Q]] [[0%Q]] [of_int 1] true
       (sample_eer [of_int 0; of_int 1] "emr" 4, empty_world)).1 = Ok r
    ∧ r = QueryWithUtilities [i] [utilities]
    ∧ length utilities = 2
    ∧ utilities !! i = Some ui
    ∧ ∀ q uq, utilities !! q = Some uq → (uq <= ui)%Q.
Proof.
  assert (Hok :
    is_ok (ExpectedErrorReduction.query (H0 := frequency_classifier)
             params_accepted [[1%Q]; [2%Q]] [[0%Q]] [of_int 1] true
             (sample_eer [of_int 0; of_int 1] "emr" 4, empty_world)).1
    = true)
    by (vm_compute; reflexivity).
  destruct (ExpectedErrorReduction.query (H0 := frequency_classifier)
              params_accepted [[1%Q]; [2%Q]] [[0%Q]] [of_int 1] true
              (sample_eer [of_int 0; of_int 1] "emr" 4, empty_world))
    as [[r | e] [self' w']] eqn:Hq; [| discriminate Hok].
  exists r. 
  destruct (query_returns_a_maximum (H0 := frequency_classifier)
              params_accepted [[1%Q]; [2%Q]] [[0%Q]] [of_int 1] true
              (sample_eer [of_int 0; of_int 1] "emr" 4) self' empty_world w'
              r Hq)
    as (i & us & ui & Hr & Hrest).
  exists i, us, ui. split; [reflexivity |]. split; [exact Hr | exact Hrest].
Defined.

Lemma query_updates_object_witness :
  ∃ r self' w',
    ExpectedErrorReduction.query (H0 := frequency_classifier)
      params_accepted [[1%Q]; [2%Q]] [[0%Q]] [of_int 1] true
      (sample_eer [of_int 0; of_int 1] "emr" 4, empty_world)
    = (Ok r, (self', w'))
    ∧ ExpectedErrorReduction.C self' = Some (zero_one_cost 2)
    ∧ ∃ l, ExpectedErrorReduction.random_state self' = RsObj l
           ∧ rngs empty_world !! l = None ∧ is_Some (rngs w' !! l).
Proof.
  assert (Hok :
    is_ok (ExpectedErrorReduction.query (H0 := frequency_classifier)
             params_accepted [[1%Q]; [2%Q]] [[0%Q]] [of_int 1] true
             (sample_eer [of_int 0; of_int 1] "emr" 4, empty_world)).1
    = true)
    by (vm_compute; reflexivity).
  destruct (ExpectedErrorReduction.query (H0 := frequency_classifier)
              params_accepted [[1%Q]; [2%Q]] [[0%Q]] [of_int 1] true
              (sample_eer [of_int 0; of_int 1] "emr" 4, empty_world))
    as [[r | e] [self' w']] eqn:Hq; [| discriminate Hok].
  exists r, self', w'. split; [reflexivity |].
  destruct (query_updates_object (H0 := frequency_classifier)
              params_accepted [[1%Q]; [2%Q]] [[0%Q]] [of_int 1] true
              (sample_eer [of_int 0; of_int 1] "emr" 4) self' empty_world w'
              r Hq)
    as (_ & _ & _ & _ & HC & l & us & Hl & Hfresh & _ & Hw).
  split; [exact HC |].
  exists l. split; [exact Hl |]. split; [exact Hfresh |].
  rewrite Hw. by eexists.
Defined.

(** ** [expected_error_reduction]: an unknown method, and nothing to do *)

Section ExpectedErrorEdges.
Context `{RandomSource} `{Classifier} `{FloatLog}.

Lemma costs_of_unknown (method : string) (clf : estimator) (m : fitted)
    (X_cand X : matrix) (y classes : list float) (C : matrix) :
  method ∉ [EMR; CSL; LOG_LOSS] →
  costs_of method clf m X_cand X y classes C = Err ValueError.
Proof.
  intros Hm. unfold costs_of.
  destruct (String.eqb_spec method "emr") as [-> | _].
  { exfalso. apply Hm. unfold EMR. set_solver. }
  destruct (String.eqb_spec method "csl") as [-> | _].
  { exfalso. apply Hm. unfold CSL. set_solver. }
  destruct (String.eqb_spec method "log_loss") as [-> | _]; [| done].
  exfalso. apply Hm. unfold LOG_LOSS. set_solver.
Qed.

Lemma features_guard (X_cand X : matrix) :
  (X ≠ [] → X_cand ≠ [] → ncols X = ncols X_cand) →
  (0 <? nrows X) && (0 <? nrows X_cand) && negb (ncols X =? ncols X_cand)
  = false.
Proof.
  intros Hg. unfold nrows.
  destruct X as [| r X]; [done |].
  destruct X_cand as [| c X_cand]; [done |].
  rewrite Hg by done. rewrite Nat.eqb_refl. done.
Qed.

Lemma cand_loop_no_classes (clf : estimator) (X_cand X : matrix)
    (y : list float) (C : matrix) (method : string) (P : matrix)
    (cands : list (nat * list Q)) (n : nat) (w : world) :
  cand_loop clf X_cand X y [] C method P cands (replicate n 0%Q) [] w
  = (Ok (replicate n 0%Q), w).
Proof.
  induction cands as [| [i x] cands IH]; [done |].
  simpl. rewrite bind_unfold. simpl.
  change (Qsum []) with 0%Q. by rewrite insert_replicate.
Qed.

Lemma class_loop_unknown (clf : estimator) (X_cand X : matrix)
    (y classes : list float) (C : matrix) (method : string) (P : matrix)
    (i : nat) (x : list Q) (yi : nat) (yis : list nat) (epc : list Q)
    (w : world) :
  method ∉ [EMR; CSL; LOG_LOSS] →
  class_loop clf X_cand X y classes C method P i x (yi :: yis) epc w
  = (Err ValueError,
     add_fit (FitEvent (X ++ [x]) (y ++ [index_label yi])) w).
Proof.
  intros Hm. cbn [class_loop]. rewrite bind_unfold. unfold fit.
  cbv beta iota. rewrite bind_unfold. by rewrite costs_of_unknown.
Qed.

(** X9.  The method is looked at only inside the loops, after the model
    has been refitted for the first hypothesis: with a candidate and a class
    to go through, an unknown method makes [expected_error_reduction] raise
    [ValueError] after exactly two fits, the one on the data and the one
    for the first candidate with the first class position. *)
Theorem expected_error_reduction_unknown_method (clf : estimator)
    (x0 : list Q) (Xs X : matrix) (y classes : list float)
    (C : option matrix) (method : string) (w : world) :
  method ∉ [EMR; CSL; LOG_LOSS] →
  (X ≠ [] → ncols X = length x0) →
  classes ≠ [] →
  ∃ w',
    expected_error_reduction clf (x0 :: Xs) X y classes C method w
    = (Err ValueError, w')
    ∧ fit_log w'
      = fit_log w
        ++ [FitEvent X y; FitEvent (X ++ [x0]) (y ++ [index_label 0])]
    ∧ warnings w' = warnings w ∧ arrays w' = arrays w ∧ rngs w' = rngs w.
Proof.
  intros Hm Hg Hc.
  destruct classes as [| c classes]; [done |].
  eexists. split.
  - unfold expected_error_reduction.
    rewrite features_guard by (intros HX _; by apply Hg).
    rewrite bind_unfold. unfold fit at 1. cbv beta iota.
    rewrite bind_unfold. simpl zip. cbn [cand_loop]. rewrite bind_unfold.
    change (seq 0 (length (c :: classes)))
      with (0 :: seq 1 (length classes)).
    rewrite class_loop_unknown by done. reflexivity.
  - simpl. rewrite <- app_assoc. done.
Qed.

(** X10.  Without a candidate, or without a class, the loops have nothing
    to go through: [expected_error_reduction] fits the model once, on the
    data, and answers the utility 0 for every candidate, whatever the
    method, a known one or not. *)
Theorem expected_error_reduction_nothing_to_do (clf : estimator)
    (X_cand X : matrix) (y classes : list float) (C : option matrix)
    (method : string) (w : world) :
  (X ≠ [] → X_cand ≠ [] → ncols X = ncols X_cand) →
  X_cand = [] ∨ classes = [] →
  expected_error_reduction clf X_cand X y classes C method w
  = (Ok (replicate (length X_cand) 0%Q), add_fit (FitEvent X y) w).
Proof.
  intros Hg Hempty.
  unfold expected_error_reduction. rewrite features_guard by done.
  rewrite bind_unfold. unfold fit. cbv beta iota.
  rewrite bind_unfold.
  destruct Hempty as [-> | ->].
  - reflexivity.
  - simpl length at 2. change (replicate 0 0%Q) with (@nil Q).
    rewrite cand_loop_no_classes.
    unfold mret, ST_ret. by rewrite fmap_replicate.
Qed.
End ExpectedErrorEdges.

Lemma expected_error_reduction_unknown_method_witness :
  ∃ w',
    expected_error_reduction (H0 := frequency_classifier)
      ([of_int 0; of_int 1], NaN) [[1%Q]; [2%Q]] [[0%Q]] [of_int 1]
      [of_int 0; of_int 1] None "entropy" empty_world
    = (Err ValueError, w')
    ∧ fit_log w'
      = fit_log empty_world
        ++ [FitEvent [[0%Q]] [of_int 1];
            FitEvent ([[0%Q]] ++ [[1%Q]]) ([of_int 1] ++ [index_label 0])]
    ∧ warnings w' = warnings empty_world ∧ arrays w' = arrays empty_world
    ∧ rngs w' = rngs empty_world.
Proof.
  apply (expected_error_reduction_unknown_method
           (H0 := frequency_classifier) ([of_int 0; of_int 1], NaN)
           [1%Q] [[2%Q]] [[0%Q]] [of_int 1] [of_int 0; of_int 1] None
           "entropy" empty_world).
  - intros Hin. repeat (apply elem_of_cons in Hin as [Hin | Hin];
      [discriminate Hin |]). by apply elem_of_nil in Hin.
  - reflexivity.
  - discriminate.
Defined.

Lemma expected_error_reduction_nothing_to_do_witness :
  expected_error_reduction (H0 := frequency_classifier)
    ([], NaN) [[1%Q]; [2%Q]] [[0%Q]] [NaN] [] None "entropy" empty_world
  = (Ok (replicate 2 0%Q), add_fit (FitEvent [[0%Q]] [NaN]) empty_world).
Proof.
  apply (expected_error_reduction_nothing_to_do
           (H0 := frequency_classifier) ([], NaN) [[1%Q]; [2%Q]] [[0%Q]]
           [NaN] [] None "entropy" empty_world).
  - reflexivity.
  - by right.
Defined.

(** ** [SubSamplingWrapper.query]: configuration, sub-sample and translation *)

Lemma Qceiling_fraction (n : nat) (q : Q) :
  0 < n → (0 < q)%Q → (q <= 1)%Q →
  (1 ≤ Qceiling (inject_Z (Z.of_nat n) * q) ≤ Z.of_nat n)%Z.
Proof.
  intros Hn Hq0 Hq1.
  assert (Hn' : (0 < inject_Z (Z.of_nat n))%Q).
  { change 0%Q with (inject_Z 0). rewrite <- Zlt_Qlt. lia. }
  split.
  - assert (Hpos : (0 < inject_Z (Z.of_nat n) * q)%Q)
      by (by apply Qmult_lt_0_compat).
    pose proof (Qle_ceiling (inject_Z (Z.of_nat n) * q)) as Hc.
    assert (Hlt : (inject_Z 0 < inject_Z (Qceiling (inject_Z (Z.of_nat n) * q)))%Q)
      by (eapply Qlt_le_trans; [exact Hpos | exact Hc]).
    rewrite <- Zlt_Qlt in Hlt. lia.
  - rewrite <- (Qceiling_Z (Z.of_nat n)) at 2.
    apply Qceiling_resp_le.
    rewrite <- (Qmult_1_r (inject_Z (Z.of_nat n))) at 2.
    apply Qmult_le_l; done.
Qed.


Section WrapperExtras.
Context `{RandomSource}.
Import SubSamplingWrapper.

Lemma check_max_candidates_accepts (mc : scalar) (w : world) :
  accepted_max_candidates mc → check_max_candidates mc w = (Ok tt, w).
Proof.
  destruct mc as [z | q |]; simpl; [| | done].
  - intros Hz. rewrite bind_unfold. unfold check_scalar_int.
    destruct (Z.ltb_spec z 1); [lia | done].
  - intros [H0 H1]. rewrite bind_unfold. unfold check_scalar_float.
    destruct (Qle_bool q 0) eqn:Hq0.
    { apply Qle_bool_iff in Hq0. by apply Qlt_not_le in H0. }
    apply Qle_bool_iff in H1. by rewrite H1.
Qed.

Lemma check_max_candidates_inv (mc : scalar) (u : unit) (w w' : world) :
  check_max_candidates mc w = (Ok u, w') → accepted_max_candidates mc.
Proof.
  destruct mc as [z | q |]; simpl; [| | done].
  - rewrite bind_unfold. unfold check_scalar_int.
    destruct (Z.ltb_spec z 1); [done | intros _; lia].
  - rewrite bind_unfold. unfold check_scalar_float.
    destruct (Qle_bool q 0) eqn:Hq0; [done |].
    destruct (Qle_bool q 1) eqn:Hq1; [| done].
    intros _. split; [| by apply Qle_bool_iff].
    apply Qnot_le_lt. intros Hle. apply Qle_bool_iff in Hle. congruence.
Qed.

Lemma check_max_candidates_rejects (mc : scalar) (w : world) :
  out_of_range_max_candidates mc →
  check_max_candidates mc w = (Err ValueError, w).
Proof.
  destruct mc as [z | q |]; simpl; [| | done].
  - intros Hz. rewrite bind_unfold. unfold check_scalar_int.
    destruct (Z.ltb_spec z 1); [done | lia].
  - intros Hq. rewrite bind_unfold. unfold check_scalar_float.
    destruct (Qle_bool q 0) eqn:Hq0; [done |].
    destruct (Qle_bool q 1) eqn:Hq1; [| done].
    destruct Hq as [Hq | Hq].
    + apply Qle_bool_iff in Hq. congruence.
    + apply Qle_bool_iff in Hq1. by apply Qlt_not_le in Hq.
Qed.

Variable query_kwargs : Type.
Variable validate_data :
  t query_kwargs → matrix → list float → candidates → scalar → bool
  → M (matrix * list float * candidates * nat * bool).

(** A call that returns has passed the check of [max_candidates]. *)
Lemma query_ok_max_candidates (self : t query_kwargs) (X : matrix)
    (y : list float) (cands : candidates) (bs : scalar) (ru : bool)
    (kw : query_kwargs) (w w1 w' : world)
    (v : matrix * list float * candidates * nat * bool)
    (r : query_result float) :
  validate_data self X y cands bs ru w = (Ok v, w1) →
  query _ validate_data self X y cands bs ru kw w = (Ok r, w') →
  ∃ inner,
    query_strategy _ self = SingleAnnotatorPoolQueryStrategy _ inner
    ∧ accepted_max_candidates (max_candidates _ self).
Proof.
  intros Hval Hq. destruct v as [[[[X' y'] cands'] bs'] ru'].
  unfold query in Hq. rewrite (bind_ok _ _ _ _ _ Hval) in Hq.
  cbv beta iota in Hq.
  destruct (query_strategy _ self) as [| inner]; [discriminate |].
  exists inner. split; [done |].
  rewrite bind_unfold in Hq.
  destruct (check_max_candidates (max_candidates _ self) w1)
    as [[u | e] w0] eqn:Hc; [| discriminate].
  by eapply check_max_candidates_inv.
Qed.

(** X11.  Once the arguments are validated, a wrapped object that fails
    the instance test of line 113, or a [max_candidates] that is neither an
    integer nor a float, makes the body of [query] raise [TypeError] at
    once: the world is as the validation left it, no generator has been
    made and nothing drawn.  (The decorator [match_signature] of the
    method is not among the sources; what it does with an object that has
    no [query] attribute is outside this statement.) *)
Theorem query_rejects_wrong_types (self : t query_kwargs) (X : matrix)
    (y : list float) (cands : candidates) (bs : scalar) (ru : bool)
    (kw : query_kwargs) (w w1 : world)
    (v : matrix * list float * candidates * nat * bool) :
  validate_data self X y cands bs ru w = (Ok v, w1) →
  query_strategy _ self = NotAQueryStrategy _
  ∨ max_candidates _ self = SOther →
  query _ validate_data self X y cands bs ru kw w = (Err TypeError, w1).
Proof.
  intros Hval Hbad. destruct v as [[[[X' y'] cands'] bs'] ru'].
  unfold query. rewrite (bind_ok _ _ _ _ _ Hval). cbv beta iota.
  destruct (query_strategy _ self) as [| inner] eqn:Hqs; [done |].
  destruct Hbad as [Hbad | Hbad]; [discriminate |].
  rewrite bind_unfold. by rewrite Hbad.
Qed.

(** X12.  Once the arguments are validated and the wrapped object is a
    query strategy, an integer [max_candidates] below 1 and a float
    [max_candidates] outside (0, 1] make [query] raise [ValueError] at
    once: the world is as the validation left it, and the wrapped strategy
    has not been called. *)
Theorem query_rejects_out_of_range (self : t query_kwargs) (X : matrix)
    (y : list float) (cands : candidates) (bs : scalar) (ru : bool)
    (kw : query_kwargs) (w w1 : world)
    (v : matrix * list float * candidates * nat * bool)
    (inner : inner_query query_kwargs) :
  validate_data self X y cands bs ru w = (Ok v, w1) →
  query_strategy _ self = SingleAnnotatorPoolQueryStrategy _ inner →
  out_of_range_max_candidates (max_candidates _ self) →
  query _ validate_data self X y cands bs ru kw w = (Err ValueError, w1).
Proof.
  intros Hval Hqs Hbad. destruct v as [[[[X' y'] cands'] bs'] ru'].
  unfold query. rewrite (bind_ok _ _ _ _ _ Hval). cbv beta iota.
  rewrite Hqs. rewrite bind_unfold.
  by rewrite (check_max_candidates_rejects _ _ Hbad).
Qed.

(** X13.  A [max_candidates] that is a fraction in (0, 1] of a pool that
    is not empty hands the wrapped strategy at least one candidate and at
    most the pool; the fraction 1 hands it the whole pool. *)
Theorem query_fraction_of_pool (self : t query_kwargs) (X : matrix)
    (y : list float) (cands : candidates) (bs : scalar) (ru : bool)
    (kw : query_kwargs) (w : world) (X' : matrix) (y' : list float)
    (cands' : candidates) (bs' : nat) (ru' : bool) (w1 : world)
    (inner : inner_query query_kwargs) (q : Q) :
  validate_data self X y cands bs ru w = (Ok (X', y', cands', bs', ru'), w1) →
  query_strategy _ self = SingleAnnotatorPoolQueryStrategy _ inner →
  max_candidates _ self = SFloat q → (0 < q)%Q → (q <= 1)%Q →
  0 < pool_size cands' y' (missing_label _ self) →
  rs_valid (random_state _ self) w1 →
  ∃ new idx w2,
    sub_sample_of y' (missing_label _ self) cands' new idx
    ∧ 1 ≤ n_given new ≤ pool_size cands' y' (missing_label _ self)
    ∧ ((q == 1)%Q →
       n_given new = pool_size cands' y' (missing_label _ self))
    ∧ query _ validate_data self X y cands bs ru kw w
      = (inner X' y' new bs' ru' kw ≫= λ out,
           lift_result (translate cands' bs' ru' idx out)) w2.
Proof.
  intros Hval Hqs Hmc Hq0 Hq1 Hpool Hv.
  assert (Hacc : accepted_max_candidates (max_candidates _ self))
    by (by rewrite Hmc).
  destruct (query_delegates _ validate_data self X y cands bs ru kw w X' y'
              cands' bs' ru' w1 inner Hval Hqs
              (ex_intro _ tt (ex_intro _ w1
                 (check_max_candidates_accepts _ w1 Hacc))) Hv)
    as (new & idx & w2 & _ & Hsub & Hn & _ & Hquery).
  exists new, idx, w2. split; [exact Hsub |].
  rewrite Hn, Hmc. unfold sub_sample_size, resolve_max_candidates.
  set (n := pool_size cands' y' (missing_label _ self)) in *.
  pose proof (Qceiling_fraction n q Hpool Hq0 Hq1) as [Hlo Hhi].
  split; [lia |]. split; [| exact Hquery].
  intros Hone.
  assert (Hc : Qceiling (inject_Z (Z.of_nat n) * q) = Z.of_nat n).
  { rewrite <- (Qceiling_Z (Z.of_nat n)) at 2.
    apply Qceiling_comp. rewrite Hone. apply Qmult_1_r. }
  rewrite Hc. lia.
Qed.


(** X15.  For candidates given as features and no utilities asked for,
    the indices a call answers are those of the wrapped strategy, read
    through the positions drawn: each one is a position of the caller's
    candidates, and the candidate there is the one the wrapped strategy
    selected in the sub-sample. *)
Theorem query_translates_indices (self : t query_kwargs) (X : matrix)
    (y : list float) (cands : candidates) (bs : scalar) (ru : bool)
    (kw : query_kwargs) (w : world) (X' : matrix) (y' : list float)
    (rows : matrix) (bs' : nat) (w1 w' : world) (r : query_result float) :
  validate_data self X y cands bs ru w
  = (Ok (X', y', CandFeatures rows, bs', false), w1) →
  rs_valid (random_state _ self) w1 →
  query _ validate_data self X y cands bs ru kw w = (Ok r, w') →
  ∃ inner idx sub w2 inner_indices queried_indices,
    query_strategy _ self = SingleAnnotatorPoolQueryStrategy _ inner
    ∧ NoDup idx
    ∧ Forall2 (λ j x, rows !! j = Some x) idx sub
    ∧ inner X' y' (CandFeatures sub) bs' false kw w2
      = (Ok (QueryIndices inner_indices), w')
    ∧ r = QueryIndices queried_indices
    ∧ Forall2
        (λ q q', idx !! q' = Some q ∧ q < length rows
                 ∧ rows !! q = sub !! q')
        queried_indices inner_indices.
Proof.
  intros Hval Hv Hq.
  destruct (query_ok_max_candidates _ _ _ _ _ _ _ _ _ _ _ _ Hval Hq)
    as (inner & Hqs & Hacc).
  destruct (query_delegates _ validate_data self X y cands bs ru kw w X' y'
              (CandFeatures rows) bs' false w1 inner Hval Hqs
              (ex_intro _ tt (ex_intro _ w1
                 (check_max_candidates_accepts _ w1 Hacc))) Hv)
    as (new & idx & w2 & Hw & (Hsub & sub & -> & Hf2) & Hn & Hi & Hq').
  rewrite Hq' in Hq. clear Hq'. rewrite bind_unfold in Hq.
  destruct (inner X' y' (CandFeatures sub) bs' false kw w2)
    as [[out | e] w3] eqn:Hinner; [| discriminate].
  unfold lift_result, translate in Hq. simpl in Hq.
  destruct out as [qi' | qi' u']; [| discriminate].
  destruct (take_rows idx qi') as [qi |] eqn:Htake; [| discriminate].
  injection Hq as <- <-.
  exists inner, idx, sub, w2, qi', qi.
  split; [exact Hqs |].
  split; [eapply submseteq_NoDup; [exact Hsub | apply NoDup_seq] |].
  split; [exact Hf2 |]. split; [exact Hinner |]. split; [done |].
  unfold take_rows in Htake.
  destruct (mapM (λ i, idx !! i) qi') as [l |] eqn:Hm; [| discriminate].
  injection Htake as <-. apply mapM_Some_1 in Hm.
  apply Forall2_flip. eapply Forall2_impl; [exact Hm |].
  intros q' q Hlk. simpl in Hlk.
  destruct (Forall2_lookup_l _ _ _ _ _ Hf2 Hlk) as (x & Hx & Hrow).
  split; [done |]. split; [| by rewrite Hx, Hrow].
  by apply lookup_lt_Some in Hrow.
Qed.

End WrapperExtras.

Lemma query_rejects_wrong_types_witness :
  SubSamplingWrapper.query unit accept_data (sample_wrapper SOther)
    sample_X sample_y (CandFeatures sample_candidates) (SInt 2) true tt
    empty_world
  = (Err TypeError, empty_world).
Proof.
  apply (query_rejects_wrong_types (H := lcg_source) unit accept_data
           (sample_wrapper SOther) sample_X sample_y
           (CandFeatures sample_candidates) (SInt 2) true tt empty_world
           empty_world
           (sample_X, sample_y, CandFeatures sample_candidates, 2, true));
    [reflexivity | by right].
Defined.

Lemma query_rejects_out_of_range_witness :
  SubSamplingWrapper.query unit accept_data (sample_wrapper (SFloat (3 # 2)))
    sample_X sample_y (CandFeatures sample_candidates) (SInt 2) true tt
    empty_world
  = (Err ValueError, empty_world).
Proof.
  apply (query_rejects_out_of_range (H := lcg_source) unit accept_data
           (sample_wrapper (SFloat (3 # 2))) sample_X sample_y
           (CandFeatures sample_candidates) (SInt 2) true tt empty_world
           empty_world
           (sample_X, sample_y, CandFeatures sample_candidates, 2, true)
           uniform_strategy);
    [reflexivity | reflexivity | right; reflexivity].
Defined.

Lemma query_fraction_of_pool_witness :
  ∃ new idx w2,
    sub_sample_of sample_y NaN (CandFeatures sample_candidates) new idx
    ∧ 1 ≤ n_given new ≤ 3
    ∧ ((1 # 2 == 1)%Q → n_given new = 3)
    ∧ SubSamplingWrapper.query unit accept_data
        (sample_wrapper (SFloat (1 # 2))) sample_X sample_y
        (CandFeatures sample_candidates) (SInt 1) true tt empty_world
      = (uniform_strategy sample_X sample_y new 1 true tt ≫= λ out,
           lift_result
             (SubSamplingWrapper.translate (CandFeatures sample_candidates)
                1 true idx out)) w2.
Proof.
  apply (query_fraction_of_pool (H := lcg_source) unit accept_data
           (sample_wrapper (SFloat (1 # 2))) sample_X sample_y
           (CandFeatures sample_candidates) (SInt 1) true tt empty_world
           sample_X sample_y (CandFeatures sample_candidates) 1 true
           empty_world uniform_strategy (1 # 2));
    [reflexivity | reflexivity | reflexivity | reflexivity | discriminate
    | simpl; lia | exact I].
Defined.


Lemma query_translates_indices_witness :
  ∃ r inner idx sub w2 w' inner_indices queried_indices,
    (SubSamplingWrapper.query unit accept_data (sample_wrapper (SInt 2))
       sample_X sample_y (CandFeatures sample_candidates) (SInt 1) false tt
       empty_world).1 = Ok r
    ∧ inner = uniform_strategy
    ∧ NoDup idx
    ∧ Forall2 (λ j x, sample_candidates !! j = Some x) idx sub
    ∧ inner sample_X sample_y (CandFeatures sub) 1 false tt w2
      = (Ok (QueryIndices inner_indices), w')
    ∧ r = QueryIndices queried_indices
    ∧ Forall2
        (λ q q', idx !! q' = Some q ∧ q < 3
                 ∧ sample_candidates !! q = sub !! q')
        queried_indices inner_indices.
Proof.
  assert (Hok :
    is_ok (SubSamplingWrapper.query unit accept_data
             (sample_wrapper (SInt 2)) sample_X sample_y
             (CandFeatures sample_candidates) (SInt 1) false tt
             empty_world).1 = true)
    by (vm_compute; reflexivity).
  destruct (SubSamplingWrapper.query unit accept_data
              (sample_wrapper (SInt 2)) sample_X sample_y
              (CandFeatures sample_candidates) (SInt 1) false tt empty_world)
    as [[r | e] w'] eqn:Hq; [| discriminate Hok].
  destruct (query_translates_indices (H := lcg_source) unit accept_data
              (sample_wrapper (SInt 2)) sample_X sample_y
              (CandFeatures sample_candidates) (SInt 1) false tt empty_world
              sample_X sample_y sample_candidates 1 empty_world w' r
              eq_refl I Hq)
    as (inner & idx & sub & w2 & qi' & qi & Hqs & Hrest).
  injection Hqs as <-.
  exists r, uniform_strategy, idx, sub, w2, w', qi', qi.
  split; [reflexivity |]. split; [reflexivity |]. exact Hrest.
Defined.


(** ** [expected_error_reduction]: the sign of the utilities *)

Lemma Qsum_nonneg (l : list Q) :
  Forall (λ x, (0 <= x)%Q) l → (0 <= Qsum l)%Q.
Proof.
  induction 1 as [| x l Hx _ IH]; simpl; [apply Qle_refl |].
  change 0%Q with (0 + 0)%Q. by apply Qplus_le_compat.
Qed.

Lemma msum_nonneg (m : matrix) : nonneg_matrix m → (0 <= msum m)%Q.
Proof.
  intros Hm. apply Qsum_nonneg. by apply Forall_concat.
Qed.

Lemma zip_with_Qmult_nonneg (a b : list Q) :
  Forall (λ x, (0 <= x)%Q) a → Forall (λ x, (0 <= x)%Q) b →
  Forall (λ x, (0 <= x)%Q) (zip_with Qmult a b).
Proof.
  intros Ha. revert b. induction Ha as [| x a Hx _ IH]; intros b Hb;
    [constructor |].
  destruct Hb as [| y b Hy Hb]; simpl; constructor;
    [by apply Qmult_le_0_compat | by apply IH].
Qed.

Lemma nonneg_zero_one_cost (n : nat) : nonneg_matrix (zero_one_cost n).
Proof.
  unfold nonneg_matrix, zero_one_cost.
  apply Forall_fmap, Forall_forall. intros i _.
  apply Forall_fmap, Forall_forall. intros j _. simpl.
  by destruct (i =? j).
Qed.

Lemma emr_costs_nonneg (P_new C : matrix) (c : Q) :
  nonneg_matrix P_new → nonneg_matrix C →
  emr_costs P_new C = Ok c → (0 <= c)%Q.
Proof.
  intros HP HC. unfold emr_costs.
  destruct (forallb _ _); [| discriminate]. intros [= <-].
  apply Qsum_nonneg.
  apply Forall_bind. eapply Forall_impl; [exact HP |].
  intros r Hr. simpl.
  apply Forall_bind, Forall_forall. intros [pb crow] Hin. simpl.
  apply Forall_bind, Forall_forall. intros [pa c] Hin'. simpl.
  constructor; [| constructor].
  assert (Hpb : (0 <= pb)%Q).
  { apply elem_of_zip_l in Hin. simpl in Hin.
    by eapply Forall_forall in Hr. }
  assert (Hpa : (0 <= pa)%Q).
  { apply elem_of_zip_l in Hin'. simpl in Hin'.
    by eapply Forall_forall in Hr. }
  assert (Hc : (0 <= c)%Q).
  { apply elem_of_zip_r in Hin, Hin'. simpl in Hin, Hin'.
    eapply Forall_forall in HC; [| exact Hin].
    by eapply Forall_forall in HC. }
  apply Qmult_le_0_compat; [by apply Qmult_le_0_compat | done].
Qed.

Section Sign.
Context `{RandomSource} `{Classifier} `{FloatLog}.

Lemma csl_costs_nonneg (clf : estimator) (m : fitted) (X : matrix)
    (y classes : list float) (C : matrix) (c : Q) :
  (∀ X', nonneg_matrix (est_predict_proba m X')) → nonneg_matrix C →
  csl_costs clf m X y classes C = Ok c → (0 <= c)%Q.
Proof.
  intros HP HC. unfold csl_costs.
  destruct (mask_index X _) as [Xl |]; [| discriminate].
  destruct (mask_index y _) as [yl |]; [| discriminate].
  destruct (result_mapM _ _) as [idxs |]; [| discriminate].
  destruct (0 <? length Xl); [| intros [= <-]; apply Qle_refl].
  destruct (take_rows C idxs) as [rows |] eqn:Hrows; [| discriminate].
  unfold mat_mul. destruct (same_shape _ rows); [| discriminate].
  intros [= <-]. apply msum_nonneg.
  assert (Hr : nonneg_matrix rows).
  { unfold take_rows in Hrows.
    destruct (mapM (λ i, C !! i) idxs) as [l |] eqn:Hm; [| discriminate].
    injection Hrows as <-. apply mapM_Some_1 in Hm.
    apply Forall_forall. intros row Hrow.
    apply list_elem_of_lookup in Hrow as [k Hk].
    destruct (Forall2_lookup_r _ _ _ _ _ Hm Hk) as (i & _ & Hi).
    eapply Forall_forall in HC; [exact HC |].
    by eapply list_elem_of_lookup_2. }
  specialize (HP Xl). revert Hr. generalize rows.
  induction HP as [| p P Hp _ IH]; intros rows' Hr; [constructor |].
  destruct Hr as [| r R Hr HR]; simpl; constructor;
    [by apply zip_with_Qmult_nonneg | by apply IH].
Qed.

(** X17.  With a classifier whose predicted probabilities are never negative
    and a cost matrix without a negative entry (the zero-one cost of
    [C=None] is one), the methods [emr] and [csl] give no candidate a
    positive utility. *)
Theorem cost_sensitive_utilities_not_positive (clf : estimator)
    (X_cand X : matrix) (y classes : list float) (C : option matrix)
    (method : string) (w w' : world) (utilities : list Q) :
  (∀ X1 y1 X', nonneg_matrix (est_predict_proba (est_fit clf X1 y1) X')) →
  (∀ C', C = Some C' → nonneg_matrix C') →
  method = EMR ∨ method = CSL →
  expected_error_reduction clf X_cand X y classes C method w
  = (Ok utilities, w') →
  Forall (λ u, (u <= 0)%Q) utilities.
Proof.
  intros HP HC Hm Hq.
  destruct (expected_error_reduction_structure _ _ _ _ _ _ _ _ _ _ Hq)
    as (Hus & _).
  set (P := est_predict_proba (est_fit clf X y) X_cand) in *.
  set (C' := match C with None => zero_one_cost (ncols P) | Some C0 => C0 end)
    in *.
  assert (HC' : nonneg_matrix C').
  { subst C'. destruct C as [C0 |]; [by apply HC |].
    apply nonneg_zero_one_cost. }
  clearbody C'.
  clear Hq.
  induction Hus as [| ix u ixs us (vals & Hvals & ->) _ IH];
    [constructor |].
  constructor; [| exact IH].
  apply (Qopp_le_compat 0). apply Qsum_nonneg.
  unfold weighted_risks in Hvals.
  induction Hvals as [| k v ks vs (p & c & Hp & Hc & ->) _ IHv];
    [constructor |].
  constructor; [| exact IHv].
  apply Qmult_le_0_compat.
  - destruct (P !! ix.1) as [r |] eqn:Hr; [| discriminate]. simpl in Hp.
    pose proof (HP X y X_cand) as HPP. fold P in HPP.
    eapply Forall_forall in HPP; [| by eapply list_elem_of_lookup_2].
    eapply Forall_forall in HPP; [exact HPP |].
    by eapply list_elem_of_lookup_2.
  - unfold hypothesis_risk, costs_of in Hc.
    destruct Hm as [-> | ->]; simpl in Hc.
    + eapply emr_costs_nonneg; [apply HP | exact HC' | exact Hc].
    + eapply csl_costs_nonneg; [intros X'; apply HP | exact HC' | exact Hc].
Qed.
End Sign.

Lemma frequency_classifier_nonneg (est : list float * float) (X : matrix)
    (y : list float) (X' : matrix) :
  nonneg_matrix
    (est_predict_proba (Classifier := frequency_classifier)
       (frequency_fit est X y) X').
Proof.
  simpl.
  apply Forall_fmap, Forall_forall. intros x0 _. simpl.
  unfold frequency_fit. apply Forall_fmap, Forall_fmap, Forall_forall.
  intros c _. simpl. rewrite Qred_correct.
  apply Qmult_le_0_compat.
  - change 0%Q with (inject_Z 0). rewrite <- Zle_Qle.
    unfold count_label. lia.
  - apply Qinv_le_0_compat.
    change 0%Q with (inject_Z 0). rewrite <- Zle_Qle.
    assert (Hs : ∀ l : list float,
      (0 ≤ foldr Z.add 0 (count_label y <$> l))%Z).
    { induction l as [| a l IH]; [simpl; lia |].
      rewrite fmap_cons. cbn [foldr]. unfold count_label at 1. lia. }
    specialize (Hs est.1). lia.
Qed.

Lemma cost_sensitive_utilities_not_positive_witness :
  ∃ utilities w',
    expected_error_reduction (H0 := frequency_classifier)
      ([of_int 0; of_int 1], NaN) [[1%Q]; [2%Q]] [[0%Q]] [of_int 1]
      [of_int 0; of_int 1] None "emr" empty_world
    = (Ok utilities, w')
    ∧ Forall (λ u, (u <= 0)%Q) utilities.
Proof.
  assert (Hok :
    is_ok (expected_error_reduction (H0 := frequency_classifier)
             ([of_int 0; of_int 1], NaN) [[1%Q]; [2%Q]] [[0%Q]] [of_int 1]
             [of_int 0; of_int 1] None "emr" empty_world).1 = true)
    by (vm_compute; reflexivity).
  destruct (expected_error_reduction (H0 := frequency_classifier)
              ([of_int 0; of_int 1], NaN) [[1%Q]; [2%Q]] [[0%Q]] [of_int 1]
              [of_int 0; of_int 1] None "emr" empty_world)
    as [[us | e] w'] eqn:Hq; [| discriminate Hok].
  exists us, w'. split; [reflexivity |].
  apply (cost_sensitive_utilities_not_positive (H0 := frequency_classifier)
           ([of_int 0; of_int 1], NaN) [[1%Q]; [2%Q]] [[0%Q]] [of_int 1]
           [of_int 0; of_int 1] None "emr" empty_world w' us).
  - intros X1 y1 X'. apply frequency_classifier_nonneg.
  - discriminate.
  - by left.
  - exact Hq.
Defined.

(** ** [ExpectedErrorReduction.query]: a second call on the same object *)

Section Blind.
Context `{RandomSource} `{Classifier} `{FloatLog}.

Lemma world_blind_bind {A B} (m : M A) (f : A → M B) :
  world_blind m → (∀ a, world_blind (f a)) → world_blind (m ≫= f).
Proof.
  intros Hm Hf w v. rewrite !bind_unfold. specialize (Hm w v).
  destruct (m w) as [[a | e] w1], (m v) as [[a' | e'] v1]; simpl in Hm;
    try discriminate; injection Hm as <-; [apply Hf | done].
Qed.

Lemma class_loop_blind (clf : estimator) (X_cand X : matrix)
    (y classes : list float) (C : matrix) (method : string) (P : matrix)
    (i : nat) (x : list Q) (yis : list nat) (epc : list Q) :
  world_blind (class_loop clf X_cand X y classes C method P i x yis epc).
Proof.
  revert epc. induction yis as [| yi yis IH]; intros epc; [done |].
  cbn [class_loop]. apply world_blind_bind; [done |]. intros m.
  apply world_blind_bind; [done |]. intros costs.
  apply world_blind_bind; [| intros p; apply IH].
  intros w v. unfold getitem2. destruct (P !! i) as [r |]; [| done].
  by destruct (r !! yi).
Qed.

Lemma cand_loop_blind (clf : estimator) (X_cand X : matrix)
    (y classes : list float) (C : matrix) (method : string) (P : matrix)
    (cands : list (nat * list Q)) (errors epc : list Q) :
  world_blind
    (cand_loop clf X_cand X y classes C method P cands errors epc).
Proof.
  revert errors epc. induction cands as [| [i x] cands IH];
    intros errors epc; [done |].
  cbn [cand_loop]. apply world_blind_bind; [apply class_loop_blind |].
  intros epc'. apply IH.
Qed.

(** The utilities do not depend on the world the function starts in. *)
Lemma expected_error_reduction_blind (clf : estimator) (X_cand X : matrix)
    (y classes : list float) (C : option matrix) (method : string) :
  world_blind (expected_error_reduction clf X_cand X y classes C method).
Proof.
  unfold expected_error_reduction.
  destruct (_ && _); [done |].
  apply world_blind_bind; [done |]. intros m.
  apply world_blind_bind; [apply cand_loop_blind | done].
Qed.

Lemma rand_argmax_flat_object_ok (d : list float) (l : loc) (w : world)
    (st : RandomState) :
  argmax_ties d ≠ [] → rngs w !! l = Some st →
  ∃ i w', rand_argmax_flat d (RsObj l) w = (Ok i, w').
Proof.
  intros Hne Hst. unfold rand_argmax_flat.
  destruct (argmax_ties d) as [| p0 ties]; [done |].
  unfold with_rng. rewrite Hst.
  destruct (rs_randint st (length (p0 :: ties))) as [k st'].
  by do 2 eexists.
Qed.

Import ExpectedErrorReduction.

Variable check_classifier_params :
  list float → float → option matrix → option exn.

(** What [query] answers once its checks pass. *)
Lemma query_ok (X_cand X : matrix) (y : list float) (ru : bool) (self : t)
    (w : world) (est : estimator) (rs : rand_arg) (w1 : world) (us : list Q)
    (i : nat) (w2 w' : world) :
  clf self = ClassFrequencyEstimator est →
  check_classifier_params (classes self) (missing_label self) (C self)
  = None →
  array_equal (est_classes est) (classes self) = true →
  method self ∈ [EMR; CSL; LOG_LOSS] →
  check_random_state (random_state self) w = (Ok rs, w1) →
  (∀ s : t * world,
     check_array_2d X_cand s = (Ok X_cand, s)
     ∧ check_array_2d X s = (Ok X, s)
     ∧ check_array_1d y s = (Ok y, s)) →
  expected_error_reduction est X_cand X y (classes self)
    (C (with_default_C self)) (method self) w1 = (Ok us, w2) →
  rand_argmax_flat (Fin <$> us) rs w2 = (Ok i, w') →
  query check_classifier_params X_cand X y ru (self, w)
  = (Ok (if ru then QueryWithUtilities [i] [us] else QueryIndices [i]),
     (set_random_state rs (with_default_C self), w')).
Proof.
  intros Hclf Hccp Heq Hm Hrs Hdata Heer Hra.
  unfold query, Meth. rewrite bind_unfold. unfold get_self at 1.
  cbn [fst snd]. rewrite Hclf, Hccp, Heq. cbn [negb].
  rewrite bind_unfold.
  set (self1 := with_default_C self) in *.
  assert (HC : ∀ (B : Type) (k : unit → ST (t * world) B),
    match (match C self with
           | Some _ => mret ()
           | None =>
               modify_self
                 (set_C (Some (zero_one_cost (length (classes self)))))
           end) (self, w) with
    | (Ok a, s') => k a s'
    | (Err e, s') => (Err e, s')
    end = k tt (self1, w)).
  { intros B k. subst self1. unfold with_default_C. by destruct (C self). }
  rewrite HC. clear HC.
  rewrite (bool_decide_eq_true_2 _ Hm). cbn [negb].
  rewrite bind_unfold. unfold lift at 1. cbn [fst snd]. rewrite Hrs.
  rewrite bind_unfold. unfold modify_self at 1. cbn [fst snd].
  rewrite bind_unfold, (proj1 (Hdata _)).
  rewrite bind_unfold, (proj1 (proj2 (Hdata _))).
  rewrite bind_unfold, (proj2 (proj2 (Hdata _))).
  rewrite bind_unfold. unfold get_self at 1. cbn [fst snd].
  rewrite bind_unfold. unfold lift at 1. cbn [fst snd].
  set (self2 := set_random_state rs self1).
  assert (Hcl : classes self2 = classes self)
    by (subst self2 self1; unfold with_default_C; by destruct (C self)).
  assert (Hme : method self2 = method self)
    by (subst self2 self1; unfold with_default_C; by destruct (C self)).
  rewrite Hcl, Hme. change (C self2) with (C self1). rewrite Heer.
  rewrite bind_unfold. unfold lift at 1. cbn [fst snd].
  unfold rand_argmax_axis1. cbn [mapM]. rewrite !bind_unfold.
  change (random_state self2) with rs. rewrite Hra.
  by destruct ru.
Qed.

(** X18.  A second call of [query] on an object that was configured with
    an integer seed, on the same data: provided the parameter check still
    accepts the object with the cost matrix the first call has filled in,
    the second call returns, with the same utilities as the first, and
    leaves the object as the first call left it; but its tie-break is the
    second draw of the generator seeded in the first call, where the first
    call used the first draw.  The seed is not used again. *)
Theorem query_again_continues_stream (X_cand X : matrix) (y : list float)
    (ru : bool) (self self1 : t) (w w1 : world) (s : Z)
    (r1 : query_result Q) :
  random_state self = RsSeed s →
  query check_classifier_params X_cand X y ru (self, w)
  = (Ok r1, (self1, w1)) →
  check_classifier_params (classes self) (missing_label self) (C self1)
  = None →
  ∃ r2 w2 utilities i1 i2,
    query check_classifier_params X_cand X y ru (self1, w1)
    = (Ok r2, (self1, w2))
    ∧ r1 = (if ru then QueryWithUtilities [i1] [utilities]
            else QueryIndices [i1])
    ∧ r2 = (if ru then QueryWithUtilities [i2] [utilities]
            else QueryIndices [i2])
    ∧ let ties := argmax_ties (Fin <$> utilities) in
      let n := length ties in
      let first := rs_randint (rs_seed s) n in
      let second := rs_randint first.2 n in
      ties !! (first.1 mod n) = Some i1
      ∧ ties !! (second.1 mod n) = Some i2.
Proof.
  intros Hseed Hq1 Hccp2.
  destruct (query_inv _ _ _ _ _ _ _ _ _ _ Hq1)
    as (est & rs & wa & us & i1 & wb & Hclf & Hccp & Heq & Hm & Hrs & Hself1
        & _ & _ & _ & Heer & Hra & Hr1 & Hdata).
  rewrite Hseed in Hrs. unfold check_random_state in Hrs.
  injection Hrs as <- <-.
  set (l := fresh (dom (rngs w))) in *.
  pose proof (expected_error_reduction_structure _ _ _ _ _ _ _ _ _ _ Heer)
    as (_ & _ & _ & Hrb & _).
  assert (Hl : rngs wb !! l = Some (rs_seed s)).
  { rewrite Hrb. simpl. by rewrite lookup_insert_eq. }
  pose proof (rand_argmax_flat_object _ _ _ _ _ _ Hra Hl) as Hobj.
  cbv zeta in Hobj. destruct Hobj as (Hi1 & Hr1' & _).
  set (ties := argmax_ties (Fin <$> us)) in *.
  set (n := length ties) in *.
  set (first := rs_randint (rs_seed s) n) in *.
  assert (Hcls1 : classes self1 = classes self)
    by (subst self1; unfold with_default_C; by destruct (C self)).
  assert (Hmet1 : method self1 = method self)
    by (subst self1; unfold with_default_C; by destruct (C self)).
  assert (Hml1 : missing_label self1 = missing_label self)
    by (subst self1; unfold with_default_C; by destruct (C self)).
  assert (Hclf1 : clf self1 = ClassFrequencyEstimator est)
    by (subst self1; unfold with_default_C; by destruct (C self)).
  assert (Hrs1 : random_state self1 = RsObj l)
    by (subst self1; unfold with_default_C; by destruct (C self)).
  assert (Hd1 : with_default_C self1 = self1).
  { subst self1. unfold with_default_C.
    destruct (C self) eqn:HC; simpl; by rewrite ?HC. }
  assert (Hfix : set_random_state (RsObj l) (with_default_C self1) = self1).
  { rewrite Hd1. subst self1. unfold with_default_C.
    by destruct (C self). }
  pose proof (expected_error_reduction_blind est X_cand X y (classes self)
                (C self1) (method self) w1 (set_rngs <[l := rs_seed s]> w))
    as Hblind.
  rewrite Heer in Hblind. simpl in Hblind.
  destruct (expected_error_reduction est X_cand X y (classes self)
              (C self1) (method self) w1) as [r2' wc] eqn:Heer2.
  simpl in Hblind. subst r2'.
  pose proof (expected_error_reduction_structure _ _ _ _ _ _ _ _ _ _ Heer2)
    as (_ & _ & _ & Hrc & _).
  assert (Hlc : rngs wc !! l = Some first.2).
  { rewrite Hrc, Hr1'. by rewrite lookup_insert_eq. }
  assert (Hne : argmax_ties (Fin <$> us) ≠ []).
  { fold ties. intros Hnil. by rewrite Hnil in Hi1. }
  destruct (rand_argmax_flat_object_ok _ _ _ _ Hne Hlc) as (i2 & w2 & Hra2).
  pose proof (rand_argmax_flat_object _ _ _ _ _ _ Hra2 Hlc) as Hobj2.
  cbv zeta in Hobj2. destruct Hobj2 as (Hi2 & _).
  exists (if ru then QueryWithUtilities [i2] [us] else QueryIndices [i2]),
    w2, us, i1, i2.
  split; [| by repeat split].
  rewrite <- Hfix at 2.
  apply (query_ok X_cand X y ru self1 w1 est (RsObj l) w1 us i2 wc w2).
  - exact Hclf1.
  - by rewrite Hcls1, Hml1.
  - by rewrite Hcls1.
  - by rewrite Hmet1.
  - by rewrite Hrs1.
  - exact Hdata.
  - by rewrite Hcls1, Hmet1, Hd1.
  - exact Hra2.
Qed.
End Blind.

Lemma query_again_continues_stream_witness :
  ∃ r1 self1 w1 r2 w2 utilities i1 i2,
    ExpectedErrorReduction.query (H0 := frequency_classifier)
      params_accepted [[0%Q]; [0%Q]] [[0%Q]] [NaN] true
      (sample_eer [of_int 0; of_int 1] "emr" 4, empty_world)
    = (Ok r1, (self1, w1))
    ∧ ExpectedErrorReduction.query (H0 := frequency_classifier)
        params_accepted [[0%Q]; [0%Q]] [[0%Q]] [NaN] true (self1, w1)
      = (Ok r2, (self1, w2))
    ∧ r1 = QueryWithUtilities [i1] [utilities]
    ∧ r2 = QueryWithUtilities [i2] [utilities]
    ∧ let ties := argmax_ties (Fin <$> utilities) in
      let n := length ties in
      let first := rs_randint (rs_seed 4) n in
      let second := rs_randint first.2 n in
      ties !! (first.1 mod n) = Some i1
      ∧ ties !! (second.1 mod n) = Some i2.
Proof.
  assert (Hok :
    is_ok (ExpectedErrorReduction.query (H0 := frequency_classifier)
             params_accepted [[0%Q]; [0%Q]] [[0%Q]] [NaN] true
             (sample_eer [of_int 0; of_int 1] "emr" 4, empty_world)).1
    = true)
    by (vm_compute; reflexivity).
  destruct (ExpectedErrorReduction.query (H0 := frequency_classifier)
              params_accepted [[0%Q]; [0%Q]] [[0%Q]] [NaN] true
              (sample_eer [of_int 0; of_int 1] "emr" 4, empty_world))
    as [[r1 | e] [self1 w1]] eqn:Hq; [| discriminate Hok].
  destruct (query_again_continues_stream (H0 := frequency_classifier)
              params_accepted [[0%Q]; [0%Q]] [[0%Q]] [NaN] true
              (sample_eer [of_int 0; of_int 1] "emr" 4) self1 empty_world
              w1 4 r1 eq_refl Hq eq_refl)
    as (r2 & w2 & us & i1 & i2 & Hq2 & Hr1 & Hr2 & Hdraws).
  exists r1, self1, w1, r2, w2, us, i1, i2.
  split; [reflexivity |]. split; [exact Hq2 |].
  split; [exact Hr1 |]. split; [exact Hr2 | exact Hdraws].
Defined.

(** ** [ExpectedErrorReduction.query]: the object after a late failure *)

Section QueryFailure.
Context `{RandomSource} `{Classifier} `{FloatLog}.
Import ExpectedErrorReduction.

Variable check_classifier_params :
  list float → float → option matrix → option exn.


End QueryFailure.

